(** * GarmentCode body segmentation tool: a shallow embedding

    The development models [body_segmentation_tool.py]: the class
    [BodySegmentationTool] with its three segmenters
    ([geometric_segmentation], [cluster_based_segmentation],
    [transfer_segmentation]) and their helpers, the reporting methods
    [save_segmentation] and [visualize_segmentation], and the command line
    [main], which is also the run of test_six_part_segmentation.py.  It
    also models [color_body_mesh] of
    body_segmentation_visualization_universal.py, which reads the file the
    tool writes.

    Modelling choices, all taken from the source:
    - coordinates are numpy [float64] values, modelled by Rocq's primitive
      binary64 floats ([PrimFloat]), so that NaN, infinities, rounding and
      underflow behave as they do in the program; general facts about
      comparisons come from the standard library's specification of the
      primitive operations ([FloatAxioms]);
    - [self.segmentation] is a Python [dict] whose iteration order is its
      insertion order: an association list with unique keys;
    - the state of a tool is its vertex array, the vertex normals of its
      mesh and its segmentation; a method of the class is a function from
      that state to either an exception or the new state, and the value
      the Python method returns is the field [segmentation] of the new
      state (the very same object, which later calls go on mutating);
    - [print] calls have no effect on the results and are left out;
    - scikit-learn's [StandardScaler] and [KMeans] are outside the
      repository: they are parameters of the clustering segmenter;
    - so are the files and trimesh's loading, export and display: the
      loaded mesh and the dict of a loaded JSON file are inputs, and what
      is written or shown is the value computed for it. *)

From Stdlib Require Import String Ascii.
From Stdlib Require Import List Bool Arith ZArith Lia Permutation Sorted.
From Stdlib Require Import Uint63.
From Stdlib Require Import SpecFloat PrimFloat FloatOps FloatAxioms.
Import ListNotations.

#[local] Set Warnings "-inexact-float".
#[local] Open Scope string_scope.
#[local] Open Scope list_scope.

(** ** Python exceptions and results *)

Inductive exn : Type :=
| ValueError (msg : string)
| KeyError (key : string).

Inductive result (A : Type) : Type :=
| Ok (a : A)
| Raise (e : exn).

Arguments Ok {A} a.
Arguments Raise {A} e.

Definition bind {A B : Type} (r : result A) (k : A -> result B) : result B :=
  match r with
  | Ok a => k a
  | Raise e => Raise e
  end.

Notation "x <- r ;; k" := (bind r (fun x => k))
  (at level 61, r at next level, right associativity).

(** ** Insertion-ordered dictionaries *)

Module Dict.

Definition t (V : Type) : Type := list (string * V).

Definition keys {V} (d : t V) : list string := map fst d.
Definition values {V} (d : t V) : list V := map snd d.

Fixpoint get {V} (d : t V) (k : string) : option V :=
  match d with
  | [] => None
  | (k', v) :: d' => if String.eqb k' k then Some v else get d' k
  end.

Definition mem {V} (d : t V) (k : string) : bool :=
  match get d k with Some _ => true | None => false end.

(** [d[k] = v]: an existing key keeps its position, a new key goes last. *)
Fixpoint set {V} (d : t V) (k : string) (v : V) : t V :=
  match d with
  | [] => [(k, v)]
  | (k', v') :: d' =>
      if String.eqb k' k then (k', v) :: d' else (k', v') :: set d' k v
  end.

(** [del d[k]] for a key that is present. *)
Fixpoint del {V} (d : t V) (k : string) : t V :=
  match d with
  | [] => []
  | (k', v') :: d' =>
      if String.eqb k' k then d' else (k', v') :: del d' k
  end.

(** [d[k]], raising [KeyError] for a missing key. *)
Definition item {V} (d : t V) (k : string) : result V :=
  match get d k with
  | Some v => Ok v
  | None => Raise (KeyError k)
  end.

End Dict.

(** A segmentation: label to list of vertex indices. *)
Definition segmentation_t : Type := Dict.t (list nat).

(** [d[k].append(i)] and [d[k].extend(l)]: the list stored under [k] is
    mutated in place; a missing key raises [KeyError]. *)
Definition dict_extend (d : segmentation_t) (k : string) (l : list nat)
  : result segmentation_t :=
  vs <- Dict.item d k ;; Ok (Dict.set d k (vs ++ l)).

Definition dict_append (d : segmentation_t) (k : string) (i : nat)
  : result segmentation_t :=
  dict_extend d k [i].

(** ** Floating-point helpers (numpy semantics) *)

#[local] Open Scope float_scope.

Definition vec3 : Type := float * float * float.

Definition vx (v : vec3) : float := fst (fst v).
Definition vy (v : vec3) : float := snd (fst v).
Definition vz (v : vec3) : float := snd v.

Definition vadd (a b : vec3) : vec3 := (vx a + vx b, vy a + vy b, vz a + vz b).
Definition vsub (a b : vec3) : vec3 := (vx a - vx b, vy a - vy b, vz a - vz b).

Definition float_of_nat (n : nat) : float :=
  of_uint63 (Uint63.of_Z (Z.of_nat n)).

(** [a.mean(axis=0)] of an (N,3) array: the rows are added in order and the
    sum is divided by the row count; an empty array gives 0/0 = NaN (numpy
    only warns). *)
Definition mean_axis0 (vs : list vec3) : vec3 :=
  let s := match vs with
           | [] => (0, 0, 0)
           | v :: rest => fold_left vadd rest v
           end in
  let n := float_of_nat (length vs) in
  (vx s / n, vy s / n, vz s / n).

(** numpy's [minimum] and [maximum] inner loops: NaN propagates. *)
Definition np_minimum (io1 in2 : float) : float :=
  if (io1 <=? in2) || is_nan io1 then io1 else in2.

Definition np_maximum (io1 in2 : float) : float :=
  if (in2 <=? io1) || is_nan io1 then io1 else in2.

(** [a.min()] / [a.max()] of a column: an empty array raises [ValueError]. *)
Definition np_min (col : list float) : result float :=
  match col with
  | [] => Raise (ValueError "zero-size array to reduction operation minimum which has no identity")
  | a :: rest => Ok (fold_left np_minimum rest a)
  end.

Definition np_max (col : list float) : result float :=
  match col with
  | [] => Raise (ValueError "zero-size array to reduction operation maximum which has no identity")
  | a :: rest => Ok (fold_left np_maximum rest a)
  end.

(** Python's [min(iterable, key=...)]: the first item whose key is not
    beaten by a strictly smaller later key. *)
Fixpoint py_min_from {A} (key : A -> float) (best : A) (rest : list A) : A :=
  match rest with
  | [] => best
  | x :: rest' =>
      if key x <? key best then py_min_from key x rest'
      else py_min_from key best rest'
  end.

Definition py_min {A} (key : A -> float) (l : list A) : result A :=
  match l with
  | [] => Raise (ValueError "min() arg is an empty sequence")
  | x :: rest => Ok (py_min_from key x rest)
  end.

Definition enumerate {A} (l : list A) : list (nat * A) :=
  combine (seq 0 (length l)) l.

(** ** The tool *)

Record tool : Type := mkTool {
  vertices : list vec3;
  vertex_normals : list vec3;
  segmentation : segmentation_t
}.

(** [BodySegmentationTool.__init__]: the loaded mesh and an empty
    segmentation. *)
Definition init (mesh_vertices mesh_normals : list vec3) : tool :=
  mkTool mesh_vertices mesh_normals [].

Definition with_vertices (t : tool) (vs : list vec3) : tool :=
  mkTool vs (vertex_normals t) (segmentation t).

Definition with_segmentation (t : tool) (s : segmentation_t) : tool :=
  mkTool (vertices t) (vertex_normals t) s.

(** ** Geometric segmentation *)

Definition _normalize_mesh (t : tool) : tool :=
  let center := mean_axis0 (vertices t) in
  with_vertices t (map (fun v => vsub v center) (vertices t)).

Definition height_ranges : Dict.t (float * float) :=
  [ ("body", (0.45, 0.80));
    ("left_arm", (0.45, 0.80));
    ("right_arm", (0.45, 0.80));
    ("left_leg", (0.0, 0.45));
    ("right_leg", (0.0, 0.45));
    ("face_internal", (0.85, 1.0)) ]%string.

Definition _is_valid_for_part (t : tool) (vertex_idx : nat)
    (part_name : string) (height_norm : float) : bool :=
  let vertex := nth vertex_idx (vertices t) (0, 0, 0) in
  if String.eqb part_name "left_arm" then vx vertex <? 0
  else if String.eqb part_name "right_arm" then 0 <? vx vertex
  else if String.eqb part_name "left_leg" then
    (vx vertex <? 0) && (height_norm <? 0.5)
  else if String.eqb part_name "right_leg" then
    (0 <? vx vertex) && (height_norm <? 0.5)
  else if String.eqb part_name "face_internal" then 0.85 <? height_norm
  else if String.eqb part_name "body" then
    ((0.45 <=? height_norm) && (height_norm <=? 0.80))
    && (abs (vx vertex) <? 0.3)
  else true.

(** The test of one band in the inner loop. *)
Definition band_matches (t : tool) (i : nat) (height_norm : float)
    (band : string * (float * float)) : bool :=
  let '(part_name, (min_h, max_h)) := band in
  ((min_h <=? height_norm) && (height_norm <=? max_h))
  && _is_valid_for_part t i part_name height_norm.

(** The inner [for ... break] loop: the first band that matches. *)
Fixpoint first_band (t : tool) (i : nat) (height_norm : float)
    (bands : Dict.t (float * float)) : option string :=
  match bands with
  | [] => None
  | band :: rest =>
      if band_matches t i height_norm band then Some (fst band)
      else first_band t i height_norm rest
  end.

(** [np.mean(height_ranges[x])] of a pair. *)
Definition band_mean (r : float * float) : float := (fst r + snd r) / 2.

Definition band_distance (height_norm : float) (part_name : string) : float :=
  match Dict.get height_ranges part_name with
  | Some r => abs (height_norm - band_mean r)
  | None => nan
  end.

Definition closest_part (height_norm : float) : result string :=
  py_min (band_distance height_norm) (Dict.keys height_ranges).

(** The part one vertex is appended to by the assignment loop. *)
Definition vertex_part (t : tool) (i : nat) (height_norm : float)
  : result string :=
  match first_band t i height_norm height_ranges with
  | Some part_name => Ok part_name
  | None => closest_part height_norm
  end.

Fixpoint assign_vertices (t : tool) (ihs : list (nat * float))
    (seg : segmentation_t) : result segmentation_t :=
  match ihs with
  | [] => Ok seg
  | (i, height_norm) :: rest =>
      part <- vertex_part t i height_norm ;;
      seg' <- dict_append seg part i ;;
      assign_vertices t rest seg'
  end.

Definition min_vertices : nat := 10.

(** First loop of [_post_process_segmentation], over a snapshot of the
    keys. *)
Fixpoint remove_small (ks : list string) (seg : segmentation_t)
  : result segmentation_t :=
  match ks with
  | [] => Ok seg
  | part_name :: rest =>
      vs <- Dict.item seg part_name ;;
      if Nat.ltb (length vs) min_vertices
      then remove_small rest (Dict.del seg part_name)
      else remove_small rest seg
  end.

(** [set(range(n)) - assigned_vertices], listed in ascending order (the
    order in which Python lists a set is not specified; only membership
    is used below). *)
Definition unassigned_vertices (n : nat) (seg : segmentation_t) : list nat :=
  let assigned_vertices := concat (Dict.values seg) in
  filter (fun i => negb (existsb (Nat.eqb i) assigned_vertices)) (seq 0 n).

Definition _post_process_segmentation (t : tool) : result tool :=
  seg <- remove_small (Dict.keys (segmentation t)) (segmentation t) ;;
  match unassigned_vertices (length (vertices t)) seg with
  | [] => Ok (with_segmentation t seg)
  | unassigned =>
      seg' <- dict_extend seg "body" unassigned ;;
      Ok (with_segmentation t seg')
  end.

Definition normalized_heights (vs : list vec3) (bbox_min_y height : float)
  : list float :=
  map (fun v => (vy v - bbox_min_y) / height) vs.

(** Lines 45-64 of the method: the vertical bounding box of the (already
    normalized) mesh and the normalized height of every vertex. *)
Definition bbox_y (t : tool) : result (float * float) :=
  bbox_min_y <- np_min (map vy (vertices t)) ;;
  bbox_max_y <- np_max (map vy (vertices t)) ;;
  Ok (bbox_min_y, bbox_max_y).

Definition mesh_height (t : tool) : result float :=
  b <- bbox_y t ;; Ok (snd b - fst b).

Definition mesh_heights (t : tool) : result (list float) :=
  b <- bbox_y t ;;
  let height := snd b - fst b in
  Ok (normalized_heights (vertices t) (fst b) height).

(** [for part_name in height_ranges.keys(): self.segmentation[part_name] = []] *)
Definition init_parts (seg : segmentation_t) : segmentation_t :=
  fold_left (fun seg part_name => Dict.set seg part_name [])
    (Dict.keys height_ranges) seg.

(** [geometric_segmentation] up to the call of the post-processing: the
    state of the tool after the assignment loop. *)
Definition geometric_assignment (t : tool) : result tool :=
  let t := _normalize_mesh t in
  heights <- mesh_heights t ;;
  seg <- assign_vertices t (enumerate heights) (init_parts (segmentation t)) ;;
  Ok (with_segmentation t seg).

Definition geometric_segmentation (t : tool) : result tool :=
  t' <- geometric_assignment t ;;
  _post_process_segmentation t'.

(** The value a segmenter returns: [self.segmentation] of the new state. *)
Definition returned (r : result tool) : result segmentation_t :=
  t <- r ;; Ok (segmentation t).

(** ** Clustering segmentation *)

(** numpy's order on floats when sorting: NaN sorts last. *)
Definition np_lt (a b : float) : bool :=
  (a <? b) || (is_nan b && negb (is_nan a)).

(** [np.argsort(heights)]: the indices ordered by ascending height.
    numpy's default sort does not promise an order among equal heights; the
    model keeps them in index order. *)
Fixpoint argsort_insert (heights : list float) (i : nat) (sorted : list nat)
  : list nat :=
  match sorted with
  | [] => [i]
  | j :: rest =>
      if np_lt (nth i heights nan) (nth j heights nan) then i :: j :: rest
      else j :: argsort_insert heights i rest
  end.

Definition argsort (heights : list float) : list nat :=
  fold_left (fun sorted i => argsort_insert heights i sorted)
    (seq 0 (length heights)) [].

Definition body_parts : list string :=
  ["left_leg"; "right_leg"; "body"; "left_arm"; "right_arm"; "face_internal"]%string.

(** [cluster_to_part]: a dict from cluster id to part name. *)
Definition cluster_map : Type := list (nat * string).

Fixpoint cluster_get (m : cluster_map) (c : nat) : option string :=
  match m with
  | [] => None
  | (c', p) :: m' => if Nat.eqb c' c then Some p else cluster_get m' c
  end.

Fixpoint cluster_set (m : cluster_map) (c : nat) (p : string) : cluster_map :=
  match m with
  | [] => [(c, p)]
  | (c', p') :: m' =>
      if Nat.eqb c' c then (c', p) :: m' else (c', p') :: cluster_set m' c p
  end.

(** The loop of [_map_clusters_to_parts] over [enumerate(sorted_indices)]. *)
Fixpoint map_sorted (ics : list (nat * nat)) (cluster_to_part : cluster_map)
  : cluster_map :=
  match ics with
  | [] => cluster_to_part
  | (i, cluster_idx) :: rest =>
      if Nat.ltb i (length body_parts)
      then map_sorted rest
             (cluster_set cluster_to_part cluster_idx (nth i body_parts ""%string))
      else map_sorted rest (cluster_set cluster_to_part cluster_idx "body"%string)
  end.

(** [centers_original[:, 1]] *)
Definition column1 (rows : list (list float)) : list float :=
  map (fun row => nth 1 row nan) rows.

(** [np.column_stack([vertices, vertex_normals])]: one 6-component row per
    vertex; arrays of different lengths raise [ValueError]. *)
Definition column_stack (vs ns : list vec3) : result (list (list float)) :=
  if Nat.eqb (length vs) (length ns)
  then Ok (map (fun '(v, n) => [vx v; vy v; vz v; vx n; vy n; vz n]) (combine vs ns))
  else Raise (ValueError "all the input array dimensions except for the concatenation axis must match exactly"%string).

(** The loop of [cluster_based_segmentation] over [enumerate(cluster_labels)];
    a label that is no key of [cluster_to_part] raises [KeyError]. *)
Fixpoint cluster_assign (cluster_to_part : cluster_map) (ils : list (nat * nat))
    (seg : segmentation_t) : result segmentation_t :=
  match ils with
  | [] => Ok seg
  | (i, label) :: rest =>
      match cluster_get cluster_to_part label with
      | None => Raise (KeyError "cluster"%string)
      | Some part_name =>
          let seg1 := if Dict.mem seg part_name then seg
                      else Dict.set seg part_name [] in
          seg2 <- dict_append seg1 part_name i ;;
          cluster_assign cluster_to_part rest seg2
      end
  end.

Section Clustering.

(** scikit-learn, as used by the method: [StandardScaler().fit_transform],
    the same scaler's [inverse_transform] (it depends on the data the
    scaler was fitted on), and [KMeans(n_clusters, random_state=42)]
    with its [fit_predict] result and [cluster_centers_]. *)
Variable scaler_fit_transform : list (list float) -> list (list float).
Variable scaler_inverse_transform :
  list (list float) -> list (list float) -> list (list float).
Variable kmeans_fit_predict :
  nat -> list (list float) -> list nat * list (list float).

Definition _map_clusters_to_parts (features cluster_centers : list (list float))
  : cluster_map :=
  let centers_original := scaler_inverse_transform features cluster_centers in
  let heights := column1 centers_original in
  let sorted_indices := argsort heights in
  map_sorted (enumerate sorted_indices) [].

Definition cluster_based_segmentation (t : tool) (n_clusters : nat)
  : result tool :=
  features <- column_stack (vertices t) (vertex_normals t) ;;
  let features_scaled := scaler_fit_transform features in
  let '(cluster_labels, cluster_centers) :=
    kmeans_fit_predict n_clusters features_scaled in
  let cluster_to_part := _map_clusters_to_parts features cluster_centers in
  seg <- cluster_assign cluster_to_part (enumerate cluster_labels)
           (segmentation t) ;;
  Ok (with_segmentation t seg).

End Clustering.

(** ** Transfer segmentation *)

(** One entry of scipy's [cdist(..., 'euclidean')]: the squares of the
    coordinate differences are accumulated from 0 and the root is taken. *)
Definition euclidean (u v : vec3) : float :=
  let d0 := vx u - vx v in
  let d1 := vy u - vy v in
  let d2 := vz u - vz v in
  PrimFloat.sqrt (((0 + d0 * d0) + d1 * d1) + d2 * d2).

(** numpy's [argmin] over one row: the first minimum, a NaN counting as
    minimal. *)
Fixpoint argmin_from (mp : float) (min_ind i : nat) (row : list float) : nat :=
  match row with
  | [] => min_ind
  | x :: rest =>
      if negb (mp <=? x)
      then if is_nan x then i else argmin_from x i (S i) rest
      else argmin_from mp min_ind (S i) rest
  end.

Definition np_argmin (row : list float) : result nat :=
  match row with
  | [] => Raise (ValueError "attempt to get argmin of an empty sequence"%string)
  | x :: rest => if is_nan x then Ok 0%nat else Ok (argmin_from x 0 1 rest)
  end.

(** [np.argmin(cdist(vertices, ref_vertices), axis=1)] *)
Definition closest_indices (vs ref_vertices : list vec3) : result (list nat) :=
  match ref_vertices with
  | [] => Raise (ValueError "attempt to get argmin of an empty sequence"%string)
  | _ =>
      fold_right (fun v acc =>
                    c <- np_argmin (map (euclidean v) ref_vertices) ;;
                    cs <- acc ;; Ok (c :: cs))
        (Ok []) vs
  end.

(** The inner loop of [transfer_segmentation] for one part: the list that
    ends up under [part_name]. *)
Fixpoint transfer_part (ref_part : list nat) (ics : list (nat * nat))
    (acc : list nat) : list nat :=
  match ics with
  | [] => acc
  | (i, closest_idx) :: rest =>
      if existsb (Nat.eqb closest_idx) ref_part
      then transfer_part ref_part rest (acc ++ [i])
      else transfer_part ref_part rest acc
  end.

(** The outer loop over [ref_seg.items()]. *)
Fixpoint transfer_parts (closest : list nat) (ref_items : segmentation_t)
    (seg : segmentation_t) : segmentation_t :=
  match ref_items with
  | [] => seg
  | (part_name, ref_part) :: rest =>
      transfer_parts closest rest
        (Dict.set seg part_name (transfer_part ref_part (enumerate closest) []))
  end.

(** [ref_vertices] are the vertices of the loaded reference mesh and
    [ref_seg] the dict read from the reference JSON file. *)
Definition transfer_segmentation (t : tool) (ref_vertices : list vec3)
    (ref_seg : segmentation_t) : result tool :=
  closest <- closest_indices (vertices t) ref_vertices ;;
  Ok (with_segmentation t (transfer_parts closest ref_seg (segmentation t))).

(** ** Saving and statistics *)

(** The exceptions of the reporting code. *)
Inductive report_error : Type :=
| ZeroDivisionError
| IndexError.

(** [sum(len(vertices) for vertices in self.segmentation.values())] *)
Definition total_vertices (seg : segmentation_t) : nat :=
  fold_left (fun acc part => (acc + length part)%nat) (Dict.values seg) 0%nat.

(** [(len(vertices) / len(self.vertices)) * 100]: Python's division of two
    ints raises [ZeroDivisionError] for a zero divisor and is the quotient
    of the two numbers as floats otherwise (counts are far below 2^53). *)
Definition percentage (count mesh_count : nat) : float + report_error :=
  if Nat.eqb mesh_count 0 then inr ZeroDivisionError
  else inl ((float_of_nat count / float_of_nat mesh_count) * 100).

(** The last loop of [save_segmentation]: the lines it prints (part name,
    count, percentage), or the exception that ends it. *)
Fixpoint part_lines (mesh_count : nat) (items : segmentation_t)
  : list (string * nat * float) + report_error :=
  match items with
  | [] => inl []
  | (part_name, part) :: rest =>
      match percentage (length part) mesh_count with
      | inr e => inr e
      | inl p =>
          match part_lines mesh_count rest with
          | inr e => inr e
          | inl lines => inl ((part_name, length part, p) :: lines)
          end
      end
  end.

(** What [save_segmentation] produces: the dict written to the JSON file
    (the lists of the segmentation as they are), the two totals it prints
    and the lines per part. The file is written before anything is
    printed. *)
Record report : Type := mkReport {
  report_written : segmentation_t;
  report_total : nat;
  report_mesh : nat;
  report_lines : list (string * nat * float) + report_error
}.

Definition save_segmentation (t : tool) : report :=
  mkReport (segmentation t)
           (total_vertices (segmentation t))
           (length (vertices t))
           (part_lines (length (vertices t)) (segmentation t)).

(** ** Visualization *)

(** [a[i] = c] on the rows of an array, for an index in bounds. *)
Fixpoint set_at {A} (colors : list A) (i : nat) (c : A) : list A :=
  match colors, i with
  | [], _ => []
  | _ :: rest, O => c :: rest
  | x :: rest, S i' => x :: set_at rest i' c
  end.

(** [vertex_colors[vertices] = color]: numpy raises [IndexError] when an
    index is out of bounds and overwrites every listed row otherwise. The
    colour of a vertex is [None] for the default gray and [Some i] for
    [colors[i]], the colour of the part at position [i] of the dict. *)
Definition assign_color (colors : list (option nat)) (part : list nat) (c : nat)
  : list (option nat) + report_error :=
  if forallb (fun i => Nat.ltb i (length colors)) part
  then inl (fold_left (fun cs i => set_at cs i (Some c)) part colors)
  else inr IndexError.

(** The loop over [enumerate(self.segmentation.items())]. *)
Fixpoint paint (parts : list (nat * (string * list nat)))
    (colors : list (option nat)) : list (option nat) + report_error :=
  match parts with
  | [] => inl colors
  | (i, (part_name, part)) :: rest =>
      match assign_color colors part i with
      | inr e => inr e
      | inl colors' => paint rest colors'
      end
  end.

(** [visualize_segmentation] up to the colours it puts on the mesh:
    nothing is done for an empty segmentation. *)
Definition visualize_segmentation (t : tool)
  : option (list (option nat) + report_error) :=
  match segmentation t with
  | [] => None
  | _ => Some (paint (enumerate (segmentation t))
                 (repeat None (length (vertices t))))
  end.

(** ** The command line *)

Inductive method : Type := geometric | clustering | transfer.

Record arguments : Type := mkArguments {
  arg_input : string;
  arg_output : string;
  arg_method : method;
  arg_reference_mesh : option string;
  arg_reference_seg : option string;
  arg_clusters : nat;
  arg_visualize : bool;
  arg_colored_output : option string
}.

(** Python's truth value of an optional string argument. *)
Definition given (o : option string) : bool :=
  match o with
  | Some s => negb (String.eqb s "")
  | None => false
  end.

Definition path_of (o : option string) : string :=
  match o with
  | Some s => s
  | None => ""
  end.

(** How a run of [main] ends: the early return of the transfer method
    without its references, an exception of the segmenter (nothing is
    saved), or the report of [save_segmentation] with, when
    [visualize_segmentation] was reached, what it did. *)
Inductive main_result : Type :=
| NotRun
| Crashed (e : exn)
| Saved (r : report)
        (shown : option (option (list (option nat) + report_error))).

Section Main.

(** The files: [trimesh.load] gives the vertices and vertex normals of a
    mesh file, [json.load] the dict of a segmentation file. *)
Variable load_mesh : string -> list vec3 * list vec3.
Variable load_json : string -> segmentation_t.
Variable scaler_fit_transform : list (list float) -> list (list float).
Variable scaler_inverse_transform :
  list (list float) -> list (list float) -> list (list float).
Variable kmeans_fit_predict :
  nat -> list (list float) -> list nat * list (list float).

Definition main (args : arguments) : main_result :=
  let tool := init (fst (load_mesh (arg_input args)))
                   (snd (load_mesh (arg_input args))) in
  let run :=
    match arg_method args with
    | geometric => Some (geometric_segmentation tool)
    | clustering =>
        Some (cluster_based_segmentation scaler_fit_transform
                scaler_inverse_transform kmeans_fit_predict tool
                (arg_clusters args))
    | transfer =>
        if negb (given (arg_reference_mesh args))
           || negb (given (arg_reference_seg args))
        then None
        else Some (transfer_segmentation tool
                     (fst (load_mesh (path_of (arg_reference_mesh args))))
                     (load_json (path_of (arg_reference_seg args))))
    end in
  match run with
  | None => NotRun
  | Some (Raise e) => Crashed e
  | Some (Ok tool') =>
      let r := save_segmentation tool' in
      match report_lines r with
      | inr _ => Saved r None
      | inl _ =>
          if arg_visualize args || given (arg_colored_output args)
          then Saved r (Some (visualize_segmentation tool'))
          else Saved r None
      end
  end.

End Main.

(** ** Colouring a mesh from a segmentation file *)

(** [color_body_mesh] of body_segmentation_visualization_universal.py: it
    reads a mesh and a segmentation JSON file such as the one
    [save_segmentation] writes, colours the vertices by label and prints
    statistics. The indices of a JSON file are integers of any sign. *)
Module Universal.

Definition rgba : Type := float * float * float * float.

(** Python's [sub in s] on strings. *)
Fixpoint contains (sub s : string) : bool :=
  String.prefix sub s
  || match s with
     | EmptyString => false
     | String _ s' => contains sub s'
     end.

(** A dict display: a key written twice keeps its first position and its
    last value. *)
Definition dict_of {V} (items : list (string * V)) : Dict.t V :=
  fold_left (fun d kv => Dict.set d (fst kv) (snd kv)) items [].

Definition ggg_colors : Dict.t rgba :=
  dict_of [("body", (1.0, 0.0, 0.0, 1.0));
           ("left_arm", (0.0, 1.0, 0.0, 1.0));
           ("right_arm", (0.0, 0.0, 1.0, 1.0));
           ("left_leg", (1.0, 1.0, 0.0, 1.0));
           ("right_leg", (1.0, 0.0, 1.0, 1.0));
           ("face_internal", (0.0, 1.0, 1.0, 1.0))].

Definition smpl_colors : Dict.t rgba :=
  dict_of [("rightHand", (1.0, 0.0, 0.0, 0.5));
           ("rightUpLeg", (0.0, 1.0, 0.0, 0.5));
           ("leftArm", (0.0, 0.0, 1.0, 0.5));
           ("leftLeg", (1.0, 1.0, 0.0, 0.5));
           ("leftToeBase", (1.0, 0.0, 1.0, 0.5));
           ("leftFoot", (0.0, 1.0, 1.0, 0.5));
           ("spine1", (1.0, 0.0, 0.0, 0.5));
           ("spine2", (0.0, 1.0, 0.0, 0.5));
           ("leftShoulder", (0.0, 0.0, 1.0, 0.5));
           ("rightShoulder", (1.0, 1.0, 0.0, 0.5));
           ("rightFoot", (1.0, 0.0, 1.0, 0.5));
           ("head", (0.0, 1.0, 1.0, 0.5));
           ("rightArm", (1.0, 0.0, 0.0, 0.5));
           ("leftHandIndex1", (0.0, 1.0, 0.0, 0.5));
           ("rightLeg", (0.0, 0.0, 1.0, 0.5));
           ("rightHandIndex1", (1.0, 1.0, 0.0, 0.5));
           ("leftForeArm", (1.0, 0.0, 1.0, 0.5));
           ("rightForeArm", (0.0, 1.0, 1.0, 0.5));
           ("leftUpLeg", (1.0, 0.0, 0.0, 0.5));
           ("neck", (0.0, 1.0, 0.0, 0.5));
           ("rightToeBase", (1.0, 0.0, 1.0, 0.5));
           ("spine", (0.0, 1.0, 1.0, 0.5));
           ("leftUpLeg", (1.0, 0.0, 0.0, 0.5));
           ("leftHand", (0.0, 1.0, 0.0, 0.5));
           ("hips", (0.0, 0.0, 1.0, 0.5))].

(** The colour scheme is chosen by the name of the segmentation file. *)
Definition colors (seg_path : string) : Dict.t rgba :=
  if contains "ggg_body_segmentation" seg_path then ggg_colors else smpl_colors.

(** [np.ones((n, 4)) * 0.5] with the alpha column set to [1.0]. *)
Definition gray : rgba := (0.5, 0.5, 0.5, 1.0).

(** [[idx for idx in vertex_indices if 0 <= idx <= max_vertex_index]],
    with [max_vertex_index = len(mesh.vertices) - 1]. *)
Definition valid_indices (n : nat) (vertex_indices : list Z) : list Z :=
  filter (fun idx => (0 <=? idx)%Z && (idx <=? Z.of_nat n - 1)%Z) vertex_indices.

(** [vertex_colors[valid_indices] = color] *)
Definition color_part (vertex_colors : list rgba) (vertex_indices : list Z)
    (color : rgba) : list rgba :=
  fold_left (fun cs idx => set_at cs (Z.to_nat idx) color)
            (valid_indices (length vertex_colors) vertex_indices) vertex_colors.

(** The colouring loop over [body_seg.items()]: a part whose name has no
    colour in the scheme is passed over. *)
Fixpoint color_parts (table : Dict.t rgba) (items : Dict.t (list Z))
    (vertex_colors : list rgba) : list rgba :=
  match items with
  | [] => vertex_colors
  | (part_name, vertex_indices) :: rest =>
      match Dict.get table part_name with
      | Some color =>
          color_parts table rest (color_part vertex_colors vertex_indices color)
      | None => color_parts table rest vertex_colors
      end
  end.

(** [sum(len(indices) for indices in body_seg.values())] *)
Definition total_vertices (body_seg : Dict.t (list Z)) : nat :=
  fold_left (fun acc indices => (acc + length indices)%nat)
            (Dict.values body_seg) 0%nat.

(** One entry of [stats]: the count of valid indices and its percentage of
    [total_vertices], 0 when there is no index at all. *)
Definition part_stats (n total : nat) (vertex_indices : list Z) : nat * float :=
  let count := length (valid_indices n vertex_indices) in
  (count,
   if Nat.ltb 0 total
   then (float_of_nat count / float_of_nat total) * 100
   else 0).

Definition stats (n : nat) (body_seg : Dict.t (list Z)) : Dict.t (nat * float) :=
  fold_left (fun st kv =>
               Dict.set st (fst kv)
                 (part_stats n (total_vertices body_seg) (snd kv)))
            body_seg [].

(** [sum(info['vertex_count'] for info in stats.values())], the number
    printed on the line that ends in [100.00%]. *)
Definition total_valid_vertices (st : Dict.t (nat * float)) : nat :=
  fold_left (fun acc info => (acc + fst info)%nat) (Dict.values st) 0%nat.

(** What [color_body_mesh] computes before it exports the mesh: the vertex
    colours (before the conversion to bytes), the statistics and the two
    totals. [vs] are the vertices of the loaded mesh and [body_seg] the
    dict of the JSON file. *)
Record colored : Type := mkColored {
  vertex_colors : list rgba;
  part_statistics : Dict.t (nat * float);
  listed : nat;
  total_valid : nat
}.

Definition color_body_mesh (vs : list vec3) (seg_path : string)
    (body_seg : Dict.t (list Z)) : colored :=
  mkColored (color_parts (colors seg_path) body_seg (repeat gray (length vs)))
            (stats (length vs) body_seg)
            (total_vertices body_seg)
            (total_valid_vertices (stats (length vs) body_seg)).

End Universal.

(** What [json.load] gives back for the file [json.dump] wrote from a
    segmentation. *)
Definition read_back (written : segmentation_t) : Dict.t (list Z) :=
  map (fun kv => (fst kv, map Z.of_nat (snd kv))) written.

#[local] Close Scope float_scope.

(** ** Vocabulary of the statements *)

(** Index [i] appears under label [k]. *)
Definition members (seg : segmentation_t) (k : string) (i : nat) : Prop :=
  exists vs, Dict.get seg k = Some vs /\ In i vs.

(** The label sets cover [0, n), stay inside it and are pairwise disjoint:
    every index below [n] is under exactly one label. *)
Definition partitions (seg : segmentation_t) (n : nat) : Prop :=
  (forall i, i < n ->
     exists k, members seg k i /\ forall k', members seg k' i -> k' = k)
  /\ (forall k i, members seg k i -> i < n).

(** The indices under label [k], none for a label that is absent. *)
Definition indices_of (seg : segmentation_t) (k : string) : list nat :=
  match Dict.get seg k with
  | Some vs => vs
  | None => []
  end.


(** The indices the clustering loop puts under label [k]. *)
Definition clustered (cluster_to_part : cluster_map) (ils : list (nat * nat))
    (k : string) : list nat :=
  map fst
    (filter (fun il => match cluster_get cluster_to_part (snd il) with
                       | Some p => String.eqb p k
                       | None => false
                       end) ils).

(** A reference segmentation without the indices that are no index of a
    reference mesh of [m] vertices. *)
Definition in_range_only (m : nat) (ref_seg : segmentation_t) : segmentation_t :=
  map (fun kv => (fst kv, filter (fun r => Nat.ltb r m) (snd kv))) ref_seg.

(** The colour the painting loop leaves on vertex [j]: that of the last
    part that lists [j], the colour it had when no part does. *)
Definition colour_of (parts : list (nat * (string * list nat))) (j : nat)
    (start : option nat) : option nat :=
  fold_left (fun acc p => if existsb (Nat.eqb j) (snd (snd p))
                          then Some (fst p) else acc) parts start.

(** The colour the loop of [color_body_mesh] leaves on vertex [j]: that of
    the last part with a colour in the scheme that lists [j]. *)
Definition colour_from (table : Dict.t Universal.rgba) (items : Dict.t (list Z))
    (j : nat) (start : Universal.rgba) : Universal.rgba :=
  fold_left (fun acc kv =>
               match Dict.get table (fst kv) with
               | Some c => if existsb (Z.eqb (Z.of_nat j)) (snd kv) then c else acc
               | None => acc
               end) items start.

(** The part names and counts of the printed lines. *)
Definition line_counts (lines : list (string * nat * float)) : list (string * nat) :=
  map fst lines.

(** All three coordinates are finite numbers. *)
Definition finite_vertex (v : vec3) : Prop :=
  is_finite (vx v) = true /\ is_finite (vy v) = true /\ is_finite (vz v) = true.


(** A part the post-processing keeps. *)
Definition big_enough (kv : string * list nat) : bool :=
  negb (Nat.ltb (length (snd kv)) min_vertices).

(** ** Example inputs *)

(** The value of a run, for statements about concrete runs. *)
Definition value_or {A} (r : result A) (d : A) : A :=
  match r with
  | Ok a => a
  | Raise _ => d
  end.

Definition tool_of (r : result tool) : tool := value_or r (init [] []).

(** Ten vertices at 0.6 of the height, one at the bottom and one at the top. *)
Definition mesh12 : list vec3 :=
  repeat (0, 0.6, 0)%float 10 ++ [(0, 0, 0); (0, 1, 0)]%float.

(** Ten vertices low on the left and a single one at the top. *)
Definition mesh_leg_and_top : list vec3 :=
  repeat (-1, 0, 0)%float 10 ++ [(0, 1, 0)%float].

(** Ten vertices that share one vertical coordinate. *)
Definition mesh_flat : list vec3 := repeat (0, 0, 0)%float 10.

Definition normals12 : list vec3 := repeat (0, 0, 1)%float 12.

(** A single vertex, and a reference mesh with a second vertex far away. *)
Definition mesh_one : list vec3 := [(0, 0, 0)%float].
Definition mesh_pair : list vec3 := [(0, 0, 0); (5, 0, 0)]%float.

(** Two distinct vertices so close that the square of their distance
    underflows to 0. *)
Definition mesh_close : list vec3 := [(0, 0, 0); (1e-200, 0, 0)]%float.

(** Reference segmentations: one that claims vertex 0 twice, one that
    covers vertex 1 only, one that splits two vertices. *)
Definition ref_overlap : segmentation_t := [("a", [0]); ("b", [0])].
Definition ref_partial : segmentation_t := [("a", [1])].
Definition ref_split : segmentation_t := [("a", [0]); ("b", [1])].

(** A one-vertex tool that already holds two labels, and a reference
    segmentation with an index beyond the reference mesh. *)
Definition tool_with_labels : tool := mkTool mesh_one [] [("a", [7]); ("head", [0])].
Definition ref_beyond : segmentation_t := [("a", [0; 5]); ("b", [9])].

(** Stand-ins for the files of a run of [main]: every mesh file holds
    [mesh12] with [normals12], every segmentation file [ref_split]. *)
Definition toy_load_mesh (path : string) : list vec3 * list vec3 :=
  (mesh12, normals12).

Definition toy_load_json (path : string) : segmentation_t := ref_split.

Definition geometric_arguments : arguments :=
  mkArguments "body.obj" "segmentation.json" geometric None None 8 true None.

Definition transfer_arguments : arguments :=
  mkArguments "body.obj" "segmentation.json" transfer
    (Some "reference.obj") (Some "reference.json") 8 false (Some "colored.obj").

(** A segmentation file with an index out of range, a negative index, a
    label without a colour and a vertex under two labels. *)
Definition body_seg_mixed : Dict.t (list Z) :=
  [("body", [0; 5; -1]%Z); ("hat", [1]%Z); ("left_arm", [0]%Z)].

(** A tool that already holds a label of another name for all twelve
    vertices of [mesh12]. *)
Definition tool_with_head : tool := mkTool mesh12 normals12 [("head", seq 0 12)].

(** Stand-ins for scikit-learn in concrete runs: a scaler that leaves the
    features as they are, and a two-cluster result that puts the vertices
    above the mean height in cluster 0 and the others in cluster 1. *)
Definition toy_fit_transform (features : list (list float)) : list (list float) :=
  features.

Definition toy_inverse_transform (features centers : list (list float))
  : list (list float) := centers.

Definition toy_kmeans (n_clusters : nat) (features : list (list float))
  : list nat * list (list float) :=
  let ys := column1 features in
  let mean := (fold_left PrimFloat.add ys 0 / float_of_nat (length ys))%float in
  (map (fun y => if (mean <? y)%float then 0 else 1) ys,
   [[0; mean + 1; 0; 0; 0; 0]; [0; mean - 1; 0; 0; 0; 0]]%float).

(** ** Order facts on binary64 floats *)

Module FloatOrder.

#[local] Open Scope Z_scope.

(** A non-NaN float is placed in a lexicographically ordered triple: its
    class, then exponent and mantissa (negated for negative numbers). *)
Definition key : Type := Z * Z * Z.

Definition SFkey (x : spec_float) : option key :=
  match x with
  | S754_nan => None
  | S754_infinity s => Some (if s then (-2, 0, 0) else (2, 0, 0))
  | S754_zero _ => Some (0, 0, 0)
  | S754_finite s m e => Some (if s then (-1, - e, Zneg m) else (1, e, Zpos m))
  end.

Definition fkey (x : float) : option key := SFkey (Prim2SF x).

Definition key_compare (a b : key) : comparison :=
  let '(a1, a2, a3) := a in
  let '(b1, b2, b3) := b in
  match a1 ?= b1 with
  | Eq => match a2 ?= b2 with Eq => a3 ?= b3 | c => c end
  | c => c
  end.

Definition key_lt (a b : key) : Prop :=
  let '(a1, a2, a3) := a in
  let '(b1, b2, b3) := b in
  a1 < b1 \/ (a1 = b1 /\ (a2 < b2 \/ (a2 = b2 /\ a3 < b3))).

Definition olt (a b : option key) : Prop :=
  match a, b with Some a, Some b => key_lt a b | _, _ => False end.

Definition key_eq (a b : key) : Prop :=
  let '(a1, a2, a3) := a in
  let '(b1, b2, b3) := b in
  a1 = b1 /\ a2 = b2 /\ a3 = b3.

Definition oeq (a b : option key) : Prop :=
  match a, b with Some a, Some b => key_eq a b | _, _ => False end.

Lemma SFcompare_key x y :
  SFcompare x y =
  match SFkey x, SFkey y with
  | Some a, Some b => Some (key_compare a b)
  | _, _ => None
  end.
Proof.
  destruct x as [sx|sx| |sx mx ex], y as [sy|sy| |sy my ey];
    try destruct sx; try destruct sy; try reflexivity.
  cbn. rewrite Z.compare_opp, (Z.compare_antisym ex ey).
  destruct (ex ?= ey); reflexivity.
Qed.

Lemma key_compare_lt a b : key_compare a b = Lt <-> key_lt a b.
Proof.
  destruct a as [[a1 a2] a3], b as [[b1 b2] b3]. unfold key_compare, key_lt.
  destruct (Z.compare_spec a1 b1), (Z.compare_spec a2 b2), (Z.compare_spec a3 b3);
    split; intros; try discriminate; try reflexivity; lia.
Qed.

Lemma key_compare_eq a b : key_compare a b = Eq <-> key_eq a b.
Proof.
  destruct a as [[a1 a2] a3], b as [[b1 b2] b3]. unfold key_compare, key_eq.
  destruct (Z.compare_spec a1 b1), (Z.compare_spec a2 b2), (Z.compare_spec a3 b3);
    split; intros; try discriminate; try reflexivity; lia.
Qed.

Lemma ltb_true x y : (x <? y)%float = true <-> olt (fkey x) (fkey y).
Proof.
  rewrite ltb_spec. unfold SFltb, fkey. rewrite SFcompare_key.
  destruct (SFkey (Prim2SF x)) as [a|], (SFkey (Prim2SF y)) as [b|]; cbn;
    try (split; [discriminate | contradiction]).
  rewrite <- key_compare_lt. destruct (key_compare a b); split; congruence.
Qed.

Lemma eqb_true x y : (x =? y)%float = true <-> oeq (fkey x) (fkey y).
Proof.
  rewrite eqb_spec. unfold SFeqb, fkey. rewrite SFcompare_key.
  destruct (SFkey (Prim2SF x)) as [a|], (SFkey (Prim2SF y)) as [b|]; cbn;
    try (split; [discriminate | contradiction]).
  rewrite <- key_compare_eq. destruct (key_compare a b); split; congruence.
Qed.

Lemma leb_true x y :
  (x <=? y)%float = true <-> olt (fkey x) (fkey y) \/ oeq (fkey x) (fkey y).
Proof.
  rewrite leb_spec. unfold SFleb, fkey. rewrite SFcompare_key.
  destruct (SFkey (Prim2SF x)) as [a|], (SFkey (Prim2SF y)) as [b|]; cbn;
    try (split; [discriminate | tauto]).
  rewrite <- key_compare_lt, <- key_compare_eq.
  destruct (key_compare a b); split; intros H; try tauto; try discriminate;
    destruct H; discriminate.
Qed.

Lemma is_nan_true x : is_nan x = true <-> fkey x = None.
Proof.
  unfold is_nan. rewrite negb_true_iff, <- not_true_iff_false, eqb_true.
  destruct (fkey x) as [[[a b] c]|]; cbn; split; intros H;
    try congruence; tauto.
Qed.

Lemma ltb_false x y : (x <? y)%float = false <-> ~ olt (fkey x) (fkey y).
Proof. rewrite <- not_true_iff_false, ltb_true. reflexivity. Qed.

Lemma leb_false x y :
  (x <=? y)%float = false <-> ~ (olt (fkey x) (fkey y) \/ oeq (fkey x) (fkey y)).
Proof. rewrite <- not_true_iff_false, leb_true. reflexivity. Qed.

Lemma eqb_false x y : (x =? y)%float = false <-> ~ oeq (fkey x) (fkey y).
Proof. rewrite <- not_true_iff_false, eqb_true. reflexivity. Qed.

Lemma is_nan_false x : is_nan x = false <-> fkey x <> None.
Proof. rewrite <- not_true_iff_false, is_nan_true. reflexivity. Qed.

Lemma nan_unique x : is_nan x = true -> x = nan.
Proof.
  rewrite is_nan_true. unfold fkey. intros H. apply Prim2SF_inj.
  destruct (Prim2SF x) as [s|s| |s m e]; try discriminate; reflexivity.
Qed.

(** Turns comparisons of floats into facts on keys and lets [lia] finish. *)
Ltac to_keys :=
  repeat match goal with
    | H : context [(_ <? _)%float = true] |- _ => rewrite ltb_true in H
    | H : context [(_ <? _)%float = false] |- _ => rewrite ltb_false in H
    | H : context [(_ <=? _)%float = true] |- _ => rewrite leb_true in H
    | H : context [(_ <=? _)%float = false] |- _ => rewrite leb_false in H
    | H : context [(_ =? _)%float = true] |- _ => rewrite eqb_true in H
    | H : context [(_ =? _)%float = false] |- _ => rewrite eqb_false in H
    | H : context [is_nan _ = true] |- _ => rewrite is_nan_true in H
    | H : context [is_nan _ = false] |- _ => rewrite is_nan_false in H
    end;
  rewrite ?ltb_true, ?ltb_false, ?leb_true, ?leb_false, ?eqb_true, ?eqb_false,
    ?is_nan_true, ?is_nan_false.

Ltac solve_keys :=
  repeat match goal with
    | H : context [fkey ?x] |- _ => revert H
    end;
  repeat match goal with
    | |- context [fkey ?x] =>
        let k := fresh "k" in
        generalize (fkey x); intros k; destruct k as [[[? ?] ?]|]
    end;
  cbn [olt oeq key_lt key_eq]; intros;
  try solve [ intuition (try discriminate; try congruence; try lia) ].

Ltac float_order := to_keys; solve_keys.


Lemma ltb_trans x y z :
  (x <? y)%float = true -> (y <? z)%float = true -> (x <? z)%float = true.
Proof. intros. float_order. Qed.



Lemma zero_lt_not_leb x y :
  (0 <? x)%float = true -> (y =? 0)%float = true -> (x <=? y)%float = false.
Proof. intros. float_order. Qed.

Lemma zero_leb_pos x y :
  (x =? 0)%float = true -> (0 <? y)%float = true -> (x <=? y)%float = true.
Proof. intros. float_order. Qed.


End FloatOrder.

(** ** Facts on dictionaries *)

Module DictFacts.
Import Dict.

Section Facts.
Context {V : Type}.
Implicit Types (d : Dict.t V) (k : string) (v : V).

Lemma get_in_keys d k v : get d k = Some v -> In k (keys d).
Proof.
  induction d as [|[k' v'] d IH]; cbn; [discriminate|].
  destruct (String.eqb_spec k' k); [left; assumption | right; auto].
Qed.

Lemma in_keys_get d k : In k (keys d) -> exists v, get d k = Some v.
Proof.
  induction d as [|[k' v'] d IH]; cbn; [contradiction|].
  destruct (String.eqb_spec k' k); [eauto|].
  intros [?|?]; [contradiction | auto].
Qed.

Lemma get_in d k v : get d k = Some v -> In (k, v) d.
Proof.
  induction d as [|[k' v'] d IH]; cbn; [discriminate|].
  destruct (String.eqb_spec k' k) as [->|].
  - intros [= ->]. left; reflexivity.
  - right; auto.
Qed.

Lemma in_get d k v : NoDup (keys d) -> In (k, v) d -> get d k = Some v.
Proof.
  induction d as [|[k' v'] d IH]; cbn; [contradiction|].
  intros Hnd [Heq|Hin].
  - injection Heq as -> ->. rewrite String.eqb_refl. reflexivity.
  - inversion Hnd as [|? ? Hk Hnd']; subst.
    destruct (String.eqb_spec k' k) as [->|]; [|auto].
    exfalso. apply Hk. change k with (fst (k, v)). apply in_map, Hin.
Qed.

Lemma get_set_same d k v : get (set d k v) k = Some v.
Proof.
  induction d as [|[k' v'] d IH]; cbn.
  - rewrite String.eqb_refl. reflexivity.
  - destruct (String.eqb_spec k' k) as [->|Hne]; cbn.
    + rewrite String.eqb_refl. reflexivity.
    + destruct (String.eqb_spec k' k); [contradiction | exact IH].
Qed.

Lemma get_set_other d k k' v : k <> k' -> get (set d k v) k' = get d k'.
Proof.
  intros Hne. induction d as [|[k0 v0] d IH]; cbn.
  - destruct (String.eqb_spec k k'); [contradiction | reflexivity].
  - destruct (String.eqb_spec k0 k) as [->|]; cbn.
    + destruct (String.eqb_spec k k'); [contradiction | reflexivity].
    + rewrite IH. reflexivity.
Qed.

Lemma keys_set_in d k v : In k (keys d) -> keys (set d k v) = keys d.
Proof.
  induction d as [|[k0 v0] d IH]; cbn; [contradiction|].
  destruct (String.eqb_spec k0 k) as [->|Hne]; cbn; [reflexivity|].
  intros [?|Hin]; [contradiction|]. f_equal. apply IH, Hin.
Qed.

Lemma keys_set_not_in d k v :
  ~ In k (keys d) -> keys (set d k v) = keys d ++ [k].
Proof.
  induction d as [|[k0 v0] d IH]; cbn; [reflexivity|].
  intros Hn. destruct (String.eqb_spec k0 k) as [->|Hne]; cbn.
  - exfalso; apply Hn; left; reflexivity.
  - f_equal. apply IH. intros ?; apply Hn; right; assumption.
Qed.

Lemma in_keys_set d k k' v : In k' (keys (set d k v)) <-> k' = k \/ In k' (keys d).
Proof.
  destruct (in_dec string_dec k (keys d)) as [Hin|Hn].
  - rewrite keys_set_in by assumption. split; [auto|]. intros [->|?]; assumption.
  - rewrite keys_set_not_in by assumption. rewrite in_app_iff. cbn.
    split; intros H; [destruct H as [?|[?|[]]]; auto | destruct H; auto].
Qed.

Lemma NoDup_keys_set d k v : NoDup (keys d) -> NoDup (keys (set d k v)).
Proof.
  intros Hnd. destruct (in_dec string_dec k (keys d)) as [Hin|Hn].
  - rewrite keys_set_in by assumption. assumption.
  - rewrite keys_set_not_in by assumption.
    apply NoDup_app; [assumption | repeat constructor; intros [] | ].
    intros x Hx [<-|[]]. contradiction.
Qed.

Lemma del_filter d k :
  NoDup (keys d) ->
  del d k = filter (fun kv => negb (String.eqb (fst kv) k)) d.
Proof.
  induction d as [|[k0 v0] d IH]; cbn; [reflexivity|].
  intros Hnd. inversion Hnd as [|? ? Hk Hnd']; subst.
  destruct (String.eqb_spec k0 k) as [->|Hne]; cbn.
  - symmetry. apply forallb_filter_id. apply forallb_forall.
    intros [k1 v1] Hin. cbn. destruct (String.eqb_spec k1 k) as [->|]; [|reflexivity].
    exfalso. apply Hk. change k with (fst (k, v1)). apply in_map, Hin.
  - rewrite IH by assumption. reflexivity.
Qed.

End Facts.

End DictFacts.


(** ** The assignment loop of the geometric segmenter *)

Import DictFacts.

Lemma bind_ok {A B} (r : result A) (k : A -> result B) b :
  bind r k = Ok b -> exists a, r = Ok a /\ k a = Ok b.
Proof. destruct r as [a|e]; cbn; [eauto | discriminate]. Qed.

Lemma concat_values_set (d : segmentation_t) k vs l :
  Dict.get d k = Some vs ->
  Permutation (concat (Dict.values (Dict.set d k (vs ++ l))))
              (concat (Dict.values d) ++ l).
Proof.
  induction d as [|[k0 v0] d IH]; cbn; [discriminate|].
  destruct (String.eqb_spec k0 k) as [->|Hne]; cbn.
  - intros [= ->]. rewrite <- !app_assoc. apply Permutation_app_head.
    apply Permutation_app_comm.
  - intros H. rewrite <- app_assoc. apply Permutation_app_head. apply IH, H.
Qed.

Lemma dict_extend_ok (d : segmentation_t) k l :
  In k (Dict.keys d) ->
  exists vs, Dict.get d k = Some vs /\
             dict_extend d k l = Ok (Dict.set d k (vs ++ l)).
Proof.
  intros Hin. apply in_keys_get in Hin as [vs Hvs]. exists vs. split; [assumption|].
  unfold dict_extend, Dict.item. rewrite Hvs. reflexivity.
Qed.

Lemma py_min_from_in {A} (key : A -> float) best rest :
  In (py_min_from key best rest) (best :: rest).
Proof.
  revert best. induction rest as [|x rest IH]; intros best; cbn; [auto|].
  destruct (key x <? key best)%float.
  - right. apply IH.
  - destruct (IH best) as [H|H]; [left; exact H | right; right; exact H].
Qed.

Lemma first_band_in t i h bands p :
  first_band t i h bands = Some p -> In p (Dict.keys bands).
Proof.
  induction bands as [|band bands IH]; cbn; [discriminate|].
  destruct (band_matches t i h band).
  - intros [= <-]. left; reflexivity.
  - intros H. right. apply IH, H.
Qed.

Lemma closest_part_ok h :
  exists p, closest_part h = Ok p /\ In p (Dict.keys height_ranges).
Proof.
  unfold closest_part. cbn [Dict.keys height_ranges map fst py_min].
  eexists. split; [reflexivity|]. apply py_min_from_in.
Qed.

Lemma vertex_part_ok t i h :
  exists p, vertex_part t i h = Ok p /\ In p (Dict.keys height_ranges).
Proof.
  unfold vertex_part. destruct (first_band t i h height_ranges) as [p|] eqn:E.
  - exists p. split; [reflexivity|]. eapply first_band_in, E.
  - apply closest_part_ok.
Qed.

(** What the assignment loop does to a segmentation that has the six
    parts: no exception, the keys stay, every index goes under the part of
    its vertex and nothing else changes. *)
Lemma assign_vertices_spec t ihs : forall seg,
  incl (Dict.keys height_ranges) (Dict.keys seg) ->
  exists seg',
    assign_vertices t ihs seg = Ok seg'
    /\ Dict.keys seg' = Dict.keys seg
    /\ Permutation (concat (Dict.values seg'))
                   (concat (Dict.values seg) ++ map fst ihs)
    /\ (forall i h p, In (i, h) ihs -> vertex_part t i h = Ok p ->
          exists vs, Dict.get seg' p = Some vs /\ In i vs)
    /\ (forall k vs i, Dict.get seg k = Some vs -> In i vs ->
          exists vs', Dict.get seg' k = Some vs' /\ In i vs').
Proof.
  induction ihs as [|[i h] ihs IH]; intros seg Hkeys.
  - exists seg. cbn. rewrite app_nil_r. repeat split; auto.
    + intros ? ? ? []. 
    + eauto.
  - destruct (vertex_part_ok t i h) as (p & Hp & Hin).
    destruct (dict_extend_ok seg p [i] (Hkeys _ Hin)) as (vs & Hvs & Hext).
    set (seg1 := Dict.set seg p (vs ++ [i])) in *.
    assert (Hk1 : Dict.keys seg1 = Dict.keys seg).
    { apply keys_set_in. eapply get_in_keys, Hvs. }
    destruct (IH seg1) as (seg' & Hrun & Hk' & Hperm & Hnew & Hold).
    { rewrite Hk1. exact Hkeys. }
    exists seg'. cbn [assign_vertices]. rewrite Hp. cbn [bind].
    unfold dict_append. rewrite Hext. cbn [bind]. rewrite Hrun.
    repeat split.
    + congruence.
    + rewrite Hperm. cbn [map fst]. unfold seg1.
      rewrite (concat_values_set seg p vs [i] Hvs).
      rewrite <- app_assoc. reflexivity.
    + intros i' h' p' [Heq|Hin'] Hp'.
      * injection Heq as <- <-. assert (p' = p) by congruence. subst p'.
        apply (Hold p (vs ++ [i]) i).
        -- apply get_set_same.
        -- apply in_or_app. right. left. reflexivity.
      * eapply Hnew; eassumption.
    + intros k vs0 i0 Hget Hin0.
      destruct (string_dec p k) as [->|Hne].
      * apply (Hold k (vs ++ [i]) i0).
        -- apply get_set_same.
        -- assert (vs0 = vs) by congruence. subst. apply in_or_app. left. assumption.
      * apply (Hold k vs0 i0); [|assumption].
        unfold seg1. rewrite get_set_other by assumption. assumption.
Qed.

Lemma enumerate_fst {A} (l : list A) : map fst (enumerate l) = seq 0 (length l).
Proof.
  unfold enumerate. generalize 0. induction l as [|a l IH]; intros n; cbn; [reflexivity|].
  rewrite IH. reflexivity.
Qed.

Lemma combine_seq_in {A} (l : list A) (d : A) : forall n i,
  i < length l -> In (n + i, nth i l d) (combine (seq n (length l)) l).
Proof.
  induction l as [|a l IH]; intros n i Hi; cbn in *; [lia|].
  destruct i as [|i].
  - left. rewrite Nat.add_0_r. reflexivity.
  - right. replace (n + S i) with (S n + i) by lia. apply IH. lia.
Qed.

Lemma enumerate_in {A} (l : list A) (d : A) i :
  i < length l -> In (i, nth i l d) (enumerate l).
Proof. intros Hi. apply (combine_seq_in l d 0 i Hi). Qed.

(** ** Partitions *)

Lemma in_concat_values (d : segmentation_t) i :
  In i (concat (Dict.values d)) <-> exists k vs, In (k, vs) d /\ In i vs.
Proof.
  unfold Dict.values. rewrite in_concat. split.
  - intros (vs & Hvs & Hi). apply in_map_iff in Hvs as ([k vs'] & <- & Hin). eauto.
  - intros (k & vs & Hin & Hi). exists vs. split; [|assumption].
    change vs with (snd (k, vs)). apply in_map, Hin.
Qed.

Lemma NoDup_app_disjoint {A} (l l' : list A) a :
  NoDup (l ++ l') -> In a l -> In a l' -> False.
Proof.
  induction l as [|b l IH]; cbn; [contradiction|].
  intros Hnd [->|Hin] Hin'.
  - inversion Hnd; subst. apply H1. apply in_or_app. right. assumption.
  - inversion Hnd; subst. auto.
Qed.

Lemma NoDup_concat_unique (d : segmentation_t) k k' vs vs' i :
  NoDup (concat (Dict.values d)) -> NoDup (Dict.keys d) ->
  In (k, vs) d -> In (k', vs') d -> In i vs -> In i vs' -> k = k'.
Proof.
  induction d as [|[k0 v0] d IH]; cbn; [contradiction|].
  intros Hnd Hk [H1|H1] [H2|H2] Hi Hi'.
  - congruence.
  - injection H1 as -> ->. exfalso.
    eapply NoDup_app_disjoint; [exact Hnd | exact Hi |].
    apply in_concat_values. eauto.
  - injection H2 as -> ->. exfalso.
    eapply NoDup_app_disjoint; [exact Hnd | exact Hi' |].
    apply in_concat_values. eauto.
  - inversion Hk; subst. apply NoDup_app_remove_l in Hnd. eauto.
Qed.

Lemma permutation_partitions (seg : segmentation_t) n :
  NoDup (Dict.keys seg) ->
  Permutation (concat (Dict.values seg)) (seq 0 n) ->
  partitions seg n.
Proof.
  intros Hk Hperm.
  assert (Hnd : NoDup (concat (Dict.values seg))).
  { eapply Permutation_NoDup; [symmetry; exact Hperm | apply seq_NoDup]. }
  split.
  - intros i Hi.
    assert (Hin : In i (concat (Dict.values seg))).
    { eapply Permutation_in; [symmetry; exact Hperm|]. apply in_seq. lia. }
    apply in_concat_values in Hin as (k & vs & Hkv & Hivs).
    exists k. split.
    + exists vs. split; [apply in_get; assumption | assumption].
    + intros k' (vs' & Hget' & Hi').
      eapply NoDup_concat_unique; eauto using get_in.
  - intros k i (vs & Hget & Hi').
    assert (Hin : In i (seq 0 n)).
    { eapply Permutation_in; [exact Hperm|]. apply in_concat_values.
      eauto using get_in. }
    apply in_seq in Hin. lia.
Qed.

(** ** The state after the assignment loop, on a fresh tool *)

Lemma mesh_heights_ok t v vs :
  vertices t = v :: vs ->
  exists heights, mesh_heights t = Ok heights
                  /\ length heights = length (vertices t).
Proof.
  intros Hv. unfold mesh_heights, bbox_y. rewrite Hv. cbn.
  eexists. split; [reflexivity|]. unfold normalized_heights.
  cbn. rewrite length_map. reflexivity.
Qed.

Lemma mesh_heights_length t heights :
  mesh_heights t = Ok heights -> length heights = length (vertices t).
Proof.
  unfold mesh_heights. intros H. apply bind_ok in H as (b & _ & H).
  injection H as <-. unfold normalized_heights. apply length_map.
Qed.

Lemma normalize_length t : length (vertices (_normalize_mesh t)) = length (vertices t).
Proof. unfold _normalize_mesh. cbn. apply length_map. Qed.

Lemma init_parts_fresh :
  init_parts [] = map (fun k => (k, [])) (Dict.keys height_ranges).
Proof. reflexivity. Qed.

Lemma geometric_assignment_spec vs ns t1 :
  geometric_assignment (init vs ns) = Ok t1 ->
  exists heights,
    mesh_heights (_normalize_mesh (init vs ns)) = Ok heights
    /\ length heights = length vs
    /\ vertices t1 = vertices (_normalize_mesh (init vs ns))
    /\ Dict.keys (segmentation t1) = Dict.keys height_ranges
    /\ Permutation (concat (Dict.values (segmentation t1))) (seq 0 (length vs))
    /\ (forall i p, i < length vs ->
          vertex_part (_normalize_mesh (init vs ns)) i (nth i heights nan) = Ok p ->
          members (segmentation t1) p i).
Proof.
  unfold geometric_assignment. intros H.
  apply bind_ok in H as (heights & Hh & H).
  apply bind_ok in H as (seg & Hseg & H). injection H as <-.
  pose proof (mesh_heights_length _ _ Hh) as Hlen.
  rewrite normalize_length in Hlen. cbn [init vertices] in Hlen.
  exists heights. split; [exact Hh|]. split; [exact Hlen|]. split; [reflexivity|].
  destruct (assign_vertices_spec (_normalize_mesh (init vs ns)) (enumerate heights)
              (init_parts (segmentation (_normalize_mesh (init vs ns)))))
    as (seg' & Hrun & Hk & Hperm & Hnew & _).
  { cbn [init segmentation _normalize_mesh with_vertices].
    rewrite init_parts_fresh. unfold Dict.keys at 2. rewrite map_map. cbn [fst].
    rewrite map_id. apply incl_refl. }
  rewrite Hrun in Hseg. injection Hseg as <-.
  cbn [with_segmentation segmentation].
  split.
  { rewrite Hk. reflexivity. }
  split.
  { rewrite Hperm. rewrite enumerate_fst, Hlen. reflexivity. }
  intros i p Hi Hp. apply (Hnew i (nth i heights nan) p); [|exact Hp].
  apply enumerate_in. lia.
Qed.

Lemma geometric_assignment_total v vs ns :
  exists t1, geometric_assignment (init (v :: vs) ns) = Ok t1.
Proof.
  unfold geometric_assignment.
  destruct (mesh_heights_ok (_normalize_mesh (init (v :: vs) ns))
              (vsub v (mean_axis0 (v :: vs)))
              (map (fun u => vsub u (mean_axis0 (v :: vs))) vs) eq_refl)
    as (heights & Hh & _).
  rewrite Hh. cbn [bind].
  destruct (assign_vertices_spec (_normalize_mesh (init (v :: vs) ns)) (enumerate heights)
              (init_parts (segmentation (_normalize_mesh (init (v :: vs) ns)))))
    as (seg' & Hrun & _).
  { cbn [init segmentation _normalize_mesh with_vertices].
    rewrite init_parts_fresh. unfold Dict.keys at 2. rewrite map_map. cbn [fst].
    rewrite map_id. apply incl_refl. }
  rewrite Hrun. cbn [bind]. eauto.
Qed.

(** ** Post-processing *)

Lemma keys_filter_NoDup {V} (f : string * V -> bool) (d : Dict.t V) :
  NoDup (Dict.keys d) -> NoDup (Dict.keys (filter f d)).
Proof.
  induction d as [|[k v] d IH]; cbn; [auto|].
  intros Hnd. inversion Hnd as [|? ? Hk Hnd']; subst.
  destruct (f (k, v)); cbn; [|auto].
  constructor; [|auto]. intros Hin. apply Hk.
  apply in_map_iff in Hin as (kv & <- & Hin). apply filter_In in Hin as [Hin _].
  apply in_map, Hin.
Qed.

Lemma filter_twice {A} (f g : A -> bool) (l : list A) :
  filter f (filter g l) = filter (fun x => g x && f x) l.
Proof.
  induction l as [|a l IH]; cbn; [reflexivity|].
  destruct (g a); cbn; [destruct (f a)|]; rewrite IH; reflexivity.
Qed.

Lemma remove_small_filter ks : forall (d : segmentation_t),
  NoDup ks -> NoDup (Dict.keys d) -> incl ks (Dict.keys d) ->
  remove_small ks d =
  Ok (filter (fun kv => negb (existsb (String.eqb (fst kv)) ks) || big_enough kv) d).
Proof.
  induction ks as [|k ks IH]; intros d Hks Hd Hincl; cbn [remove_small].
  - f_equal. symmetry. apply forallb_filter_id. apply forallb_forall.
    intros kv _. reflexivity.
  - inversion Hks as [|? ? Hk Hks']; subst.
    destruct (in_keys_get d k (Hincl k (or_introl eq_refl))) as (vs & Hvs).
    unfold Dict.item. rewrite Hvs. cbn [bind].
    destruct (Nat.ltb (length vs) min_vertices) eqn:Hsmall.
    + rewrite IH; [|assumption| |].
      * f_equal. rewrite del_filter by assumption. rewrite filter_twice.
        apply filter_ext_in. intros [k' vs'] Hin. cbn [fst existsb].
        destruct (String.eqb_spec k' k) as [->|Hne]; cbn; [|reflexivity].
        assert (vs' = vs) by (apply in_get in Hin; congruence). subst.
        unfold big_enough. cbn [snd]. rewrite Hsmall. reflexivity.
      * rewrite del_filter by assumption. apply keys_filter_NoDup, Hd.
      * intros k' Hk'. rewrite del_filter by assumption.
        destruct (in_keys_get d k' (Hincl k' (or_intror Hk'))) as (vs' & Hvs').
        apply get_in in Hvs'. change k' with (fst (k', vs')).
        apply in_map. apply filter_In. split; [assumption|]. cbn.
        destruct (String.eqb_spec k' k) as [->|]; [contradiction|reflexivity].
    + rewrite IH; [|assumption|assumption|].
      * f_equal. apply filter_ext_in. intros [k' vs'] Hin. cbn [fst existsb].
        destruct (String.eqb_spec k' k) as [->|Hne]; cbn; [|reflexivity].
        assert (vs' = vs) by (apply in_get in Hin; congruence). subst.
        unfold big_enough. cbn [snd]. rewrite Hsmall. cbn. apply orb_true_r.
      * intros k' Hk'. apply Hincl. right. assumption.
Qed.

Lemma remove_small_keys (d : segmentation_t) :
  NoDup (Dict.keys d) ->
  remove_small (Dict.keys d) d = Ok (filter big_enough d).
Proof.
  intros Hd. rewrite remove_small_filter; [|assumption|assumption|apply incl_refl].
  f_equal. apply filter_ext_in. intros [k vs] Hin.
  replace (existsb (String.eqb (fst (k, vs))) (Dict.keys d)) with true; [reflexivity|].
  symmetry. apply existsb_exists. exists k. split.
  - change k with (fst (k, vs)). apply in_map, Hin.
  - apply String.eqb_refl.
Qed.

Lemma in_unassigned n (seg : segmentation_t) i :
  In i (unassigned_vertices n seg) <->
  i < n /\ ~ In i (concat (Dict.values seg)).
Proof.
  unfold unassigned_vertices. rewrite filter_In, in_seq, negb_true_iff.
  rewrite <- not_true_iff_false, existsb_exists.
  split; intros [Hi Hn]; (split; [lia|]).
  - intros Hin. apply Hn. exists i. split; [assumption | apply Nat.eqb_refl].
  - intros (x & Hin & Heq). apply Nat.eqb_eq in Heq. subst. contradiction.
Qed.

Lemma unassigned_NoDup n seg : NoDup (unassigned_vertices n seg).
Proof. unfold unassigned_vertices. apply NoDup_filter, seq_NoDup. Qed.

Lemma post_process_cases t1 t2 :
  NoDup (Dict.keys (segmentation t1)) ->
  _post_process_segmentation t1 = Ok t2 ->
  let seg1 := filter big_enough (segmentation t1) in
  let unassigned := unassigned_vertices (length (vertices t1)) seg1 in
  vertices t2 = vertices t1
  /\ ((unassigned = [] /\ segmentation t2 = seg1)
      \/ (unassigned <> []
          /\ exists vb, Dict.get seg1 "body" = Some vb
                        /\ segmentation t2 = Dict.set seg1 "body" (vb ++ unassigned))).
Proof.
  intros Hnd. unfold _post_process_segmentation.
  rewrite remove_small_keys by assumption. cbn [bind]. cbv zeta.
  destruct (unassigned_vertices _ _) as [|u us] eqn:HU.
  - intros [= <-]. split; [reflexivity|]. left. split; reflexivity.
  - intros H. apply bind_ok in H as (seg' & Hext & H). injection H as <-.
    split; [reflexivity|]. right. split; [discriminate|].
    unfold dict_extend, Dict.item in Hext.
    destruct (Dict.get _ "body") as [vb|]; [|discriminate].
    cbn in Hext. injection Hext as <-. exists vb. split; reflexivity.
Qed.

Lemma post_process_keyerror t1 :
  NoDup (Dict.keys (segmentation t1)) ->
  let seg1 := filter big_enough (segmentation t1) in
  unassigned_vertices (length (vertices t1)) seg1 <> [] ->
  Dict.get seg1 "body" = None ->
  _post_process_segmentation t1 = Raise (KeyError "body").
Proof.
  intros Hnd seg1 HU Hb. unfold _post_process_segmentation.
  rewrite remove_small_keys by assumption. cbn [bind]. fold seg1.
  destruct (unassigned_vertices _ seg1) as [|u us]; [contradiction|].
  unfold dict_extend, Dict.item. rewrite Hb. reflexivity.
Qed.

Lemma NoDup_concat_filter (f : string * list nat -> bool) (d : segmentation_t) :
  NoDup (concat (Dict.values d)) -> NoDup (concat (Dict.values (filter f d))).
Proof.
  induction d as [|[k vs] d IH]; cbn; [auto|].
  intros Hnd. pose proof (NoDup_app_remove_l _ _ Hnd) as Hd.
  destruct (f (k, vs)); cbn; [|auto].
  apply NoDup_app; [eapply NoDup_app_remove_r; eassumption | auto |].
  intros a Ha Hin. eapply NoDup_app_disjoint; [exact Hnd | exact Ha |].
  apply in_concat_values in Hin as (k' & vs' & Hin & Hi).
  apply filter_In in Hin as [Hin _]. apply in_concat_values. eauto.
Qed.

Lemma in_concat_filter (f : string * list nat -> bool) (d : segmentation_t) i :
  In i (concat (Dict.values (filter f d))) -> In i (concat (Dict.values d)).
Proof.
  rewrite !in_concat_values. intros (k & vs & Hin & Hi).
  apply filter_In in Hin as [Hin _]. eauto.
Qed.

(** The post-processing turns a partition into a partition, whenever it
    returns. *)
Lemma post_process_partition t1 t2 :
  NoDup (Dict.keys (segmentation t1)) ->
  Permutation (concat (Dict.values (segmentation t1)))
              (seq 0 (length (vertices t1))) ->
  _post_process_segmentation t1 = Ok t2 ->
  NoDup (Dict.keys (segmentation t2))
  /\ Permutation (concat (Dict.values (segmentation t2)))
                 (seq 0 (length (vertices t1))).
Proof.
  intros Hk Hperm Hrun.
  destruct (post_process_cases t1 t2 Hk Hrun) as (_ & Hcases).
  set (seg1 := filter big_enough (segmentation t1)) in *.
  set (n := length (vertices t1)) in *.
  assert (Hnd : NoDup (concat (Dict.values (segmentation t1)))).
  { eapply Permutation_NoDup; [symmetry; exact Hperm | apply seq_NoDup]. }
  assert (Hnd1 : NoDup (concat (Dict.values seg1))) by (apply NoDup_concat_filter, Hnd).
  assert (Hk1 : NoDup (Dict.keys seg1)) by (apply keys_filter_NoDup, Hk).
  assert (Hin1 : forall i, In i (concat (Dict.values seg1)) -> i < n).
  { intros i Hi. apply in_concat_filter in Hi.
    eapply Permutation_in in Hi; [|exact Hperm]. apply in_seq in Hi. lia. }
  destruct Hcases as [(HU & ->) | (HU & vb & Hvb & ->)].
  - split; [assumption|]. apply NoDup_Permutation; [assumption | apply seq_NoDup |].
    intros i. rewrite in_seq. split; [intros Hi; apply Hin1 in Hi; lia|].
    intros Hi. destruct (in_dec Nat.eq_dec i (concat (Dict.values seg1))) as [|Hn];
      [assumption|].
    exfalso. assert (Hu : In i (unassigned_vertices n seg1)).
    { apply in_unassigned. split; [lia | assumption]. }
    rewrite HU in Hu. destruct Hu.
  - split; [apply NoDup_keys_set, Hk1|].
    rewrite (concat_values_set seg1 "body" vb _ Hvb).
    apply NoDup_Permutation; [|apply seq_NoDup|].
    + apply NoDup_app; [assumption | apply unassigned_NoDup |].
      intros i Hi Hu. apply in_unassigned in Hu as [_ Hu]. contradiction.
    + intros i. rewrite in_app_iff, in_unassigned, in_seq. split.
      * intros [Hi|[Hi _]]; [apply Hin1 in Hi|]; lia.
      * intros Hi.
        destruct (in_dec Nat.eq_dec i (concat (Dict.values seg1))); [left|right; split];
          auto; lia.
Qed.

Lemma in_filter_big_get (seg : segmentation_t) k part :
  NoDup (Dict.keys seg) -> Dict.get seg k = Some part ->
  Dict.get (filter big_enough seg) k =
  if big_enough (k, part) then Some part else None.
Proof.
  intros Hnd Hget.
  destruct (big_enough (k, part)) eqn:Hbig.
  - apply in_get; [apply keys_filter_NoDup, Hnd|].
    apply filter_In. split; [apply get_in, Hget | exact Hbig].
  - destruct (Dict.get (filter big_enough seg) k) as [vs|] eqn:E; [|reflexivity].
    apply get_in, filter_In in E as [Hin Hb].
    apply in_get in Hin; [|assumption].
    assert (vs = part) by congruence. subst. congruence.
Qed.

(** The part of the post-processing that works: a part with fewer than
    ten vertices is gone from the result and its vertices are under
    ["body"], whenever the call returns. *)
Lemma small_parts_merged t1 t2 k part :
  NoDup (Dict.keys (segmentation t1)) ->
  Permutation (concat (Dict.values (segmentation t1)))
              (seq 0 (length (vertices t1))) ->
  _post_process_segmentation t1 = Ok t2 ->
  Dict.get (segmentation t1) k = Some part ->
  length part < min_vertices ->
  Dict.get (segmentation t2) k = None
  /\ forall i, In i part -> members (segmentation t2) "body" i.
Proof.
  intros Hk Hperm Hrun Hget Hsmall.
  destruct (post_process_cases t1 t2 Hk Hrun) as (_ & Hcases).
  set (seg1 := filter big_enough (segmentation t1)) in *.
  assert (Hnd : NoDup (concat (Dict.values (segmentation t1)))).
  { eapply Permutation_NoDup; [symmetry; exact Hperm | apply seq_NoDup]. }
  assert (Hbig : big_enough (k, part) = false).
  { unfold big_enough. cbn [snd]. apply negb_false_iff, Nat.ltb_lt, Hsmall. }
  assert (Hk1 : Dict.get seg1 k = None).
  { unfold seg1. rewrite (in_filter_big_get _ k part Hk Hget), Hbig. reflexivity. }
  assert (HU : forall i, In i part ->
                 In i (unassigned_vertices (length (vertices t1)) seg1)).
  { intros i Hi. apply in_unassigned. split.
    - assert (Hin : In i (concat (Dict.values (segmentation t1)))).
      { apply in_concat_values. eauto using get_in. }
      eapply Permutation_in in Hin; [|exact Hperm]. apply in_seq in Hin. lia.
    - intros Hin. apply in_concat_values in Hin as (k' & vs' & Hin & Hi').
      apply filter_In in Hin as [Hin Hb].
      assert (k = k').
      { eapply NoDup_concat_unique; eauto using get_in. }
      subst k'. apply in_get in Hin; [|assumption].
      assert (vs' = part) by congruence. subst. congruence. }
  destruct Hcases as [(HU0 & ->) | (HU0 & vb & Hvb & ->)].
  - split; [assumption|]. intros i Hi. apply HU in Hi. rewrite HU0 in Hi. destruct Hi.
  - assert (Hne : "body" <> k) by (intros <-; congruence).
    split; [rewrite get_set_other by assumption; assumption|].
    intros i Hi. exists (vb ++ unassigned_vertices (length (vertices t1)) seg1).
    split; [apply get_set_same | apply in_or_app; right; apply HU, Hi].
Qed.

(** Where an index ends up after the post-processing: under the part the
    assignment loop gave it when that part has at least ten vertices, and
    under ["body"] otherwise. *)
Lemma vertex_final_label t1 t2 k part i :
  NoDup (Dict.keys (segmentation t1)) ->
  Permutation (concat (Dict.values (segmentation t1)))
              (seq 0 (length (vertices t1))) ->
  _post_process_segmentation t1 = Ok t2 ->
  Dict.get (segmentation t1) k = Some part ->
  In i part ->
  members (segmentation t2)
    (if Nat.ltb (length part) min_vertices then "body" else k) i.
Proof.
  intros Hk Hperm Hrun Hget Hi.
  destruct (Nat.ltb (length part) min_vertices) eqn:Hsmall.
  - apply Nat.ltb_lt in Hsmall.
    destruct (small_parts_merged t1 t2 k part Hk Hperm Hrun Hget Hsmall) as (_ & Hb).
    apply Hb, Hi.
  - destruct (post_process_cases t1 t2 Hk Hrun) as (_ & Hcases).
    set (seg1 := filter big_enough (segmentation t1)) in *.
    assert (Hk1 : Dict.get seg1 k = Some part).
    { unfold seg1. rewrite (in_filter_big_get _ k part Hk Hget).
      unfold big_enough. cbn [snd]. rewrite Hsmall. reflexivity. }
    destruct Hcases as [(_ & ->) | (_ & vb & Hvb & ->)].
    + exists part. split; assumption.
    + destruct (string_dec "body" k) as [<-|Hne].
      * assert (vb = part) by congruence. subst vb.
        eexists. split; [apply get_set_same | apply in_or_app; left; exact Hi].
      * exists part. split; [|exact Hi].
        rewrite get_set_other by assumption. exact Hk1.
Qed.

Lemma height_ranges_keys_NoDup : NoDup (Dict.keys height_ranges).
Proof.
  cbn. repeat constructor; cbn; intuition discriminate.
Qed.

(** C1. For every mesh, whenever [geometric_segmentation] returns (on a
    freshly constructed tool), the label sets partition the index range
    [0, N): every index below the vertex count is under exactly one label,
    no label holds an index outside the range, and the concatenation of
    the label lists is a permutation of [0, N) (so no index is repeated
    within or across labels).  The statement needs neither of the
    claim's side conditions (a vertex, a positive height). *)
Theorem geometric_partition vs ns t2 :
  geometric_segmentation (init vs ns) = Ok t2 ->
  partitions (segmentation t2) (length vs)
  /\ Permutation (concat (Dict.values (segmentation t2))) (seq 0 (length vs)).
Proof.
  unfold geometric_segmentation. intros H.
  apply bind_ok in H as (t1 & H1 & H2).
  destruct (geometric_assignment_spec vs ns t1 H1)
    as (heights & _ & _ & Hv & Hk & Hperm & _).
  assert (Hlen : length (vertices t1) = length vs).
  { rewrite Hv, normalize_length. reflexivity. }
  assert (Hnd : NoDup (Dict.keys (segmentation t1))).
  { rewrite Hk. apply height_ranges_keys_NoDup. }
  rewrite <- Hlen in Hperm |- *.
  destruct (post_process_partition t1 t2 Hnd Hperm H2) as (Hk2 & Hperm2).
  split; [apply permutation_partitions; assumption | assumption].
Qed.

Lemma geometric_partition_witness :
  partitions
    (segmentation (tool_of (geometric_segmentation (init mesh12 [])))) 12
  /\ Permutation
       (concat (Dict.values
          (segmentation (tool_of (geometric_segmentation (init mesh12 []))))))
       (seq 0 12).
Proof.
  apply (geometric_partition mesh12 []). vm_compute. reflexivity.
Defined.

(** The call returns whenever the assignment loop leaves at least ten
    vertices under ["body"]. *)
Lemma geometric_returns vs ns t1 vb :
  geometric_assignment (init vs ns) = Ok t1 ->
  Dict.get (segmentation t1) "body" = Some vb ->
  min_vertices <= length vb ->
  exists t2, geometric_segmentation (init vs ns) = Ok t2.
Proof.
  intros H1 Hb Hlen. unfold geometric_segmentation. rewrite H1. cbn [bind].
  destruct (geometric_assignment_spec vs ns t1 H1) as (_ & _ & _ & _ & Hk & _).
  assert (Hnd : NoDup (Dict.keys (segmentation t1))).
  { rewrite Hk. apply height_ranges_keys_NoDup. }
  unfold _post_process_segmentation.
  rewrite remove_small_keys by assumption. cbn [bind].
  destruct (unassigned_vertices _ _) as [|u us]; [eauto|].
  unfold dict_extend, Dict.item.
  rewrite (in_filter_big_get _ "body" vb Hnd Hb).
  replace (big_enough ("body", vb)) with true; [cbn; eauto|].
  symmetry. unfold big_enough. cbn [snd]. apply negb_true_iff, Nat.ltb_ge, Hlen.
Qed.

Lemma length_le_concat (d : segmentation_t) k vs :
  In (k, vs) d -> length vs <= length (concat (Dict.values d)).
Proof.
  unfold Dict.values. induction d as [|[k0 v0] d IH]; cbn; [contradiction|].
  rewrite length_app. intros [[= -> ->]|Hin]; [lia|].
  specialize (IH Hin). lia.
Qed.

(** A mesh with fewer than ten vertices never gets a segmentation: every
    part is removed as too small and the indexing of ["body"] fails. *)
Lemma small_mesh_keyerror vs ns :
  0 < length vs < min_vertices ->
  geometric_segmentation (init vs ns) = Raise (KeyError "body").
Proof.
  intros [Hpos Hlt]. destruct vs as [|v vs]; [cbn in Hpos; lia|].
  destruct (geometric_assignment_total v vs ns) as (t1 & H1).
  unfold geometric_segmentation. rewrite H1. cbn [bind].
  destruct (geometric_assignment_spec _ ns t1 H1)
    as (heights & _ & _ & Hv & Hk & Hperm & _).
  assert (Hlen : length (vertices t1) = length (v :: vs)).
  { rewrite Hv, normalize_length. reflexivity. }
  assert (Hnd : NoDup (Dict.keys (segmentation t1))).
  { rewrite Hk. apply height_ranges_keys_NoDup. }
  assert (Hempty : filter big_enough (segmentation t1) = []).
  { destruct (filter big_enough (segmentation t1)) as [|[k part] rest] eqn:E;
      [reflexivity|exfalso].
    assert (Hin : In (k, part) (filter big_enough (segmentation t1)))
      by (rewrite E; left; reflexivity).
    apply filter_In in Hin as [Hin Hbig].
    apply length_le_concat in Hin.
    rewrite (Permutation_length Hperm), length_seq in Hin.
    unfold big_enough in Hbig. cbn [snd] in Hbig.
    apply negb_true_iff, Nat.ltb_ge in Hbig. lia. }
  apply post_process_keyerror; [assumption| |].
  - rewrite Hempty, Hlen. intros HU.
    assert (Hin : In 0 (unassigned_vertices (length (v :: vs)) [])).
    { apply in_unassigned. split; [cbn; lia | intros []]. }
    rewrite HU in Hin. destruct Hin.
  - rewrite Hempty. reflexivity.
Qed.

(** C5. The post-processing does not create ["body"]: on a mesh whose scan
    leaves ["body"] empty (ten vertices in ["left_leg"], one in
    ["face_internal"]) the small-region loop deletes ["body"], the single
    ["face_internal"] vertex is found unassigned, and
    [self.segmentation['body']] raises [KeyError] instead of yielding the
    merged segmentation the claim describes. *)
Theorem body_not_created :
  returned (geometric_assignment (init mesh_leg_and_top []))
  = Ok [("body", []); ("left_arm", []); ("right_arm", []);
        ("left_leg", seq 0 10); ("right_leg", []); ("face_internal", [10])]
  /\ geometric_segmentation (init mesh_leg_and_top []) = Raise (KeyError "body").
Proof. split; vm_compute; reflexivity. Qed.

(** ** Which part a vertex goes to *)

Lemma assignment_exactly vs ns t1 heights i p :
  geometric_assignment (init vs ns) = Ok t1 ->
  mesh_heights (_normalize_mesh (init vs ns)) = Ok heights ->
  i < length vs ->
  vertex_part (_normalize_mesh (init vs ns)) i (nth i heights nan) = Ok p ->
  members (segmentation t1) p i
  /\ forall k, members (segmentation t1) k i -> k = p.
Proof.
  intros H1 Hh Hi Hp.
  destruct (geometric_assignment_spec vs ns t1 H1)
    as (heights' & Hh' & _ & _ & Hk & Hperm & Hnew).
  assert (heights' = heights) by congruence. subst heights'.
  pose proof (Hnew i p Hi Hp) as Hmem. split; [exact Hmem|].
  assert (Hnd : NoDup (Dict.keys (segmentation t1))).
  { rewrite Hk. apply height_ranges_keys_NoDup. }
  destruct (permutation_partitions _ _ Hnd Hperm) as (Hone & _).
  destruct (Hone i Hi) as (k0 & _ & Huniq).
  intros k Hk'. rewrite (Huniq k Hk'), (Huniq p Hmem). reflexivity.
Qed.

Lemma first_band_app t i h pre band post :
  (forall b, In b pre -> band_matches t i h b = false) ->
  band_matches t i h band = true ->
  first_band t i h (pre ++ band :: post) = Some (fst band).
Proof.
  intros Hpre Hband. induction pre as [|b pre IH]; cbn.
  - rewrite Hband. reflexivity.
  - rewrite (Hpre b (or_introl eq_refl)). apply IH.
    intros b' Hb'. apply Hpre. right. assumption.
Qed.

(** C3. In the assignment loop of [geometric_segmentation] a vertex goes
    under the first band, in the order body, left_arm, right_arm, left_leg,
    right_leg, face_internal, whose height interval contains its
    normalized height and whose lateral predicate holds, and under no
    other label.  A vertex at normalized height 0.60 with lateral
    coordinate 0 goes to body, and one with lateral coordinate -1 goes to
    left_arm. *)
Theorem first_band_wins :
  (forall vs ns t1 heights i pre band post,
      geometric_assignment (init vs ns) = Ok t1 ->
      mesh_heights (_normalize_mesh (init vs ns)) = Ok heights ->
      i < length vs ->
      height_ranges = pre ++ band :: post ->
      (forall b, In b pre ->
         band_matches (_normalize_mesh (init vs ns)) i (nth i heights nan) b = false) ->
      band_matches (_normalize_mesh (init vs ns)) i (nth i heights nan) band = true ->
      members (segmentation t1) (fst band) i
      /\ forall k, members (segmentation t1) k i -> k = fst band)
  /\ Dict.keys height_ranges =
       ["body"; "left_arm"; "right_arm"; "left_leg"; "right_leg"; "face_internal"]
  /\ (forall t i, vx (nth i (vertices t) (0, 0, 0)%float) = 0%float ->
        vertex_part t i 0.60%float = Ok "body")
  /\ (forall t i, vx (nth i (vertices t) (0, 0, 0)%float) = (-1.0)%float ->
        vertex_part t i 0.60%float = Ok "left_arm").
Proof.
  split; [|split; [reflexivity|split]].
  - intros vs ns t1 heights i pre band post H1 Hh Hi Hsplit Hpre Hband.
    apply (assignment_exactly vs ns t1 heights i (fst band) H1 Hh Hi).
    unfold vertex_part. rewrite Hsplit.
    rewrite (first_band_app _ _ _ pre band post Hpre Hband). reflexivity.
  - intros t i Hx. unfold vertex_part, first_band, height_ranges, band_matches,
      _is_valid_for_part. rewrite Hx. vm_compute. reflexivity.
  - intros t i Hx. unfold vertex_part, first_band, height_ranges, band_matches,
      _is_valid_for_part. rewrite Hx. vm_compute. reflexivity.
Qed.

Lemma first_band_wins_witness :
  members
    (segmentation (tool_of (geometric_assignment (init mesh_leg_and_top []))))
    "left_leg" 0
  /\ vertex_part (init [(0, 5, 7)%float] []) 0 0.60%float = Ok "body"
  /\ vertex_part (init [((-1.0), 5, 7)%float] []) 0 0.60%float = Ok "left_arm".
Proof.
  destruct first_band_wins as (Hgen & _ & Hbody & Harm).
  split; [|split].
  - refine (proj1 (Hgen mesh_leg_and_top [] _
                     (value_or
                        (mesh_heights (_normalize_mesh (init mesh_leg_and_top []))) [])
                     0
                     [("body", (0.45, 0.80)); ("left_arm", (0.45, 0.80));
                      ("right_arm", (0.45, 0.80))]%float
                     ("left_leg", (0.0, 0.45))%float
                     [("right_leg", (0.0, 0.45)); ("face_internal", (0.85, 1.0))]%float
                     _ _ _ _ _ _)).
    + vm_compute. reflexivity.
    + vm_compute. reflexivity.
    + cbn. lia.
    + reflexivity.
    + intros b [<-|[<-|[<-|[]]]]; vm_compute; reflexivity.
    + vm_compute. reflexivity.
  - apply Hbody. reflexivity.
  - apply Harm. reflexivity.
Defined.

(** ** The fallback: Python's [min] over the band distances *)

Import FloatOrder.






(** ** Degenerate meshes *)

(** [x - x] is a zero or NaN, so dividing it by itself gives NaN. *)
Lemma sub_self_div_nan (f : float) : ((f - f) / (f - f))%float = nan.
Proof.
  apply Prim2SF_inj. rewrite div_spec, sub_spec.
  destruct (Prim2SF f) as [s|s| |s m e]; try (destruct s; reflexivity); try reflexivity.
  unfold SF64sub, SFsub. rewrite Z.sub_diag. reflexivity.
Qed.

Lemma fold_minimum_const f l :
  Forall (eq f) l -> fold_left np_minimum l f = f.
Proof.
  induction 1 as [|x l <- _ IH]; cbn; [reflexivity|].
  replace (np_minimum f f) with f; [exact IH|].
  unfold np_minimum. destruct ((f <=? f)%float || is_nan f); reflexivity.
Qed.

Lemma fold_maximum_const f l :
  Forall (eq f) l -> fold_left np_maximum l f = f.
Proof.
  induction 1 as [|x l <- _ IH]; cbn; [reflexivity|].
  replace (np_maximum f f) with f; [exact IH|].
  unfold np_maximum. destruct ((f <=? f)%float || is_nan f); reflexivity.
Qed.

(** When all vertices share one vertical coordinate, every normalized
    height is NaN. *)
Lemma flat_mesh_heights t f :
  vertices t <> [] ->
  Forall (fun v => vy v = f) (vertices t) ->
  mesh_heights t = Ok (map (fun _ => nan) (vertices t)).
Proof.
  intros Hne Hall. unfold mesh_heights, bbox_y.
  assert (Hcol : Forall (eq f) (map vy (vertices t))).
  { apply Forall_map. eapply Forall_impl; [|exact Hall]. cbn. auto. }
  destruct (vertices t) as [|v vs] eqn:Hv; [contradiction|].
  cbn [map np_min np_max bind] in *. inversion Hcol as [|? ? Hf Hcol']; subst.
  rewrite (fold_minimum_const (vy v) _ Hcol'), (fold_maximum_const (vy v) _ Hcol').
  cbn [fst snd]. f_equal. unfold normalized_heights.
  change (nan :: map (fun _ : vec3 => nan) vs)
    with (map (fun _ : vec3 => nan) (v :: vs)).
  apply map_ext_in. intros u Hu.
  rewrite Forall_forall in Hall. rewrite (Hall u Hu).
  apply sub_self_div_nan.
Qed.

Lemma vertex_part_nan t i : vertex_part t i nan = Ok "body".
Proof. reflexivity. Qed.

Lemma assign_all_body t ihs : forall l others,
  (forall i h, In (i, h) ihs -> vertex_part t i h = Ok "body") ->
  assign_vertices t ihs (("body", l) :: others)
  = Ok (("body", l ++ map fst ihs) :: others).
Proof.
  induction ihs as [|[i h] ihs IH]; intros l others Hall; cbn [assign_vertices].
  - cbn. rewrite app_nil_r. reflexivity.
  - rewrite (Hall i h (or_introl eq_refl)). cbn [bind].
    unfold dict_append, dict_extend, Dict.item. cbn.
    rewrite IH by (intros; apply Hall; right; assumption).
    rewrite <- app_assoc. reflexivity.
Qed.

Lemma enumerate_snd_in {A} (l : list A) i a : In (i, a) (enumerate l) -> In a l.
Proof. unfold enumerate. apply in_combine_r. Qed.

Lemma flat_mesh_assignment v vs ns y :
  Forall (fun u => vy u = y) (v :: vs) ->
  returned (geometric_assignment (init (v :: vs) ns))
  = Ok [("body", seq 0 (length (v :: vs))); ("left_arm", []); ("right_arm", []);
        ("left_leg", []); ("right_leg", []); ("face_internal", [])].
Proof.
  intros Hall. unfold geometric_assignment.
  set (t := _normalize_mesh (init (v :: vs) ns)).
  assert (Hflat : Forall (fun u => vy u = (y - vy (mean_axis0 (v :: vs)))%float)
                    (vertices t)).
  { unfold t, _normalize_mesh. cbn [vertices with_vertices init].
    apply Forall_map. eapply Forall_impl; [|exact Hall].
    intros u Hu. unfold vsub. cbn [vy fst snd]. rewrite Hu. reflexivity. }
  rewrite (flat_mesh_heights t _ ltac:(discriminate) Hflat). cbn [bind].
  change (init_parts (segmentation t))
    with [("body", @nil nat); ("left_arm", []); ("right_arm", []);
          ("left_leg", []); ("right_leg", []); ("face_internal", [])].
  rewrite assign_all_body.
  - cbn [bind returned with_segmentation segmentation app]. rewrite enumerate_fst.
    rewrite length_map. unfold t. rewrite normalize_length. reflexivity.
  - intros i h Hin. apply enumerate_snd_in in Hin.
    apply in_map_iff in Hin as (u & <- & _). apply vertex_part_nan.
Qed.

Lemma unassigned_none n :
  unassigned_vertices n [("body", seq 0 n)] = [].
Proof.
  destruct (unassigned_vertices n _) as [|u us] eqn:E; [reflexivity|exfalso].
  assert (Hin : In u (unassigned_vertices n [("body", seq 0 n)]))
    by (rewrite E; left; reflexivity).
  apply in_unassigned in Hin as [Hu Hn]. apply Hn. cbn. rewrite app_nil_r.
  apply in_seq. lia.
Qed.

(** C2 (as amended). [geometric_segmentation] raises (numpy's
    [ValueError], from the minimum of an empty array) when the mesh has no
    vertex.  It does not test the height: for a mesh whose vertices all
    share one vertical coordinate (height 0) every normalized height is
    NaN, no band matches, every vertex falls back to ["body"], and with at
    least ten vertices the call returns the segmentation that puts all
    indices under ["body"]. *)
Theorem degenerate_mesh_behaviour :
  (forall ns,
     geometric_segmentation (init [] ns)
     = Raise (ValueError
         "zero-size array to reduction operation minimum which has no identity"))
  /\ (forall vs ns y,
        min_vertices <= length vs ->
        Forall (fun u => vy u = y) vs ->
        returned (geometric_segmentation (init vs ns))
        = Ok [("body", seq 0 (length vs))]).
Proof.
  split; [reflexivity|].
  intros vs ns y Hlen Hall.
  destruct vs as [|v vs]; [cbn in Hlen; unfold min_vertices in Hlen; lia|].
  pose proof (flat_mesh_assignment v vs ns y Hall) as Hseg.
  destruct (geometric_assignment_total v vs ns) as (t1 & H1).
  destruct (geometric_assignment_spec _ ns t1 H1) as (_ & _ & _ & Hv & _).
  assert (Hn : length (vertices t1) = length (v :: vs)).
  { rewrite Hv, normalize_length. reflexivity. }
  set (mesh := v :: vs) in *. clearbody mesh.
  unfold geometric_segmentation. rewrite H1 in Hseg |- *.
  cbn [bind returned] in Hseg |- *. injection Hseg as Hseg.
  unfold _post_process_segmentation.
  rewrite remove_small_keys
    by (rewrite Hseg; cbn; repeat constructor; cbn; intuition discriminate).
  rewrite Hseg, Hn. cbn [bind filter].
  replace (big_enough ("body", seq 0 (length mesh))) with true.
  2:{ unfold big_enough. cbn [snd]. rewrite length_seq. symmetry.
      apply negb_true_iff, Nat.ltb_ge. exact Hlen. }
  cbn [big_enough snd length negb Nat.ltb Nat.leb min_vertices].
  rewrite unassigned_none. reflexivity.
Qed.

Lemma degenerate_mesh_behaviour_witness :
  returned (geometric_segmentation (init mesh_flat [])) = Ok [("body", seq 0 10)].
Proof.
  apply (proj2 degenerate_mesh_behaviour mesh_flat [] 0%float).
  - unfold min_vertices. cbn. lia.
  - unfold mesh_flat. cbn. repeat constructor.
Defined.

(** C2 (as stated) fails: a mesh of height 0 gets a segmentation. *)
Lemma degenerate_mesh_returns :
  mesh_height (_normalize_mesh (init mesh_flat [])) = Ok 0%float
  /\ (0 <=? 0)%float = true
  /\ returned (geometric_segmentation (init mesh_flat []))
     = Ok [("body", [0; 1; 2; 3; 4; 5; 6; 7; 8; 9])].
Proof. repeat split; vm_compute; reflexivity. Qed.

(** ** Clustering: the order of the clusters *)














(** ** Clustering: the map from clusters to parts *)








(** ** Clustering: the assignment loop *)

Lemma indices_of_members seg k i : In i (indices_of seg k) <-> members seg k i.
Proof.
  unfold indices_of, members. destruct (Dict.get seg k) as [vs|].
  - split; [eauto|]. intros (vs' & [= <-] & Hi). exact Hi.
  - split; [intros []|]. intros (vs' & [=] & _).
Qed.

Lemma ensure_part_indices (seg : segmentation_t) p k :
  indices_of (if Dict.mem seg p then seg else Dict.set seg p []) k
  = indices_of seg k.
Proof.
  unfold Dict.mem. destruct (Dict.get seg p) as [vs|] eqn:Hp; [reflexivity|].
  unfold indices_of. destruct (string_dec p k) as [->|Hne].
  - rewrite get_set_same, Hp. reflexivity.
  - rewrite get_set_other by assumption. reflexivity.
Qed.

Lemma ensure_part_get (seg : segmentation_t) p :
  exists vs, Dict.get (if Dict.mem seg p then seg else Dict.set seg p []) p = Some vs.
Proof.
  unfold Dict.mem. destruct (Dict.get seg p) as [vs|] eqn:Hp; [eauto|].
  exists []. apply get_set_same.
Qed.

Lemma ensure_part_keys (seg : segmentation_t) p k :
  In k (Dict.keys (if Dict.mem seg p then seg else Dict.set seg p [])) ->
  k = p \/ In k (Dict.keys seg).
Proof.
  destruct (Dict.mem seg p); [auto|]. apply in_keys_set.
Qed.

Lemma cluster_assign_spec m ils : forall seg seg',
  cluster_assign m ils seg = Ok seg' ->
  (forall k, indices_of seg' k = indices_of seg k ++ clustered m ils k)
  /\ (forall k, In k (Dict.keys seg') ->
        In k (Dict.keys seg) \/ exists c, cluster_get m c = Some k).
Proof.
  induction ils as [|[i c] ils IH]; intros seg seg' H; cbn [cluster_assign] in H.
  - injection H as <-. split; [|auto]. intros k. cbn. rewrite app_nil_r. reflexivity.
  - destruct (cluster_get m c) as [p|] eqn:Hc; [|discriminate]. cbv zeta in H.
    set (seg1 := if Dict.mem seg p then seg else Dict.set seg p []) in *.
    destruct (ensure_part_get seg p) as (vs & Hvs).
    change (Dict.get seg1 p = Some vs) in Hvs.
    unfold dict_append, dict_extend, Dict.item in H. rewrite Hvs in H. cbn [bind] in H.
    apply IH in H as (Hidx & Hkeys). split.
    + intros k. rewrite Hidx. unfold clustered. cbn [filter snd]. rewrite Hc.
      unfold indices_of at 1. destruct (String.eqb_spec p k) as [->|Hne].
      * rewrite get_set_same. cbn [map fst]. rewrite <- app_assoc. cbn [app].
        f_equal. rewrite <- (ensure_part_indices seg k k). fold seg1.
        unfold indices_of. rewrite Hvs. reflexivity.
      * rewrite get_set_other by assumption.
        f_equal. rewrite <- (ensure_part_indices seg p k). reflexivity.
    + intros k Hk. apply Hkeys in Hk as [Hk|Hk]; [|right; exact Hk].
      apply in_keys_set in Hk as [->|Hk]; [right; eauto|].
      apply ensure_part_keys in Hk as [->|Hk]; [right; eauto | left; exact Hk].
Qed.

(** Whether the loop raises does not depend on the segmentation it
    starts from. *)
Lemma cluster_assign_ok m ils : forall seg seg' seg0,
  cluster_assign m ils seg = Ok seg' ->
  exists seg0', cluster_assign m ils seg0 = Ok seg0'.
Proof.
  induction ils as [|[i c] ils IH]; intros seg seg' seg0 H; cbn [cluster_assign] in *.
  - eauto.
  - destruct (cluster_get m c) as [p|] eqn:Hc; [|discriminate]. cbv zeta in *.
    set (seg1 := if Dict.mem seg p then seg else Dict.set seg p []) in *.
    set (seg2 := if Dict.mem seg0 p then seg0 else Dict.set seg0 p []) in *.
    destruct (ensure_part_get seg p) as (vs & Hvs).
    destruct (ensure_part_get seg0 p) as (vs0 & Hvs0).
    change (Dict.get seg1 p = Some vs) in Hvs.
    change (Dict.get seg2 p = Some vs0) in Hvs0.
    unfold dict_append, dict_extend, Dict.item in *.
    rewrite Hvs in H. rewrite Hvs0. cbn [bind] in *. eapply IH, H.
Qed.



(** ** Clustering: the segmenter *)

Section ClusteringFacts.

Variable scaler_fit_transform : list (list float) -> list (list float).
Variable scaler_inverse_transform :
  list (list float) -> list (list float) -> list (list float).
Variable kmeans_fit_predict :
  nat -> list (list float) -> list nat * list (list float).

Let map_parts := _map_clusters_to_parts scaler_inverse_transform.
Let cluster_segmentation :=
  cluster_based_segmentation scaler_fit_transform scaler_inverse_transform
    kmeans_fit_predict.

Lemma cluster_segmentation_inv t n_clusters t' :
  cluster_segmentation t n_clusters = Ok t' ->
  exists features cluster_labels cluster_centers,
    column_stack (vertices t) (vertex_normals t) = Ok features
    /\ kmeans_fit_predict n_clusters (scaler_fit_transform features)
       = (cluster_labels, cluster_centers)
    /\ cluster_assign (map_parts features cluster_centers)
         (enumerate cluster_labels) (segmentation t) = Ok (segmentation t').
Proof.
  unfold cluster_segmentation, cluster_based_segmentation. intros H.
  apply bind_ok in H as (features & Hf & H).
  destruct (kmeans_fit_predict n_clusters (scaler_fit_transform features))
    as [cluster_labels cluster_centers] eqn:Hk.
  apply bind_ok in H as (seg & Hseg & H). injection H as <-.
  exists features, cluster_labels, cluster_centers. auto.
Qed.


(** C7 (as amended). The tool keeps one segmentation dict across calls
    and [cluster_based_segmentation] does not reset it: its result on a
    tool that already holds a segmentation is, label by label, the index
    list already there followed by the indices the same call gives on a
    tool whose segmentation is empty. *)
Theorem cluster_accumulates t n_clusters t' :
  cluster_segmentation t n_clusters = Ok t' ->
  exists t0,
    cluster_segmentation (with_segmentation t []) n_clusters = Ok t0
    /\ forall k,
         indices_of (segmentation t') k
         = indices_of (segmentation t) k ++ indices_of (segmentation t0) k.
Proof.
  intros Hrun.
  destruct (cluster_segmentation_inv _ _ _ Hrun)
    as (features & cluster_labels & cluster_centers & Hf & Hk & Hassign).
  destruct (cluster_assign_ok _ _ _ _ [] Hassign) as (seg0 & Hassign0).
  exists (with_segmentation t seg0). split.
  - unfold cluster_segmentation, cluster_based_segmentation.
    cbn [with_segmentation vertices vertex_normals segmentation].
    rewrite Hf. cbn [bind]. rewrite Hk. fold map_parts. rewrite Hassign0. reflexivity.
  - intros k. cbn [with_segmentation segmentation].
    destruct (cluster_assign_spec _ _ _ _ Hassign) as (Hidx & _).
    destruct (cluster_assign_spec _ _ _ _ Hassign0) as (Hidx0 & _).
    rewrite Hidx, Hidx0. reflexivity.
Qed.

End ClusteringFacts.


Lemma cluster_accumulates_witness :
  exists t0,
    cluster_based_segmentation toy_fit_transform toy_inverse_transform toy_kmeans
      (with_segmentation (tool_of (geometric_segmentation (init mesh12 normals12))) [])
      2 = Ok t0
    /\ forall k,
         indices_of
           (segmentation (tool_of
              (cluster_based_segmentation toy_fit_transform toy_inverse_transform
                 toy_kmeans
                 (tool_of (geometric_segmentation (init mesh12 normals12))) 2))) k
         = indices_of
             (segmentation (tool_of (geometric_segmentation (init mesh12 normals12)))) k
           ++ indices_of (segmentation t0) k.
Proof.
  apply (cluster_accumulates toy_fit_transform toy_inverse_transform toy_kmeans).
  vm_compute. reflexivity.
Defined.

(** C7 (as stated) fails: after a geometric segmentation on the same tool
    the clustering segmenter returns the earlier ["body"] list together
    with its own parts, not what it returns on a fresh tool. *)
Lemma cluster_after_geometric_differs :
  returned (cluster_based_segmentation toy_fit_transform toy_inverse_transform
              toy_kmeans
              (tool_of (geometric_segmentation (init mesh12 normals12))) 2)
  = Ok [("body", seq 0 12);
        ("right_leg", [0; 1; 2; 3; 4; 5; 6; 7; 8; 9; 11]);
        ("left_leg", [10])]
  /\ returned (cluster_based_segmentation toy_fit_transform toy_inverse_transform
                 toy_kmeans (init mesh12 normals12) 2)
     = Ok [("right_leg", [0; 1; 2; 3; 4; 5; 6; 7; 8; 9; 11]);
           ("left_leg", [10])]
  /\ returned (cluster_based_segmentation toy_fit_transform toy_inverse_transform
                 toy_kmeans
                 (tool_of (geometric_segmentation (init mesh12 normals12))) 2)
     <> returned (cluster_based_segmentation toy_fit_transform toy_inverse_transform
                    toy_kmeans (init mesh12 normals12) 2).
Proof.
  split; [vm_compute; reflexivity|]. split; [vm_compute; reflexivity|].
  vm_compute. discriminate.
Qed.

(** ** Transfer: nearest reference vertices *)

Lemma combine_seq_inv {A} (l : list A) : forall n i a,
  In (i, a) (combine (seq n (length l)) l) ->
  n <= i /\ nth_error l (i - n) = Some a.
Proof.
  induction l as [|x l IH]; intros n i a; cbn; [contradiction|].
  intros [[= <- <-]|Hin].
  - rewrite Nat.sub_diag. split; [lia | reflexivity].
  - apply IH in Hin as [Hle Hnth]. split; [lia|].
    replace (i - n) with (S (i - S n)) by lia. exact Hnth.
Qed.

Lemma enumerate_inv {A} (l : list A) i a :
  In (i, a) (enumerate l) -> nth_error l i = Some a.
Proof.
  intros Hin. apply combine_seq_inv in Hin as [_ Hnth].
  rewrite Nat.sub_0_r in Hnth. exact Hnth.
Qed.

Lemma np_argmin_ok x row : exists c, np_argmin (x :: row) = Ok c.
Proof. cbn. destruct (is_nan x); eauto. Qed.

Lemma closest_indices_total vs r ref :
  exists cs, closest_indices vs (r :: ref) = Ok cs.
Proof.
  unfold closest_indices. induction vs as [|v vs (cs & IH)]; cbn [fold_right].
  - eauto.
  - destruct (np_argmin_ok (euclidean v r) (map (euclidean v) ref)) as (c & Hc).
    change (euclidean v r :: map (euclidean v) ref)
      with (map (euclidean v) (r :: ref)) in Hc.
    rewrite Hc, IH. cbn. eauto.
Qed.

Lemma closest_indices_inv vs ref : forall cs,
  closest_indices vs ref = Ok cs ->
  length cs = length vs
  /\ forall i d, i < length vs ->
       np_argmin (map (euclidean (nth i vs d)) ref) = Ok (nth i cs 0).
Proof.
  unfold closest_indices. destruct ref as [|r ref]; [discriminate|].
  induction vs as [|v vs IH]; intros cs H; cbn [fold_right] in H.
  - injection H as <-. split; [reflexivity|]. cbn. intros; lia.
  - apply bind_ok in H as (c & Hc & H). apply bind_ok in H as (cs' & Hcs' & H).
    injection H as <-. destruct (IH cs' Hcs') as (Hlen & Hnth).
    split; [cbn; lia|]. intros i d Hi. destruct i as [|i]; cbn [nth].
    + exact Hc.
    + apply Hnth. cbn in Hi. lia.
Qed.

(** ** Transfer: the parts *)

Lemma transfer_part_filter ref_part ics : forall acc,
  transfer_part ref_part ics acc
  = acc ++ map fst (filter (fun ic => existsb (Nat.eqb (snd ic)) ref_part) ics).
Proof.
  induction ics as [|[i c] ics IH]; intros acc; cbn [transfer_part filter snd].
  - cbn. rewrite app_nil_r. reflexivity.
  - destruct (existsb (Nat.eqb c) ref_part).
    + rewrite IH, <- app_assoc. reflexivity.
    + apply IH.
Qed.

Lemma existsb_eqb_in c l : existsb (Nat.eqb c) l = true <-> In c l.
Proof.
  rewrite existsb_exists. split.
  - intros (x & Hin & Heq). apply Nat.eqb_eq in Heq. subst. exact Hin.
  - intros Hin. exists c. split; [exact Hin | apply Nat.eqb_refl].
Qed.

Lemma in_transfer_part ref_part closest i :
  In i (transfer_part ref_part (enumerate closest) [])
  <-> i < length closest /\ In (nth i closest 0) ref_part.
Proof.
  rewrite transfer_part_filter. cbn [app]. rewrite in_map_iff. split.
  - intros ([i' c] & Hfst & Hin). cbn in Hfst. subst i'.
    apply filter_In in Hin as [Hin Hc]. cbn [snd] in Hc.
    apply enumerate_inv in Hin.
    assert (Hi : i < length closest) by (apply nth_error_Some; congruence).
    split; [exact Hi|]. rewrite (nth_error_nth _ _ 0 Hin).
    apply existsb_eqb_in, Hc.
  - intros [Hi Hc]. exists (i, nth i closest 0). split; [reflexivity|].
    apply filter_In. split; [apply enumerate_in, Hi|].
    apply existsb_eqb_in, Hc.
Qed.

Lemma set_not_in {V} (d : Dict.t V) k v :
  ~ In k (Dict.keys d) -> Dict.set d k v = d ++ [(k, v)].
Proof.
  induction d as [|[k0 v0] d IH]; cbn; [reflexivity|].
  intros Hn. destruct (String.eqb_spec k0 k) as [->|Hne].
  - exfalso. apply Hn. left. reflexivity.
  - f_equal. apply IH. intros Hin. apply Hn. right. exact Hin.
Qed.

(** On a dict of its own (unique keys, none of them in the segmentation
    yet) the outer loop adds the parts in order. *)
Lemma transfer_parts_map closest ref_items : forall seg,
  NoDup (Dict.keys ref_items) ->
  (forall k, In k (Dict.keys ref_items) -> ~ In k (Dict.keys seg)) ->
  transfer_parts closest ref_items seg
  = seg ++ map (fun kv => (fst kv, transfer_part (snd kv) (enumerate closest) []))
             ref_items.
Proof.
  induction ref_items as [|[k rp] items IH]; intros seg Hnd Hdisj; cbn [transfer_parts].
  - cbn. rewrite app_nil_r. reflexivity.
  - inversion Hnd as [|? ? Hk Hnd']; subst.
    rewrite set_not_in by (apply Hdisj; left; reflexivity).
    rewrite IH; [|exact Hnd'|].
    + rewrite <- app_assoc. reflexivity.
    + intros k' Hk' Hin. unfold Dict.keys in Hin. rewrite map_app, in_app_iff in Hin.
      destruct Hin as [Hin|[<-|[]]].
      * eapply Hdisj; [right; exact Hk' | exact Hin].
      * contradiction.
Qed.

Lemma get_map_values {V W} (f : V -> W) (d : Dict.t V) k :
  Dict.get (map (fun kv => (fst kv, f (snd kv))) d) k
  = option_map f (Dict.get d k).
Proof.
  induction d as [|[k0 v0] d IH]; cbn; [reflexivity|].
  destruct (String.eqb k0 k); [reflexivity | exact IH].
Qed.

(** What [transfer_segmentation] returns on a fresh tool: the labels of
    the reference segmentation, each with the target vertices whose
    nearest reference vertex is in the label's reference set. *)
Lemma transfer_spec vs ns ref_vertices ref_seg t' :
  NoDup (Dict.keys ref_seg) ->
  transfer_segmentation (init vs ns) ref_vertices ref_seg = Ok t' ->
  exists closest,
    closest_indices vs ref_vertices = Ok closest
    /\ length closest = length vs
    /\ vertices t' = vs /\ vertex_normals t' = ns
    /\ Dict.keys (segmentation t') = Dict.keys ref_seg
    /\ forall k i,
         members (segmentation t') k i
         <-> exists ref_part, Dict.get ref_seg k = Some ref_part
                              /\ i < length vs
                              /\ In (nth i closest 0) ref_part.
Proof.
  intros Hnd H. unfold transfer_segmentation in H.
  apply bind_ok in H as (closest & Hc & H). injection H as <-.
  cbn [init vertices segmentation] in *.
  destruct (closest_indices_inv _ _ _ Hc) as (Hlen & _).
  exists closest. split; [exact Hc|]. split; [exact Hlen|].
  split; [reflexivity|]. split; [reflexivity|].
  cbn [with_segmentation segmentation].
  rewrite transfer_parts_map by (assumption || (intros ? ? [])). cbn [app].
  split.
  - unfold Dict.keys. rewrite map_map. reflexivity.
  - intros k i. unfold members.
    rewrite (get_map_values (fun rp => transfer_part rp (enumerate closest) [])).
    split.
    + intros (vs' & Hget & Hi). destruct (Dict.get ref_seg k) as [rp|]; [|discriminate].
      cbn in Hget. injection Hget as <-. apply in_transfer_part in Hi as [Hi Hin].
      exists rp. split; [reflexivity|]. split; [lia | exact Hin].
    + intros (rp & Hget & Hi & Hin). rewrite Hget. cbn.
      eexists. split; [reflexivity|]. apply in_transfer_part. split; [lia | exact Hin].
Qed.

Lemma transfer_total vs ns r ref_vertices ref_seg :
  exists t', transfer_segmentation (init vs ns) (r :: ref_vertices) ref_seg = Ok t'.
Proof.
  unfold transfer_segmentation.
  destruct (closest_indices_total vs r ref_vertices) as (cs & Hcs).
  cbn [init vertices]. rewrite Hcs. cbn. eauto.
Qed.

(** C10 (as amended). On a fresh tool, with a reference segmentation whose
    index sets may overlap, a target vertex is put under every label whose
    reference set holds its nearest reference vertex, and under no other:
    index [i] is under label [k] exactly when [k] is a reference label and
    the reference set of [k] contains the nearest reference index of
    [i]. *)
Theorem transfer_every_label vs ns ref_vertices ref_seg t' :
  NoDup (Dict.keys ref_seg) ->
  transfer_segmentation (init vs ns) ref_vertices ref_seg = Ok t' ->
  exists closest,
    closest_indices vs ref_vertices = Ok closest
    /\ forall k i,
         members (segmentation t') k i
         <-> exists ref_part, Dict.get ref_seg k = Some ref_part
                              /\ i < length vs
                              /\ In (nth i closest 0) ref_part.
Proof.
  intros Hnd H.
  destruct (transfer_spec vs ns ref_vertices ref_seg t' Hnd H)
    as (closest & Hc & _ & _ & _ & _ & Hmem).
  exists closest. split; assumption.
Qed.

Lemma transfer_every_label_witness :
  exists closest,
    closest_indices mesh_one mesh_one = Ok closest
    /\ forall k i,
         members
           (segmentation (tool_of
              (transfer_segmentation (init mesh_one []) mesh_one ref_overlap))) k i
         <-> exists ref_part, Dict.get ref_overlap k = Some ref_part
                              /\ i < length mesh_one
                              /\ In (nth i closest 0) ref_part.
Proof.
  apply (transfer_every_label mesh_one [] mesh_one ref_overlap).
  - cbn. repeat constructor; cbn; intuition discriminate.
  - vm_compute. reflexivity.
Defined.

(** C10 (as stated) fails: a vertex whose nearest reference vertex is
    claimed by two labels ends up under both. *)
Lemma overlap_assigns_both :
  returned (transfer_segmentation (init mesh_one []) mesh_one ref_overlap)
  = Ok [("a", [0]); ("b", [0])].
Proof. vm_compute. reflexivity. Qed.

(** C9 (as amended). When the nearest reference vertex of a target vertex
    is in no reference label's set, [transfer_segmentation] on a fresh
    tool still returns, the vertex is under no label of the result, the
    result has the labels of the reference segmentation and no other (no
    bucket for unassigned vertices), and the rest of the tool's state is
    unchanged (no count is kept). *)
Theorem transfer_leaves_out_uncovered vs ns ref_vertices ref_seg closest i :
  NoDup (Dict.keys ref_seg) ->
  closest_indices vs ref_vertices = Ok closest ->
  i < length vs ->
  (forall k ref_part, Dict.get ref_seg k = Some ref_part ->
     ~ In (nth i closest 0) ref_part) ->
  exists t',
    transfer_segmentation (init vs ns) ref_vertices ref_seg = Ok t'
    /\ (forall k, ~ members (segmentation t') k i)
    /\ Dict.keys (segmentation t') = Dict.keys ref_seg
    /\ vertices t' = vs /\ vertex_normals t' = ns.
Proof.
  intros Hnd Hc Hi Hout.
  assert (Hrun : exists t',
             transfer_segmentation (init vs ns) ref_vertices ref_seg = Ok t').
  { unfold transfer_segmentation. cbn [init vertices]. rewrite Hc. cbn. eauto. }
  destruct Hrun as (t' & Hrun). exists t'. split; [exact Hrun|].
  destruct (transfer_spec vs ns ref_vertices ref_seg t' Hnd Hrun)
    as (closest' & Hc' & _ & Hv & Hn & Hk & Hmem).
  assert (closest' = closest) by congruence. subst closest'.
  split; [|auto].
  intros k Hk'. apply Hmem in Hk' as (rp & Hget & _ & Hin).
  exact (Hout k rp Hget Hin).
Qed.

Lemma transfer_leaves_out_uncovered_witness :
  exists t',
    transfer_segmentation (init mesh_one []) mesh_pair ref_partial = Ok t'
    /\ (forall k, ~ members (segmentation t') k 0)
    /\ Dict.keys (segmentation t') = Dict.keys ref_partial
    /\ vertices t' = mesh_one /\ vertex_normals t' = [].
Proof.
  apply (transfer_leaves_out_uncovered mesh_one [] mesh_pair ref_partial [0] 0).
  - cbn. repeat constructor. intros [].
  - vm_compute. reflexivity.
  - cbn. lia.
  - intros k ref_part. unfold ref_partial. cbn [Dict.get nth].
    destruct (String.eqb "a" k); intros H; [|discriminate H].
    injection H as <-. cbn. intuition discriminate.
Defined.

(** C9 (as stated) fails: the vertex is left out of the result and
    nothing records it; the whole state of the tool after the call is the
    mesh and a segmentation with an empty ["a"]. *)
Lemma uncovered_vertex_dropped :
  transfer_segmentation (init mesh_one []) mesh_pair ref_partial
  = Ok (mkTool mesh_one [] [("a", [])]).
Proof. vm_compute. reflexivity. Qed.

(** ** Transfer onto the reference mesh itself *)

Lemma finite_sub_self x : is_finite x = true -> (x - x)%float = 0%float.
Proof.
  unfold is_finite, is_infinity, is_nan.
  rewrite negb_true_iff, orb_false_iff, negb_false_iff.
  rewrite !eqb_spec, abs_spec. intros [Hnan Hinf].
  apply Prim2SF_inj. rewrite sub_spec.
  destruct (Prim2SF x) as [s|s| |s m e].
  - destruct s; reflexivity.
  - discriminate Hinf.
  - discriminate Hnan.
  - unfold SF64sub, SFsub. rewrite Z.sub_diag. reflexivity.
Qed.

Lemma euclidean_self v : finite_vertex v -> euclidean v v = 0%float.
Proof.
  intros (Hx & Hy & Hz). unfold euclidean.
  rewrite (finite_sub_self _ Hx), (finite_sub_self _ Hy), (finite_sub_self _ Hz).
  reflexivity.
Qed.

Lemma positive_not_nan x : (0 <? x)%float = true -> is_nan x = false.
Proof. intros. float_order. Qed.

Lemma zero_not_nan x : (x =? 0)%float = true -> is_nan x = false.
Proof. intros. float_order. Qed.

(** Once a zero is the running minimum, positive entries do not replace
    it. *)
Lemma argmin_from_zero row : forall z min_ind i,
  (z =? 0)%float = true ->
  Forall (fun x => (0 <? x)%float = true) row ->
  argmin_from z min_ind i row = min_ind.
Proof.
  induction row as [|x row IH]; intros z min_ind i Hz Hrow; cbn [argmin_from];
    [reflexivity|].
  inversion Hrow as [|? ? Hx Hrow']; subst.
  rewrite (zero_leb_pos z x Hz Hx). cbn [negb]. apply IH; assumption.
Qed.

(** A positive running minimum is replaced by the first zero. *)
Lemma argmin_from_positive pre : forall mp min_ind i z post,
  (0 <? mp)%float = true ->
  Forall (fun x => (0 <? x)%float = true) pre ->
  (z =? 0)%float = true ->
  Forall (fun x => (0 <? x)%float = true) post ->
  argmin_from mp min_ind i (pre ++ z :: post) = i + length pre.
Proof.
  induction pre as [|x pre IH]; intros mp min_ind i z post Hmp Hpre Hz Hpost;
    cbn [app argmin_from length].
  - rewrite (zero_lt_not_leb mp z Hmp Hz). cbn [negb].
    rewrite (zero_not_nan z Hz), Nat.add_0_r. apply argmin_from_zero; assumption.
  - inversion Hpre as [|? ? Hx Hpre']; subst.
    destruct (negb (mp <=? x)%float).
    + rewrite (positive_not_nan x Hx). rewrite IH by assumption. lia.
    + rewrite IH by assumption. lia.
Qed.

Lemma np_argmin_zero pre z post :
  Forall (fun x => (0 <? x)%float = true) pre ->
  (z =? 0)%float = true ->
  Forall (fun x => (0 <? x)%float = true) post ->
  np_argmin (pre ++ z :: post) = Ok (length pre).
Proof.
  intros Hpre Hz Hpost. destruct pre as [|x pre]; cbn [app np_argmin length].
  - rewrite (zero_not_nan z Hz). f_equal. apply argmin_from_zero; assumption.
  - inversion Hpre as [|? ? Hx Hpre']; subst.
    rewrite (positive_not_nan x Hx). f_equal.
    rewrite argmin_from_positive by assumption. reflexivity.
Qed.

Lemma nearest_is_self vs i :
  Forall finite_vertex vs ->
  (forall a b, a < length vs -> b < length vs -> a <> b ->
     (0 <? euclidean (nth a vs (0, 0, 0)%float) (nth b vs (0, 0, 0)%float))%float
     = true) ->
  i < length vs ->
  np_argmin (map (euclidean (nth i vs (0, 0, 0)%float)) vs) = Ok i.
Proof.
  intros Hfin Hdist Hi.
  set (d := (0, 0, 0)%float) in *. set (v := nth i vs d).
  destruct (nth_split vs d Hi) as (l1 & l2 & Hsplit & Hl1). fold v in Hsplit.
  assert (Hlen : length vs = length l1 + S (length l2)).
  { rewrite Hsplit at 1. rewrite length_app. reflexivity. }
  assert (Hpre : Forall (fun x => (0 <? x)%float = true) (map (euclidean v) l1)).
  { apply Forall_map, Forall_forall. intros u Hu.
    destruct (In_nth l1 u d Hu) as (j & Hj & Hnth).
    assert (Hu' : nth j vs d = u).
    { rewrite Hsplit. rewrite app_nth1 by exact Hj. exact Hnth. }
    rewrite <- Hu'. apply Hdist; lia. }
  assert (Hpost : Forall (fun x => (0 <? x)%float = true) (map (euclidean v) l2)).
  { apply Forall_map, Forall_forall. intros u Hu.
    destruct (In_nth l2 u d Hu) as (j & Hj & Hnth).
    assert (Hu' : nth (length l1 + S j) vs d = u).
    { rewrite Hsplit. rewrite app_nth2 by lia.
      replace (length l1 + S j - length l1) with (S j) by lia. exact Hnth. }
    rewrite <- Hu'. apply Hdist; lia. }
  assert (Hz : (euclidean v v =? 0)%float = true).
  { rewrite euclidean_self; [reflexivity|].
    rewrite Forall_forall in Hfin. apply Hfin, nth_In, Hi. }
  clearbody v. rewrite Hsplit, map_app. cbn [map].
  rewrite (np_argmin_zero _ _ _ Hpre Hz Hpost), length_map, Hl1. reflexivity.
Qed.

(** C8 (as amended). When the target mesh is the reference mesh, its
    coordinates are finite, any two distinct vertices are at a nonzero
    computed distance, and the reference segmentation (a dict) holds only
    indices of the mesh, [transfer_segmentation] on a fresh tool returns
    the labels of the reference segmentation, in the same order, each with
    the same set of indices. *)
Theorem transfer_identity vs ns ref_seg :
  vs <> [] ->
  NoDup (Dict.keys ref_seg) ->
  Forall finite_vertex vs ->
  (forall a b, a < length vs -> b < length vs -> a <> b ->
     (0 <? euclidean (nth a vs (0, 0, 0)%float) (nth b vs (0, 0, 0)%float))%float
     = true) ->
  (forall k i, members ref_seg k i -> i < length vs) ->
  exists t',
    transfer_segmentation (init vs ns) vs ref_seg = Ok t'
    /\ Dict.keys (segmentation t') = Dict.keys ref_seg
    /\ forall k i, members (segmentation t') k i <-> members ref_seg k i.
Proof.
  intros Hne Hnd Hfin Hdist Hrange.
  destruct vs as [|v0 rest] eqn:Hvs; [contradiction|]. rewrite <- Hvs in *.
  assert (Hrun : exists t', transfer_segmentation (init vs ns) vs ref_seg = Ok t').
  { rewrite Hvs. apply transfer_total. }
  destruct Hrun as (t' & Hrun). exists t'. split; [exact Hrun|].
  destruct (transfer_spec vs ns vs ref_seg t' Hnd Hrun)
    as (closest & Hc & Hlen & _ & _ & Hk & Hmem).
  split; [exact Hk|].
  assert (Hself : forall i, i < length vs -> nth i closest 0 = i).
  { intros i Hi.
    destruct (closest_indices_inv _ _ _ Hc) as (_ & Hnth).
    specialize (Hnth i (0, 0, 0)%float Hi).
    rewrite (nearest_is_self vs i Hfin Hdist Hi) in Hnth. congruence. }
  intros k i. rewrite Hmem. unfold members. split.
  - intros (rp & Hget & Hi & Hin). rewrite (Hself i Hi) in Hin. eauto.
  - intros (rp & Hget & Hin). exists rp. split; [exact Hget|].
    assert (Hi : i < length vs) by (apply (Hrange k); exists rp; auto).
    split; [exact Hi|]. rewrite (Hself i Hi). exact Hin.
Qed.

Lemma transfer_identity_witness :
  exists t',
    transfer_segmentation (init mesh_pair []) mesh_pair ref_split = Ok t'
    /\ Dict.keys (segmentation t') = Dict.keys ref_split
    /\ forall k i, members (segmentation t') k i <-> members ref_split k i.
Proof.
  apply (transfer_identity mesh_pair [] ref_split).
  - discriminate.
  - cbn. repeat constructor; cbn; intuition discriminate.
  - repeat constructor.
  - intros a b Ha Hb Hab. cbn in Ha, Hb.
    destruct a as [|[|a]], b as [|[|b]]; try lia; vm_compute; reflexivity.
  - intros k i (vs & Hget & Hin). unfold ref_split in Hget. cbn [Dict.get] in Hget.
    destruct (String.eqb "a" k).
    + injection Hget as <-. destruct Hin as [<-|[]]. cbn. lia.
    + destruct (String.eqb "b" k); [|discriminate Hget].
      injection Hget as <-. destruct Hin as [<-|[]]. cbn. lia.
Defined.

(** C8 (as stated) fails: two distinct positions whose squared distance
    underflows are at computed distance 0, both target vertices take
    reference vertex 0 as nearest, and the result is not the reference
    segmentation. *)
Lemma underflow_breaks_identity :
  (vx (nth 0 mesh_close (0, 0, 0)%float) =? vx (nth 1 mesh_close (0, 0, 0)%float))%float
  = false
  /\ closest_indices mesh_close mesh_close = Ok [0; 0]
  /\ returned (transfer_segmentation (init mesh_close []) mesh_close ref_split)
     = Ok [("a", [0; 1]); ("b", [])].
Proof. repeat split; vm_compute; reflexivity. Qed.

(** * Further properties of the geometric segmenter *)

Lemma small_part_unassigned t1 k part i :
  NoDup (Dict.keys (segmentation t1)) ->
  Permutation (concat (Dict.values (segmentation t1)))
              (seq 0 (length (vertices t1))) ->
  Dict.get (segmentation t1) k = Some part ->
  length part < min_vertices ->
  In i part ->
  In i (unassigned_vertices (length (vertices t1))
          (filter big_enough (segmentation t1))).
Proof.
  intros Hk Hperm Hget Hsmall Hi.
  assert (Hnd : NoDup (concat (Dict.values (segmentation t1)))).
  { eapply Permutation_NoDup; [symmetry; exact Hperm | apply seq_NoDup]. }
  apply in_unassigned. split.
  - assert (Hin : In i (concat (Dict.values (segmentation t1)))).
    { apply in_concat_values. eauto using get_in. }
    eapply Permutation_in in Hin; [|exact Hperm]. apply in_seq in Hin. lia.
  - intros Hin. apply in_concat_values in Hin as (k' & vs' & Hin & Hi').
    apply filter_In in Hin as [Hin Hb].
    assert (k = k') by (eapply NoDup_concat_unique; eauto using get_in).
    subst k'. apply in_get in Hin; [|assumption].
    assert (vs' = part) by congruence. subst.
    unfold big_enough in Hb. cbn [snd] in Hb.
    apply negb_true_iff, Nat.ltb_ge in Hb. lia.
Qed.

Lemma body_is_a_part vs ns t1 :
  geometric_assignment (init vs ns) = Ok t1 ->
  exists vb, Dict.get (segmentation t1) "body" = Some vb.
Proof.
  intros H1. destruct (geometric_assignment_spec vs ns t1 H1)
    as (_ & _ & _ & _ & Hk & _).
  apply in_keys_get. rewrite Hk. left. reflexivity.
Qed.

Lemma assignment_invariant vs ns t1 :
  geometric_assignment (init vs ns) = Ok t1 ->
  NoDup (Dict.keys (segmentation t1))
  /\ Permutation (concat (Dict.values (segmentation t1)))
                 (seq 0 (length (vertices t1)))
  /\ length (vertices t1) = length vs.
Proof.
  intros H1. destruct (geometric_assignment_spec vs ns t1 H1)
    as (_ & _ & _ & Hv & Hk & Hperm & _).
  assert (Hlen : length (vertices t1) = length vs).
  { rewrite Hv, normalize_length. reflexivity. }
  split; [rewrite Hk; apply height_ranges_keys_NoDup|].
  split; [rewrite Hlen; exact Hperm | exact Hlen].
Qed.

(** X1. When [geometric_segmentation] fails on a mesh with vertices: it
    raises [KeyError] for ["body"] exactly when the assignment loop left
    fewer than ten vertices under ["body"] and some part holds between one
    and nine vertices; in every other case it returns. *)
Theorem geometric_outcome vs ns t1 :
  geometric_assignment (init vs ns) = Ok t1 ->
  let body_small :=
    length (indices_of (segmentation t1) "body") < min_vertices in
  let leftover :=
    exists k, 0 < length (indices_of (segmentation t1) k) < min_vertices in
  (body_small /\ leftover ->
     geometric_segmentation (init vs ns) = Raise (KeyError "body"))
  /\ (~ (body_small /\ leftover) ->
        exists t2, geometric_segmentation (init vs ns) = Ok t2).
Proof.
  intros H1 body_small leftover.
  destruct (assignment_invariant vs ns t1 H1) as (Hnd & Hperm & _).
  destruct (body_is_a_part vs ns t1 H1) as (vb & Hvb).
  assert (Hbody : indices_of (segmentation t1) "body" = vb)
    by (unfold indices_of; rewrite Hvb; reflexivity).
  split.
  - intros (Hsmall & k & Hk). unfold body_small in Hsmall. rewrite Hbody in Hsmall.
    unfold geometric_segmentation. rewrite H1. cbn [bind].
    apply post_process_keyerror; [exact Hnd | |].
    + unfold indices_of in Hk.
      destruct (Dict.get (segmentation t1) k) as [part|] eqn:Hget; [|cbn in Hk; lia].
      destruct part as [|i part]; [cbn in Hk; lia|].
      intros HU.
      pose proof (small_part_unassigned t1 k (i :: part) i Hnd Hperm Hget
                    (proj2 Hk) (or_introl eq_refl)) as Hin.
      rewrite HU in Hin. destruct Hin.
    + rewrite (in_filter_big_get _ "body" vb Hnd Hvb).
      unfold big_enough. cbn [snd].
      replace (Nat.ltb (length vb) min_vertices) with true; [reflexivity|].
      symmetry. apply Nat.ltb_lt, Hsmall.
  - intros Hnot. destruct (le_lt_dec min_vertices (length vb)) as [Hbig|Hsmall].
    + eapply geometric_returns; eassumption.
    + unfold geometric_segmentation. rewrite H1. cbn [bind].
      unfold _post_process_segmentation.
      rewrite remove_small_keys by assumption. cbn [bind].
      destruct (unassigned_vertices _ _) as [|u us] eqn:HU; [eauto|exfalso].
      assert (Hu : In u (unassigned_vertices (length (vertices t1))
                           (filter big_enough (segmentation t1))))
        by (rewrite HU; left; reflexivity).
      apply in_unassigned in Hu as (Hu & Hout).
      assert (Hin : In u (concat (Dict.values (segmentation t1)))).
      { eapply Permutation_in; [symmetry; exact Hperm|]. apply in_seq. lia. }
      apply in_concat_values in Hin as (k & part & Hkp & Hup).
      destruct (big_enough (k, part)) eqn:Hb.
      * apply Hout, in_concat_values. exists k, part. split; [|exact Hup].
        apply filter_In. split; assumption.
      * apply Hnot. split; [unfold body_small; rewrite Hbody; exact Hsmall|].
        exists k. unfold indices_of. rewrite (in_get _ _ _ Hnd Hkp).
        unfold big_enough in Hb. cbn [snd] in Hb.
        apply negb_false_iff, Nat.ltb_lt in Hb.
        destruct part; [destruct Hup | cbn in *; lia].
Qed.

Lemma geometric_outcome_witness :
  (length (indices_of (segmentation
             (tool_of (geometric_assignment (init mesh_leg_and_top [])))) "body")
   < min_vertices
   /\ (exists k,
         0 < length (indices_of (segmentation
               (tool_of (geometric_assignment (init mesh_leg_and_top [])))) k)
         < min_vertices) ->
   geometric_segmentation (init mesh_leg_and_top []) = Raise (KeyError "body"))
  /\ (~ (length (indices_of (segmentation
                   (tool_of (geometric_assignment (init mesh_leg_and_top [])))) "body")
         < min_vertices
         /\ (exists k,
               0 < length (indices_of (segmentation
                     (tool_of (geometric_assignment (init mesh_leg_and_top [])))) k)
               < min_vertices)) ->
      exists t2, geometric_segmentation (init mesh_leg_and_top []) = Ok t2).
Proof.
  apply (geometric_outcome mesh_leg_and_top []). vm_compute. reflexivity.
Defined.

(** X2. Whatever [geometric_segmentation] returns on a fresh tool has at
    most six labels, all of them band names and no name twice, and every
    label holds at least ten indices. *)
Theorem geometric_result_shape vs ns t2 :
  geometric_segmentation (init vs ns) = Ok t2 ->
  NoDup (Dict.keys (segmentation t2))
  /\ incl (Dict.keys (segmentation t2)) (Dict.keys height_ranges)
  /\ length (Dict.keys (segmentation t2)) <= 6
  /\ forall k part, Dict.get (segmentation t2) k = Some part ->
       min_vertices <= length part.
Proof.
  unfold geometric_segmentation. intros H.
  apply bind_ok in H as (t1 & H1 & H2).
  destruct (assignment_invariant vs ns t1 H1) as (Hnd & Hperm & _).
  destruct (geometric_assignment_spec vs ns t1 H1) as (_ & _ & _ & _ & Hk & _).
  destruct (post_process_cases t1 t2 Hnd H2) as (_ & Hcases).
  set (seg1 := filter big_enough (segmentation t1)) in *.
  assert (Hnd1 : NoDup (Dict.keys seg1)) by (apply keys_filter_NoDup, Hnd).
  assert (Hincl1 : incl (Dict.keys seg1) (Dict.keys height_ranges)).
  { intros k Hin. rewrite <- Hk. apply in_map_iff in Hin as (kv & <- & Hin).
    apply filter_In in Hin as [Hin _]. apply in_map, Hin. }
  assert (Hbig1 : forall k part, Dict.get seg1 k = Some part ->
                    min_vertices <= length part).
  { intros k part Hget. apply get_in, filter_In in Hget as [_ Hb].
    unfold big_enough in Hb. cbn [snd] in Hb.
    apply negb_true_iff, Nat.ltb_ge in Hb. exact Hb. }
  assert (Hshape : forall seg2 : segmentation_t,
             NoDup (Dict.keys seg2) ->
             incl (Dict.keys seg2) (Dict.keys height_ranges) ->
             length (Dict.keys seg2) <= 6).
  { intros seg2 Hn Hi. apply (NoDup_incl_length Hn Hi). }
  destruct Hcases as [(_ & ->) | (_ & vb & Hvb & ->)].
  - repeat split; auto.
  - assert (Hkeys : Dict.keys (Dict.set seg1 "body" (vb ++ unassigned_vertices
                       (length (vertices t1)) seg1)) = Dict.keys seg1).
    { apply keys_set_in. eapply get_in_keys, Hvb. }
    rewrite Hkeys. repeat split; auto.
    intros k part Hget. destruct (string_dec "body" k) as [<-|Hne].
    + rewrite get_set_same in Hget. injection Hget as <-.
      rewrite length_app. specialize (Hbig1 _ _ Hvb). lia.
    + rewrite get_set_other in Hget by assumption. eapply Hbig1, Hget.
Qed.

Lemma geometric_result_shape_witness :
  NoDup (Dict.keys (segmentation (tool_of (geometric_segmentation (init mesh12 [])))))
  /\ incl (Dict.keys (segmentation (tool_of (geometric_segmentation (init mesh12 [])))))
          (Dict.keys height_ranges)
  /\ length (Dict.keys (segmentation (tool_of (geometric_segmentation (init mesh12 [])))))
     <= 6
  /\ forall k part,
       Dict.get (segmentation (tool_of (geometric_segmentation (init mesh12 [])))) k
       = Some part ->
       min_vertices <= length part.
Proof.
  apply (geometric_result_shape mesh12 []). vm_compute. reflexivity.
Defined.

(** X3. How the two passes of [geometric_segmentation] compose: an index
    the assignment loop put under part [k] ends up under [k] when the loop
    left at least ten indices there, under ["body"] otherwise, and under
    no other label. *)
Theorem geometric_final_label vs ns t1 t2 k i :
  geometric_assignment (init vs ns) = Ok t1 ->
  geometric_segmentation (init vs ns) = Ok t2 ->
  members (segmentation t1) k i ->
  members (segmentation t2)
    (if Nat.ltb (length (indices_of (segmentation t1) k)) min_vertices
     then "body" else k) i
  /\ forall k', members (segmentation t2) k' i ->
       k' = (if Nat.ltb (length (indices_of (segmentation t1) k)) min_vertices
             then "body" else k).
Proof.
  intros H1 H (part & Hget & Hi).
  unfold geometric_segmentation in H. rewrite H1 in H. cbn [bind] in H.
  destruct (assignment_invariant vs ns t1 H1) as (Hnd & Hperm & Hlen).
  unfold indices_of. rewrite Hget.
  pose proof (vertex_final_label t1 t2 k part i Hnd Hperm H Hget Hi) as Hfinal.
  split; [exact Hfinal|].
  destruct (post_process_partition t1 t2 Hnd Hperm H) as (Hnd2 & Hperm2).
  destruct (permutation_partitions _ _ Hnd2 Hperm2) as (Hone & Hrange).
  destruct (Hone i (Hrange _ _ Hfinal)) as (k0 & _ & Huniq).
  intros k' Hk'. rewrite (Huniq _ Hk'), (Huniq _ Hfinal). reflexivity.
Qed.

Lemma geometric_final_label_witness :
  members (segmentation (tool_of (geometric_segmentation (init mesh12 []))))
    (if Nat.ltb (length (indices_of
           (segmentation (tool_of (geometric_assignment (init mesh12 []))))
           "face_internal")) min_vertices
     then "body" else "face_internal") 11
  /\ forall k',
       members (segmentation (tool_of (geometric_segmentation (init mesh12 [])))) k' 11 ->
       k' = (if Nat.ltb (length (indices_of
                   (segmentation (tool_of (geometric_assignment (init mesh12 []))))
                   "face_internal")) min_vertices
             then "body" else "face_internal").
Proof.
  apply (geometric_final_label mesh12 []).
  - vm_compute. reflexivity.
  - vm_compute. reflexivity.
  - exists [11]. split; [vm_compute; reflexivity | left; reflexivity].
Defined.

Lemma post_process_mesh t t' :
  _post_process_segmentation t = Ok t' ->
  vertices t' = vertices t /\ vertex_normals t' = vertex_normals t.
Proof.
  unfold _post_process_segmentation. intros H.
  apply bind_ok in H as (seg & _ & H).
  destruct (unassigned_vertices _ _).
  - injection H as <-. split; reflexivity.
  - apply bind_ok in H as (seg' & _ & H). injection H as <-. split; reflexivity.
Qed.



(** ** The geometric segmenter on a tool that already holds labels *)

Lemma init_parts_get_other seg k :
  ~ In k (Dict.keys height_ranges) ->
  Dict.get (init_parts seg) k = Dict.get seg k.
Proof.
  unfold init_parts. generalize (Dict.keys height_ranges) as ks. intros ks.
  revert seg. induction ks as [|k0 ks IH]; intros seg Hn; cbn [fold_left];
    [reflexivity|].
  rewrite IH by (intros Hin; apply Hn; right; exact Hin).
  apply get_set_other. intros ->. apply Hn. left. reflexivity.
Qed.

Lemma init_parts_keys seg :
  NoDup (Dict.keys seg) ->
  NoDup (Dict.keys (init_parts seg))
  /\ incl (Dict.keys height_ranges) (Dict.keys (init_parts seg)).
Proof.
  unfold init_parts. generalize (Dict.keys height_ranges) as ks. intros ks.
  revert seg. induction ks as [|k0 ks IH]; intros seg Hnd; cbn [fold_left].
  - split; [exact Hnd | intros ? []].
  - destruct (IH (Dict.set seg k0 []) (NoDup_keys_set _ _ _ Hnd)) as (Hnd' & Hincl).
    split; [exact Hnd'|]. intros k [<-|Hin]; [|apply Hincl, Hin].
    clear IH Hincl Hnd'.
    assert (Hk0 : In k0 (Dict.keys (Dict.set seg k0 (@nil nat))))
      by (apply in_keys_set; left; reflexivity).
    revert Hk0. generalize (Dict.set seg k0 (@nil nat)) as d.
    induction ks as [|k1 ks IH]; intros d Hd; cbn [fold_left]; [exact Hd|].
    apply IH. apply in_keys_set. right. exact Hd.
Qed.

Lemma assign_vertices_get_other t ihs k : forall seg seg',
  ~ In k (Dict.keys height_ranges) ->
  assign_vertices t ihs seg = Ok seg' ->
  Dict.get seg' k = Dict.get seg k.
Proof.
  induction ihs as [|[i h] ihs IH]; intros seg seg' Hn H; cbn [assign_vertices] in H.
  - injection H as <-. reflexivity.
  - destruct (vertex_part_ok t i h) as (p & Hp & Hin). rewrite Hp in H.
    cbn [bind] in H. apply bind_ok in H as (seg1 & Happ & H).
    rewrite (IH _ _ Hn H).
    unfold dict_append, dict_extend in Happ.
    apply bind_ok in Happ as (vs & _ & Happ). injection Happ as <-.
    apply get_set_other. intros ->. contradiction.
Qed.

(** X5. [geometric_segmentation] resets only the six band names: a label
    of another name that the tool already holds (left by an earlier
    transfer, say) with at least ten indices is still in the returned
    segmentation, with the same indices. *)
Theorem geometric_keeps_other_labels t t2 k part :
  NoDup (Dict.keys (segmentation t)) ->
  geometric_segmentation t = Ok t2 ->
  ~ In k (Dict.keys height_ranges) ->
  Dict.get (segmentation t) k = Some part ->
  min_vertices <= length part ->
  Dict.get (segmentation t2) k = Some part.
Proof.
  intros Hnd H Hk Hget Hbig. unfold geometric_segmentation in H.
  apply bind_ok in H as (t1 & H1 & H2).
  unfold geometric_assignment in H1.
  apply bind_ok in H1 as (heights & _ & H1).
  apply bind_ok in H1 as (seg & Hseg & H1). injection H1 as <-.
  set (t0 := _normalize_mesh t) in *.
  destruct (init_parts_keys (segmentation t0) Hnd) as (Hnd0 & Hincl0).
  destruct (assign_vertices_spec t0 (enumerate heights) _ Hincl0)
    as (seg' & Hrun & Hkeys & _).
  rewrite Hrun in Hseg. injection Hseg as <-.
  assert (Hget1 : Dict.get seg' k = Some part).
  { rewrite (assign_vertices_get_other _ _ _ _ _ Hk Hrun).
    rewrite init_parts_get_other by exact Hk. exact Hget. }
  assert (Hnd1 : NoDup (Dict.keys (segmentation (with_segmentation t0 seg')))).
  { cbn [with_segmentation segmentation]. rewrite Hkeys. exact Hnd0. }
  destruct (post_process_cases _ t2 Hnd1 H2) as (_ & Hcases).
  cbn [with_segmentation segmentation vertices] in Hcases.
  assert (Hkept : Dict.get (filter big_enough seg') k = Some part).
  { rewrite (in_filter_big_get seg' k part) by (rewrite ?Hkeys; assumption).
    unfold big_enough. cbn [snd].
    replace (Nat.ltb (length part) min_vertices) with false; [reflexivity|].
    symmetry. apply Nat.ltb_ge, Hbig. }
  destruct Hcases as [(_ & ->) | (_ & vb & _ & ->)]; [exact Hkept|].
  rewrite get_set_other; [exact Hkept|].
  intros <-. apply Hk. left. reflexivity.
Qed.

Lemma geometric_keeps_other_labels_witness :
  Dict.get (segmentation (tool_of (geometric_segmentation tool_with_head))) "head"
  = Some (seq 0 12).
Proof.
  apply (geometric_keeps_other_labels tool_with_head).
  - cbn. repeat constructor. intros [].
  - vm_compute. reflexivity.
  - cbn. intuition discriminate.
  - reflexivity.
  - unfold min_vertices. cbn. lia.
Defined.

(** * Further properties of the clustering segmenter *)

Lemma in_clustered m ils k i :
  In i (clustered m ils k)
  <-> exists c, In (i, c) ils /\ cluster_get m c = Some k.
Proof.
  unfold clustered. rewrite in_map_iff. split.
  - intros ([i' c] & Hfst & Hin). cbn in Hfst. subst i'.
    apply filter_In in Hin as [Hin Hp]. cbn [snd] in Hp.
    exists c. split; [exact Hin|].
    destruct (cluster_get m c) as [p|]; [|discriminate].
    apply String.eqb_eq in Hp. subst. reflexivity.
  - intros (c & Hin & Hc). exists (i, c). split; [reflexivity|].
    apply filter_In. split; [exact Hin|]. cbn [snd]. rewrite Hc.
    apply String.eqb_refl.
Qed.

Lemma cluster_assign_parts m ils : forall seg seg',
  cluster_assign m ils seg = Ok seg' ->
  forall i c, In (i, c) ils -> exists p, cluster_get m c = Some p.
Proof.
  induction ils as [|[i0 c0] ils IH]; intros seg seg' H i c Hin;
    cbn [cluster_assign] in H; [destruct Hin|].
  destruct (cluster_get m c0) as [p|] eqn:Hc0; [|discriminate].
  destruct Hin as [[= <- <-]|Hin]; [eauto|].
  cbv zeta in H. apply bind_ok in H as (seg2 & _ & H). eapply IH; eassumption.
Qed.




Section ClusteringOutcome.

Variable scaler_fit_transform : list (list float) -> list (list float).
Variable scaler_inverse_transform :
  list (list float) -> list (list float) -> list (list float).
Variable kmeans_fit_predict :
  nat -> list (list float) -> list nat * list (list float).

Let cluster_segmentation :=
  cluster_based_segmentation scaler_fit_transform scaler_inverse_transform
    kmeans_fit_predict.

(** X6. On a fresh tool the clustering segmenter puts every vertex index
    that KMeans labelled under exactly one part, and nothing else: the
    returned label sets partition the range of the label array. *)
Theorem cluster_partition vs ns n_clusters t' features cluster_labels
    cluster_centers :
  cluster_segmentation (init vs ns) n_clusters = Ok t' ->
  column_stack vs ns = Ok features ->
  kmeans_fit_predict n_clusters (scaler_fit_transform features)
  = (cluster_labels, cluster_centers) ->
  partitions (segmentation t') (length cluster_labels).
Proof.
  intros Hrun Hf Hk.
  destruct (cluster_segmentation_inv _ _ _ _ _ _ Hrun)
    as (features' & labels' & centers' & Hf' & Hk' & Hassign).
  cbn [init vertices vertex_normals segmentation] in Hf', Hassign.
  assert (features' = features) by congruence. subst features'.
  assert (Heq : (labels', centers') = (cluster_labels, cluster_centers))
    by congruence.
  injection Heq as -> ->.
  set (m := _map_clusters_to_parts scaler_inverse_transform features cluster_centers)
    in *.
  destruct (cluster_assign_spec _ _ _ _ Hassign) as (Hidx & _).
  assert (Hmem : forall k i,
             members (segmentation t') k i
             <-> exists c, In (i, c) (enumerate cluster_labels)
                           /\ cluster_get m c = Some k).
  { intros k i. rewrite <- indices_of_members, Hidx. cbn [indices_of Dict.get app].
    apply in_clustered. }
  split.
  - intros i Hi.
    pose proof (enumerate_in cluster_labels 0 i Hi) as Hin.
    destruct (cluster_assign_parts _ _ _ _ Hassign _ _ Hin) as (p & Hp).
    exists p. split; [apply Hmem; eauto|].
    intros k' Hk''. apply Hmem in Hk'' as (c & Hin' & Hc).
    apply enumerate_inv in Hin, Hin'. congruence.
  - intros k i Hk''. apply Hmem in Hk'' as (c & Hin & _).
    apply enumerate_inv in Hin. apply nth_error_Some. congruence.
Qed.


End ClusteringOutcome.

Lemma cluster_partition_witness :
  partitions
    (segmentation (tool_of
       (cluster_based_segmentation toy_fit_transform toy_inverse_transform
          toy_kmeans (init mesh12 normals12) 2))) 12.
Proof.
  refine (cluster_partition toy_fit_transform toy_inverse_transform toy_kmeans
            mesh12 normals12 2 _
            (value_or (column_stack mesh12 normals12) [])
            (fst (toy_kmeans 2 (value_or (column_stack mesh12 normals12) [])))
            (snd (toy_kmeans 2 (value_or (column_stack mesh12 normals12) [])))
            _ _ _).
  - vm_compute. reflexivity.
  - vm_compute. reflexivity.
  - vm_compute. reflexivity.
Defined.


(** * Further properties of the transfer segmenter *)

Lemma argmin_from_range row : forall mp min_ind i,
  argmin_from mp min_ind i row = min_ind
  \/ i <= argmin_from mp min_ind i row < i + length row.
Proof.
  induction row as [|x row IH]; intros mp min_ind i; cbn [argmin_from length];
    [left; reflexivity|].
  destruct (negb (mp <=? x)%float).
  - destruct (is_nan x); [right; lia|].
    destruct (IH x i (S i)) as [->|H]; right; lia.
  - destruct (IH mp min_ind (S i)) as [->|H]; [left; reflexivity | right; lia].
Qed.

Lemma np_argmin_range row c : np_argmin row = Ok c -> c < length row.
Proof.
  destruct row as [|x row]; cbn [np_argmin length]; [discriminate|].
  destruct (is_nan x); intros [= <-]; [lia|].
  destruct (argmin_from_range row x 0 1) as [->|H]; lia.
Qed.

Lemma closest_in_range vs ref cs :
  closest_indices vs ref = Ok cs -> Forall (fun c => c < length ref) cs.
Proof.
  intros H. destruct (closest_indices_inv _ _ _ H) as (Hlen & Hnth).
  apply Forall_forall. intros c Hc.
  destruct (In_nth _ _ 0 Hc) as (i & Hi & <-).
  specialize (Hnth i (0, 0, 0)%float ltac:(lia)).
  apply np_argmin_range in Hnth. rewrite length_map in Hnth. exact Hnth.
Qed.

(** X8. [transfer_segmentation] fails only for a reference mesh without
    vertices (numpy's [argmin] of an empty row): with any other reference
    mesh it returns, whatever the target mesh, the reference segmentation
    and the state of the tool. *)
Theorem transfer_returns_iff t ref_vertices ref_seg :
  (exists t', transfer_segmentation t ref_vertices ref_seg = Ok t')
  <-> ref_vertices <> [].
Proof.
  unfold transfer_segmentation. split.
  - intros (t' & H) ->. cbn in H. discriminate.
  - intros Hne. destruct ref_vertices as [|r ref]; [contradiction|].
    destruct (closest_indices_total (vertices t) r ref) as (cs & Hcs).
    rewrite Hcs. cbn. eauto.
Qed.

(** What the outer loop leaves under each label, on any segmentation. *)
Lemma transfer_parts_get closest ref_items : forall seg k,
  NoDup (Dict.keys ref_items) ->
  Dict.get (transfer_parts closest ref_items seg) k
  = match Dict.get ref_items k with
    | Some ref_part => Some (transfer_part ref_part (enumerate closest) [])
    | None => Dict.get seg k
    end.
Proof.
  induction ref_items as [|[k0 rp] items IH]; intros seg k Hnd;
    cbn [transfer_parts Dict.get]; [reflexivity|].
  inversion Hnd as [|? ? Hk0 Hnd']; subst. rewrite IH by exact Hnd'.
  destruct (String.eqb_spec k0 k) as [->|Hne].
  - destruct (Dict.get items k) as [rp'|] eqn:E.
    + exfalso. apply Hk0. eapply get_in_keys, E.
    + apply get_set_same.
  - destruct (Dict.get items k); [reflexivity|]. apply get_set_other, Hne.
Qed.

(** X9. [transfer_segmentation] on a tool that already holds a
    segmentation: every label of the reference segmentation is rebuilt
    from the nearest reference vertices alone (what the tool held under
    that name is discarded), and every other label the tool held is kept
    unchanged. *)
Theorem transfer_overwrites t ref_vertices ref_seg t' :
  NoDup (Dict.keys ref_seg) ->
  transfer_segmentation t ref_vertices ref_seg = Ok t' ->
  exists closest,
    closest_indices (vertices t) ref_vertices = Ok closest
    /\ (forall k, ~ In k (Dict.keys ref_seg) ->
          Dict.get (segmentation t') k = Dict.get (segmentation t) k)
    /\ (forall k ref_part i, Dict.get ref_seg k = Some ref_part ->
          (members (segmentation t') k i
           <-> i < length (vertices t) /\ In (nth i closest 0) ref_part)).
Proof.
  intros Hnd H. unfold transfer_segmentation in H.
  apply bind_ok in H as (closest & Hc & H). injection H as <-.
  destruct (closest_indices_inv _ _ _ Hc) as (Hlen & _).
  exists closest. split; [exact Hc|]. cbn [with_segmentation segmentation]. split.
  - intros k Hk. rewrite transfer_parts_get by exact Hnd.
    destruct (Dict.get ref_seg k) as [rp|] eqn:E; [|reflexivity].
    exfalso. apply Hk. eapply get_in_keys, E.
  - intros k rp i Hget. unfold members.
    rewrite transfer_parts_get by exact Hnd. rewrite Hget. split.
    + intros (vs' & [= <-] & Hi). apply in_transfer_part in Hi. rewrite <- Hlen.
      exact Hi.
    + intros Hi. eexists. split; [reflexivity|]. apply in_transfer_part.
      rewrite Hlen. exact Hi.
Qed.

Lemma transfer_overwrites_witness :
  exists closest,
    closest_indices (vertices tool_with_labels) mesh_pair = Ok closest
    /\ (forall k, ~ In k (Dict.keys ref_beyond) ->
          Dict.get (segmentation (tool_of
             (transfer_segmentation tool_with_labels mesh_pair ref_beyond))) k
          = Dict.get (segmentation tool_with_labels) k)
    /\ (forall k ref_part i, Dict.get ref_beyond k = Some ref_part ->
          (members (segmentation (tool_of
              (transfer_segmentation tool_with_labels mesh_pair ref_beyond))) k i
           <-> i < length (vertices tool_with_labels)
               /\ In (nth i closest 0) ref_part)).
Proof.
  apply (transfer_overwrites tool_with_labels mesh_pair ref_beyond).
  - cbn. repeat constructor; cbn; intuition discriminate.
  - vm_compute. reflexivity.
Defined.

Lemma enumerate_sorted {A} (f : nat * A -> bool) (l : list A) : forall n,
  StronglySorted lt (map fst (filter f (combine (seq n (length l)) l)))
  /\ Forall (fun i => n <= i) (map fst (filter f (combine (seq n (length l)) l))).
Proof.
  induction l as [|a l IH]; intros n; cbn [length seq combine filter map].
  - split; constructor.
  - destruct (IH (S n)) as (Hs & Hge).
    assert (Hge' : Forall (fun i => n <= i)
                     (map fst (filter f (combine (seq (S n) (length l)) l)))).
    { eapply Forall_impl; [|exact Hge]. cbn. intros; lia. }
    destruct (f (n, a)); cbn [map fst].
    + split; [constructor; [exact Hs|] | constructor; [lia | exact Hge']].
      eapply Forall_impl; [|exact Hge]. cbn. intros; lia.
    + split; assumption.
Qed.

(** X10. Every index list [transfer_segmentation] builds is strictly
    ascending (so without repetition) and holds only indices of target
    vertices, whatever the reference segmentation contains. *)
Theorem transfer_lists_valid t ref_vertices ref_seg t' k ref_part part :
  NoDup (Dict.keys ref_seg) ->
  transfer_segmentation t ref_vertices ref_seg = Ok t' ->
  Dict.get ref_seg k = Some ref_part ->
  Dict.get (segmentation t') k = Some part ->
  StronglySorted lt part
  /\ forall i, In i part -> i < length (vertices t).
Proof.
  intros Hnd H Hget Hpart. unfold transfer_segmentation in H.
  apply bind_ok in H as (closest & Hc & H). injection H as <-.
  destruct (closest_indices_inv _ _ _ Hc) as (Hlen & _).
  cbn [with_segmentation segmentation] in Hpart.
  rewrite transfer_parts_get in Hpart by exact Hnd. rewrite Hget in Hpart.
  injection Hpart as <-. split.
  - rewrite transfer_part_filter. cbn [app]. apply enumerate_sorted.
  - intros i Hi. apply in_transfer_part in Hi. lia.
Qed.

Lemma transfer_lists_valid_witness :
  StronglySorted lt [0; 1]
  /\ forall i, In i [0; 1] -> i < length (vertices (init mesh_close [])).
Proof.
  apply (transfer_lists_valid (init mesh_close []) mesh_close ref_split
           (tool_of (transfer_segmentation (init mesh_close []) mesh_close ref_split))
           "a" [0]).
  - cbn. repeat constructor; cbn; intuition discriminate.
  - vm_compute. reflexivity.
  - reflexivity.
  - vm_compute. reflexivity.
Defined.

(** X11. Coverage carries over: on a fresh tool, when every reference
    vertex is under some reference label, every target vertex is under
    some label of the result; when every reference vertex is under exactly
    one reference label, the result partitions the target indices. *)
Theorem transfer_coverage vs ns ref_vertices ref_seg t' :
  NoDup (Dict.keys ref_seg) ->
  transfer_segmentation (init vs ns) ref_vertices ref_seg = Ok t' ->
  ((forall r, r < length ref_vertices -> exists k, members ref_seg k r) ->
   forall i, i < length vs -> exists k, members (segmentation t') k i)
  /\ ((forall r, r < length ref_vertices ->
         exists k, members ref_seg k r
                   /\ forall k', members ref_seg k' r -> k' = k) ->
      partitions (segmentation t') (length vs)).
Proof.
  intros Hnd H.
  destruct (transfer_spec vs ns ref_vertices ref_seg t' Hnd H)
    as (closest & Hc & Hlen & _ & _ & _ & Hmem).
  pose proof (closest_in_range _ _ _ Hc) as Hrange.
  rewrite Forall_forall in Hrange.
  assert (Hnear : forall i, i < length vs -> nth i closest 0 < length ref_vertices).
  { intros i Hi. apply Hrange, nth_In. lia. }
  split.
  - intros Hcover i Hi.
    destruct (Hcover _ (Hnear i Hi)) as (k & rp & Hget & Hin).
    exists k. apply Hmem. eauto.
  - intros Hone. split.
    + intros i Hi.
      destruct (Hone _ (Hnear i Hi)) as (k & (rp & Hget & Hin) & Huniq).
      exists k. split; [apply Hmem; eauto|].
      intros k' Hk'. apply Hmem in Hk' as (rp' & Hget' & _ & Hin').
      apply Huniq. exists rp'. auto.
    + intros k i Hk. apply Hmem in Hk as (rp & _ & Hi & _). exact Hi.
Qed.

Lemma transfer_coverage_witness :
  ((forall r, r < length mesh_pair -> exists k, members ref_split k r) ->
   forall i, i < length mesh_pair ->
     exists k, members (segmentation (tool_of
                 (transfer_segmentation (init mesh_pair []) mesh_pair ref_split))) k i)
  /\ ((forall r, r < length mesh_pair ->
         exists k, members ref_split k r
                   /\ forall k', members ref_split k' r -> k' = k) ->
      partitions (segmentation (tool_of
         (transfer_segmentation (init mesh_pair []) mesh_pair ref_split)))
        (length mesh_pair)).
Proof.
  apply (transfer_coverage mesh_pair [] mesh_pair ref_split).
  - cbn. repeat constructor; cbn; intuition discriminate.
  - vm_compute. reflexivity.
Defined.

Lemma transfer_part_in_range m ref_part ics :
  Forall (fun ic => snd ic < m) ics ->
  transfer_part (filter (fun r => Nat.ltb r m) ref_part) ics []
  = transfer_part ref_part ics [].
Proof.
  intros Hall. rewrite !transfer_part_filter. cbn [app]. f_equal.
  apply filter_ext_in. intros [i c] Hin. cbn [snd].
  rewrite Forall_forall in Hall. specialize (Hall _ Hin). cbn [snd] in Hall.
  apply eq_true_iff_eq. rewrite !existsb_eqb_in, filter_In, Nat.ltb_lt. tauto.
Qed.

Lemma transfer_parts_in_range m closest ref_items : forall seg,
  Forall (fun c => c < m) closest ->
  transfer_parts closest (in_range_only m ref_items) seg
  = transfer_parts closest ref_items seg.
Proof.
  induction ref_items as [|[k rp] items IH]; intros seg Hall;
    cbn [in_range_only map transfer_parts fst snd]; [reflexivity|].
  rewrite transfer_part_in_range.
  - apply IH, Hall.
  - apply Forall_forall. intros [i c] Hin. cbn [snd].
    rewrite Forall_forall in Hall. eapply Hall, enumerate_snd_in, Hin.
Qed.

(** X12. Reference indices that are no index of the reference mesh have
    no effect: [transfer_segmentation] gives the same outcome with them as
    without them, on any tool. *)
Theorem transfer_ignores_out_of_range t ref_vertices ref_seg :
  transfer_segmentation t ref_vertices
    (in_range_only (length ref_vertices) ref_seg)
  = transfer_segmentation t ref_vertices ref_seg.
Proof.
  unfold transfer_segmentation.
  destruct (closest_indices (vertices t) ref_vertices) as [closest|e] eqn:Hc;
    [|reflexivity].
  cbn [bind]. rewrite transfer_parts_in_range; [reflexivity|].
  eapply closest_in_range, Hc.
Qed.

(** ** Which reference vertex is the nearest *)


Lemma not_leb_ltb x y :
  is_nan x = false -> is_nan y = false ->
  (x <=? y)%float = false -> (y <? x)%float = true.
Proof. intros. float_order. Qed.

Lemma ltb_leb_trans x y z :
  (x <? y)%float = true -> (y <=? z)%float = true -> (x <? z)%float = true.
Proof. intros. float_order. Qed.

Lemma leb_trans x y z :
  (x <=? y)%float = true -> (y <=? z)%float = true -> (x <=? z)%float = true.
Proof. intros. float_order. Qed.

(** On a row of numbers the scan of [argmin] either keeps the running
    minimum, which then is below or equal to all entries, or moves to an
    entry strictly below it, below every entry before and below or equal
    to every entry after. *)
Lemma argmin_from_spec row : forall mp min_ind i,
  is_nan mp = false ->
  Forall (fun x => is_nan x = false) row ->
  (argmin_from mp min_ind i row = min_ind
   /\ Forall (fun y => (mp <=? y)%float = true) row)
  \/ (exists pre d post,
        row = pre ++ d :: post
        /\ argmin_from mp min_ind i row = i + length pre
        /\ (d <? mp)%float = true
        /\ Forall (fun y => (d <? y)%float = true) pre
        /\ Forall (fun y => (d <=? y)%float = true) post).
Proof.
  induction row as [|x row IH]; intros mp min_ind i Hmp Hrow; cbn [argmin_from].
  - left. split; [reflexivity | constructor].
  - inversion Hrow as [|? ? Hx Hrow']; subst.
    destruct (mp <=? x)%float eqn:Hle; cbn [negb].
    + destruct (IH mp min_ind (S i) Hmp Hrow')
        as [(Hr & Hall) | (pre & d & post & Heq & Hr & Hd & Hpre & Hpost)].
      * left. split; [exact Hr | constructor; assumption].
      * right. exists (x :: pre), d, post. rewrite Hr, Heq. cbn [app length].
        split; [reflexivity|]. split; [lia|]. split; [exact Hd|].
        split; [|exact Hpost]. constructor; [|exact Hpre].
        eapply ltb_leb_trans; eassumption.
    + rewrite Hx.
      assert (Hlt : (x <? mp)%float = true) by (apply not_leb_ltb; assumption).
      destruct (IH x i (S i) Hx Hrow')
        as [(Hr & Hall) | (pre & d & post & Heq & Hr & Hd & Hpre & Hpost)].
      * right. exists [], x, row. rewrite Hr. cbn [app length].
        split; [reflexivity|]. split; [lia|]. split; [exact Hlt|].
        split; [constructor | exact Hall].
      * right. exists (x :: pre), d, post. rewrite Hr, Heq. cbn [app length].
        split; [reflexivity|]. split; [lia|].
        split; [eapply ltb_trans; eassumption|].
        split; [|exact Hpost]. constructor; [exact Hd | exact Hpre].
Qed.

(** X13. The nearest reference vertex breaks ties towards the lowest
    index: when the distances from a target vertex to the reference
    vertices are numbers, the reference vertex chosen for it is strictly
    nearer than every reference vertex before it and at least as near as
    every one after it. *)
Theorem nearest_is_first_minimum vs ref_vertices closest i :
  closest_indices vs ref_vertices = Ok closest ->
  i < length vs ->
  Forall (fun d => is_nan d = false)
    (map (euclidean (nth i vs (0, 0, 0)%float)) ref_vertices) ->
  exists pre d post,
    map (euclidean (nth i vs (0, 0, 0)%float)) ref_vertices = pre ++ d :: post
    /\ nth i closest 0 = length pre
    /\ Forall (fun y => (d <? y)%float = true) pre
    /\ Forall (fun y => (d <=? y)%float = true) post.
Proof.
  intros Hc Hi Hnum.
  destruct (closest_indices_inv _ _ _ Hc) as (_ & Hnth).
  specialize (Hnth i (0, 0, 0)%float Hi).
  destruct (map (euclidean (nth i vs (0, 0, 0)%float)) ref_vertices)
    as [|x row]; [discriminate Hnth|].
  inversion Hnum as [|? ? Hx Hrow]; subst.
  cbn [np_argmin] in Hnth. rewrite Hx in Hnth. injection Hnth as Hnth.
  destruct (argmin_from_spec row x 0 1 Hx Hrow)
    as [(Hr & Hall) | (pre & d & post & Heq & Hr & Hd & Hpre & Hpost)].
  - exists [], x, row. rewrite <- Hnth, Hr. repeat split; auto.
  - exists (x :: pre), d, post. rewrite <- Hnth, Hr, Heq. cbn [app length].
    repeat split; auto.
Qed.

Lemma nearest_is_first_minimum_witness :
  exists pre d post,
    map (euclidean (nth 1 mesh_close (0, 0, 0)%float)) mesh_close = pre ++ d :: post
    /\ nth 1 [0; 0] 0 = length pre
    /\ Forall (fun y => (d <? y)%float = true) pre
    /\ Forall (fun y => (d <=? y)%float = true) post.
Proof.
  apply (nearest_is_first_minimum mesh_close mesh_close [0; 0] 1).
  - vm_compute. reflexivity.
  - cbn. lia.
  - repeat constructor.
Defined.

(** * Saving and statistics *)

Lemma total_vertices_concat seg :
  total_vertices seg = length (concat (Dict.values seg)).
Proof.
  unfold total_vertices.
  assert (H : forall l acc,
             fold_left (fun acc (part : list nat) => acc + length part) l acc
             = acc + length (concat l)).
  { induction l as [|x l IH]; intros acc; cbn [fold_left concat].
    - cbn. lia.
    - rewrite IH, length_app. lia. }
  apply H.
Qed.

Lemma part_lines_ok n items :
  n <> 0 ->
  exists lines,
    part_lines n items = inl lines
    /\ line_counts lines = map (fun kv => (fst kv, length (snd kv))) items.
Proof.
  intros Hn. induction items as [|[k part] items (lines & Hl & Hc)];
    cbn [part_lines].
  - exists []. split; reflexivity.
  - unfold percentage. destruct (Nat.eqb_spec n 0) as [|_]; [contradiction|].
    rewrite Hl. eexists. split; [reflexivity|]. cbn. f_equal. exact Hc.
Qed.

Lemma part_lines_zero kv items :
  part_lines 0 (kv :: items) = inr ZeroDivisionError.
Proof. destruct kv. reflexivity. Qed.

(** X14. What [save_segmentation] reports after a geometric segmentation
    on a fresh tool: the total over the labels equals the number of mesh
    vertices, and a line is printed for every label, with its count, and
    no exception. *)
Theorem report_after_geometric vs ns t2 :
  geometric_segmentation (init vs ns) = Ok t2 ->
  report_written (save_segmentation t2) = segmentation t2
  /\ report_total (save_segmentation t2) = length vs
  /\ report_mesh (save_segmentation t2) = length vs
  /\ exists lines,
       report_lines (save_segmentation t2) = inl lines
       /\ line_counts lines
          = map (fun kv => (fst kv, length (snd kv))) (segmentation t2).
Proof.
  intros H. unfold geometric_segmentation in H.
  pose proof H as H'. apply bind_ok in H' as (t1 & H1 & H2).
  destruct (assignment_invariant vs ns t1 H1) as (Hnd & Hperm & Hlen).
  destruct (post_process_partition t1 t2 Hnd Hperm H2) as (_ & Hperm2).
  destruct (post_process_mesh t1 t2 H2) as (Hv & _).
  assert (Hn : length (vertices t2) = length vs) by (rewrite Hv; exact Hlen).
  unfold save_segmentation. cbn [report_written report_total report_mesh report_lines].
  split; [reflexivity|]. split.
  - rewrite total_vertices_concat, (Permutation_length Hperm2), length_seq.
    exact Hlen.
  - split; [exact Hn|]. apply part_lines_ok. rewrite Hn.
    destruct vs; [|discriminate].
    cbn in H1. discriminate.
Qed.

Lemma report_after_geometric_witness :
  report_written (save_segmentation (tool_of (geometric_segmentation (init mesh12 []))))
  = segmentation (tool_of (geometric_segmentation (init mesh12 [])))
  /\ report_total (save_segmentation (tool_of (geometric_segmentation (init mesh12 []))))
     = length mesh12
  /\ report_mesh (save_segmentation (tool_of (geometric_segmentation (init mesh12 []))))
     = length mesh12
  /\ exists lines,
       report_lines (save_segmentation (tool_of (geometric_segmentation (init mesh12 []))))
       = inl lines
       /\ line_counts lines
          = map (fun kv => (fst kv, length (snd kv)))
              (segmentation (tool_of (geometric_segmentation (init mesh12 [])))).
Proof.
  apply (report_after_geometric mesh12 []). vm_compute. reflexivity.
Defined.

(** X15. The statistics of [save_segmentation] raise [ZeroDivisionError]
    exactly when the mesh has no vertex while the segmentation has a
    label; they raise nothing else. *)
Theorem statistics_zero_division t :
  (report_lines (save_segmentation t) = inr ZeroDivisionError
   <-> vertices t = [] /\ segmentation t <> [])
  /\ (forall e, report_lines (save_segmentation t) = inr e -> e = ZeroDivisionError).
Proof.
  unfold save_segmentation. cbn [report_lines].
  destruct (vertices t) as [|v vs] eqn:Hv; cbn [length].
  - destruct (segmentation t) as [|kv items] eqn:Hs.
    + split; [|intros e; discriminate].
      split; [discriminate | intros [_ Hne]; contradiction].
    + rewrite part_lines_zero. split; [|intros e [= <-]; reflexivity].
      split; [intros _; split; [reflexivity | discriminate] | reflexivity].
  - destruct (part_lines_ok (S (length vs)) (segmentation t) ltac:(discriminate))
      as (lines & Hl & _).
    rewrite Hl. split; [|intros e; discriminate].
    split; [discriminate | intros [Hnil _]; discriminate].
Qed.

Lemma transfer_parts_nonempty closest ref_items : forall seg,
  ref_items <> [] \/ seg <> [] ->
  transfer_parts closest ref_items seg <> [].
Proof.
  induction ref_items as [|[k rp] items IH]; intros seg H; cbn [transfer_parts].
  - destruct H as [H|H]; [contradiction | exact H].
  - apply IH. right. destruct seg as [|[k0 v0] seg]; cbn; [discriminate|].
    destruct (String.eqb k0 k); discriminate.
Qed.

(** X16. A run that reaches that exception: transferring a non-empty
    reference segmentation onto a mesh without vertices returns a
    segmentation with the reference labels, all empty, which
    [save_segmentation] writes before its statistics raise
    [ZeroDivisionError]. *)
Theorem transfer_onto_empty_mesh ns r ref_vertices ref_seg :
  NoDup (Dict.keys ref_seg) ->
  ref_seg <> [] ->
  exists t',
    transfer_segmentation (init [] ns) (r :: ref_vertices) ref_seg = Ok t'
    /\ report_written (save_segmentation t') = map (fun kv => (fst kv, [])) ref_seg
    /\ report_lines (save_segmentation t') = inr ZeroDivisionError.
Proof.
  intros Hnd Hne. unfold transfer_segmentation.
  cbn [init vertices closest_indices fold_right bind with_segmentation segmentation].
  eexists. split; [reflexivity|].
  unfold save_segmentation.
  cbn [report_written report_lines segmentation vertices length].
  rewrite transfer_parts_map by (assumption || (intros ? ? [])). cbn [app].
  split; [reflexivity|].
  destruct ref_seg as [|kv items]; [contradiction|]. cbn [map].
  apply part_lines_zero.
Qed.

Lemma transfer_onto_empty_mesh_witness :
  exists t',
    transfer_segmentation (init [] []) mesh_pair ref_split = Ok t'
    /\ report_written (save_segmentation t') = map (fun kv => (fst kv, [])) ref_split
    /\ report_lines (save_segmentation t') = inr ZeroDivisionError.
Proof.
  apply (transfer_onto_empty_mesh [] (0, 0, 0)%float [(5, 0, 0)%float] ref_split).
  - cbn. repeat constructor; cbn; intuition discriminate.
  - discriminate.
Defined.

Lemma ensure_part_concat (seg : segmentation_t) p :
  concat (Dict.values (if Dict.mem seg p then seg else Dict.set seg p []))
  = concat (Dict.values seg).
Proof.
  unfold Dict.mem. destruct (Dict.get seg p) as [vs|] eqn:Hp; [reflexivity|].
  rewrite set_not_in.
  - unfold Dict.values. rewrite map_app, concat_app. cbn. apply app_nil_r.
  - intros Hin. apply in_keys_get in Hin as (v & Hv). congruence.
Qed.

Lemma cluster_assign_perm m ils : forall seg seg',
  cluster_assign m ils seg = Ok seg' ->
  Permutation (concat (Dict.values seg'))
              (concat (Dict.values seg) ++ map fst ils).
Proof.
  induction ils as [|[i c] ils IH]; intros seg seg' H; cbn [cluster_assign] in H.
  - injection H as <-. cbn. rewrite app_nil_r. reflexivity.
  - destruct (cluster_get m c) as [p|] eqn:Hc; [|discriminate]. cbv zeta in H.
    set (seg1 := if Dict.mem seg p then seg else Dict.set seg p []) in *.
    destruct (ensure_part_get seg p) as (vs & Hvs).
    change (Dict.get seg1 p = Some vs) in Hvs.
    unfold dict_append, dict_extend, Dict.item in H. rewrite Hvs in H.
    cbn [bind] in H. apply IH in H. rewrite H.
    rewrite (concat_values_set seg1 p vs [i] Hvs).
    unfold seg1. rewrite ensure_part_concat. cbn [map fst].
    rewrite <- app_assoc. reflexivity.
Qed.

Section ClusteringReport.

Variable scaler_fit_transform : list (list float) -> list (list float).
Variable scaler_inverse_transform :
  list (list float) -> list (list float) -> list (list float).
Variable kmeans_fit_predict :
  nat -> list (list float) -> list nat * list (list float).

(** X17. The clustering segmenter adds to what the tool holds: the total
    that [save_segmentation] reports after it is the total before the call
    plus the number of labels KMeans returned, so after an earlier
    segmentation of the same mesh the reported total exceeds the number of
    mesh vertices. *)
Theorem cluster_total t n_clusters t' features cluster_labels cluster_centers :
  cluster_based_segmentation scaler_fit_transform scaler_inverse_transform
    kmeans_fit_predict t n_clusters = Ok t' ->
  column_stack (vertices t) (vertex_normals t) = Ok features ->
  kmeans_fit_predict n_clusters (scaler_fit_transform features)
  = (cluster_labels, cluster_centers) ->
  report_total (save_segmentation t')
  = report_total (save_segmentation t) + length cluster_labels
  /\ report_mesh (save_segmentation t') = report_mesh (save_segmentation t).
Proof.
  intros Hrun Hf Hk.
  destruct (cluster_segmentation_inv _ _ _ _ _ _ Hrun)
    as (features' & labels' & centers' & Hf' & Hk' & Hassign).
  assert (features' = features) by congruence. subst features'.
  assert (Heq : (labels', centers') = (cluster_labels, cluster_centers))
    by congruence.
  injection Heq as -> ->.
  unfold save_segmentation. cbn [report_total report_mesh]. split.
  - rewrite !total_vertices_concat.
    rewrite (Permutation_length (cluster_assign_perm _ _ _ _ Hassign)).
    rewrite length_app, length_map. unfold enumerate.
    rewrite length_combine, length_seq. lia.
  - unfold cluster_based_segmentation in Hrun. rewrite Hf in Hrun.
    cbn [bind] in Hrun. rewrite Hk in Hrun.
    apply bind_ok in Hrun as (seg & _ & Hrun). injection Hrun as <-. reflexivity.
Qed.

End ClusteringReport.

Lemma cluster_total_witness :
  report_total (save_segmentation (tool_of
     (cluster_based_segmentation toy_fit_transform toy_inverse_transform toy_kmeans
        (tool_of (geometric_segmentation (init mesh12 normals12))) 2)))
  = report_total (save_segmentation
       (tool_of (geometric_segmentation (init mesh12 normals12)))) + 12
  /\ report_mesh (save_segmentation (tool_of
       (cluster_based_segmentation toy_fit_transform toy_inverse_transform toy_kmeans
          (tool_of (geometric_segmentation (init mesh12 normals12))) 2)))
     = report_mesh (save_segmentation
         (tool_of (geometric_segmentation (init mesh12 normals12)))).
Proof.
  refine (cluster_total toy_fit_transform toy_inverse_transform toy_kmeans
            (tool_of (geometric_segmentation (init mesh12 normals12))) 2 _
            (value_or (column_stack
               (vertices (tool_of (geometric_segmentation (init mesh12 normals12))))
               normals12) [])
            (fst (toy_kmeans 2 (value_or (column_stack
               (vertices (tool_of (geometric_segmentation (init mesh12 normals12))))
               normals12) [])))
            (snd (toy_kmeans 2 (value_or (column_stack
               (vertices (tool_of (geometric_segmentation (init mesh12 normals12))))
               normals12) [])))
            _ _ _).
  - vm_compute. reflexivity.
  - vm_compute. reflexivity.
  - vm_compute. reflexivity.
Defined.

(** * Visualization *)

Lemma set_at_length {A} (colors : list A) : forall i c,
  length (set_at colors i c) = length colors.
Proof.
  induction colors as [|x colors IH]; intros [|i] c; cbn; auto.
Qed.

Lemma set_at_same {A} (colors : list A) : forall i c d,
  i < length colors -> nth i (set_at colors i c) d = c.
Proof.
  induction colors as [|x colors IH]; intros [|i] c d Hi; cbn in *; try lia;
    [reflexivity|]. apply IH. lia.
Qed.

Lemma set_at_other {A} (colors : list A) : forall i j c d,
  j <> i -> nth j (set_at colors i c) d = nth j colors d.
Proof.
  induction colors as [|x colors IH]; intros [|i] [|j] c d Hne; cbn;
    try reflexivity; try lia. apply IH. lia.
Qed.

Lemma assign_color_ok colors part c :
  Forall (fun i => i < length colors) part ->
  exists colors',
    assign_color colors part c = inl colors'
    /\ length colors' = length colors
    /\ forall j, nth j colors' None
                 = if existsb (Nat.eqb j) part then Some c else nth j colors None.
Proof.
  intros Hall. unfold assign_color.
  replace (forallb (fun i => Nat.ltb i (length colors)) part) with true.
  2:{ symmetry. apply forallb_forall. rewrite Forall_forall in Hall.
      intros i Hi. apply Nat.ltb_lt, Hall, Hi. }
  eexists. split; [reflexivity|]. revert colors Hall.
  induction part as [|i part IH]; intros colors Hall; cbn [fold_left existsb].
  - split; reflexivity.
  - inversion Hall as [|? ? Hi Hall']; subst.
    destruct (IH (set_at colors i (Some c))) as (Hlen & Hnth).
    { rewrite set_at_length. exact Hall'. }
    split; [rewrite Hlen; apply set_at_length|].
    intros j. rewrite Hnth. destruct (existsb (Nat.eqb j) part).
    + rewrite orb_true_r. reflexivity.
    + rewrite orb_false_r. destruct (Nat.eqb_spec j i) as [->|Hne].
      * apply set_at_same, Hi.
      * apply set_at_other, Hne.
Qed.

Lemma assign_color_error colors part c i :
  In i part -> length colors <= i -> assign_color colors part c = inr IndexError.
Proof.
  intros Hin Hi. unfold assign_color.
  replace (forallb (fun i => Nat.ltb i (length colors)) part) with false;
    [reflexivity|].
  symmetry. apply not_true_iff_false. intros H.
  rewrite forallb_forall in H. specialize (H i Hin). apply Nat.ltb_lt in H. lia.
Qed.

Lemma paint_ok parts : forall colors,
  (forall p i, In p parts -> In i (snd (snd p)) -> i < length colors) ->
  exists colors',
    paint parts colors = inl colors'
    /\ length colors' = length colors
    /\ forall j, nth j colors' None = colour_of parts j (nth j colors None).
Proof.
  induction parts as [|[c [k part]] parts IH]; intros colors Hall;
    cbn [paint colour_of fold_left].
  - exists colors. repeat split.
  - destruct (assign_color_ok colors part c) as (colors1 & Hc1 & Hlen1 & Hnth1).
    { apply Forall_forall. intros i Hi.
      apply (Hall (c, (k, part)) i (or_introl eq_refl) Hi). }
    rewrite Hc1.
    destruct (IH colors1) as (colors' & Hp & Hlen & Hnth).
    { intros p i Hp Hi. rewrite Hlen1. apply (Hall p i (or_intror Hp) Hi). }
    exists colors'. split; [exact Hp|]. split; [congruence|].
    intros j. rewrite Hnth, Hnth1. reflexivity.
Qed.

Lemma paint_length parts : forall colors colors',
  paint parts colors = inl colors' -> length colors' = length colors.
Proof.
  induction parts as [|[c [k part]] parts IH]; intros colors colors' H;
    cbn [paint] in H; [injection H as <-; reflexivity|].
  unfold assign_color in H.
  destruct (forallb _ part); [|discriminate].
  apply IH in H. rewrite H. clear.
  revert colors. induction part as [|i part IH]; intros colors; cbn [fold_left];
    [reflexivity|]. rewrite IH. apply set_at_length.
Qed.

Lemma paint_error parts : forall colors p i,
  In p parts -> In i (snd (snd p)) -> length colors <= i ->
  paint parts colors = inr IndexError.
Proof.
  induction parts as [|[c [k part]] parts IH]; intros colors p i Hp Hi Hle;
    [destruct Hp|]. cbn [paint].
  destruct (assign_color colors part c) as [colors1|e] eqn:Hc.
  - destruct Hp as [<-|Hp].
    + cbn [snd] in Hi. rewrite (assign_color_error colors part c i Hi Hle) in Hc.
      discriminate.
    + apply (IH colors1 p i Hp Hi).
      assert (Hlen : length colors1 = length colors).
      { apply (paint_length [(c, (k, part))] colors colors1). cbn [paint].
        rewrite Hc. reflexivity. }
      lia.
  - unfold assign_color in Hc. destruct (forallb _ part); [discriminate|].
    injection Hc as <-. reflexivity.
Qed.

(** The colour left on a vertex, read off the dict. *)
Lemma colour_of_last items j : forall n start,
  (colour_of (combine (seq n (length items)) items) j start = start
   /\ forall k part, In (k, part) items -> ~ In j part)
  \/ exists pre k part post,
       items = pre ++ (k, part) :: post
       /\ colour_of (combine (seq n (length items)) items) j start
          = Some (n + length pre)
       /\ In j part
       /\ forall k' part', In (k', part') post -> ~ In j part'.
Proof.
  unfold colour_of.
  induction items as [|[k0 p0] items IH]; intros n start;
    cbn [length seq combine fold_left fst snd].
  - left. split; [reflexivity | intros ? ? []].
  - destruct (IH (S n) (if existsb (Nat.eqb j) p0 then Some n else start))
      as [(Heq & Hnone) | (pre & k & part & post & Hitems & Heq & Hin & Hpost)].
    + destruct (existsb (Nat.eqb j) p0) eqn:Hj.
      * right. exists [], k0, p0, items. cbn [app length].
        rewrite Heq, Nat.add_0_r. split; [reflexivity|]. split; [reflexivity|].
        split; [apply existsb_eqb_in, Hj | exact Hnone].
      * left. split; [exact Heq|]. intros k part [[= <- <-]|Hin].
        -- intros Hin. apply existsb_eqb_in in Hin. congruence.
        -- eapply Hnone, Hin.
    + right. exists ((k0, p0) :: pre), k, part, post. rewrite Hitems at 1.
      cbn [app length]. split; [reflexivity|].
      split; [rewrite Heq; f_equal; lia|]. split; assumption.
Qed.

(** The colours of a segmentation whose indices are all indices of the
    mesh. *)
Lemma visualize_spec t :
  segmentation t <> [] ->
  (forall k part i, In (k, part) (segmentation t) -> In i part ->
     i < length (vertices t)) ->
  exists colors,
    visualize_segmentation t = Some (inl colors)
    /\ length colors = length (vertices t)
    /\ forall i, nth i colors None = colour_of (enumerate (segmentation t)) i None.
Proof.
  intros Hne Hrange. unfold visualize_segmentation.
  destruct (segmentation t) as [|kv items] eqn:Hs; [contradiction|].
  rewrite <- Hs in *. clear Hs kv items.
  destruct (paint_ok (enumerate (segmentation t))
              (repeat None (length (vertices t))))
    as (colors & Hp & Hlen & Hnth).
  { intros [c [k part]] i Hin Hi. rewrite repeat_length. cbn [snd] in Hi.
    apply (Hrange k part i); [|exact Hi]. eapply enumerate_snd_in, Hin. }
  exists colors. split; [rewrite Hp; reflexivity|].
  split; [rewrite Hlen; apply repeat_length|].
  intros i. rewrite Hnth. f_equal.
  destruct (Nat.lt_ge_cases i (length (vertices t))) as [Hi|Hi].
  - apply nth_repeat.
  - apply nth_overflow. rewrite repeat_length. exact Hi.
Qed.

(** X18. Which colour [visualize_segmentation] gives a vertex, whenever
    every listed index is an index of the mesh: the colour of the last
    label, in the order of the dict, that lists the vertex (so of the
    labels of an overlap the last one shows), and the default gray exactly
    when no label lists it. *)
Theorem visualize_colours t :
  segmentation t <> [] ->
  (forall k part i, In (k, part) (segmentation t) -> In i part ->
     i < length (vertices t)) ->
  exists colors,
    visualize_segmentation t = Some (inl colors)
    /\ length colors = length (vertices t)
    /\ forall i, i < length (vertices t) ->
         (nth i colors None = None
          /\ forall k part, In (k, part) (segmentation t) -> ~ In i part)
         \/ exists pre k part post,
              segmentation t = pre ++ (k, part) :: post
              /\ nth i colors None = Some (length pre)
              /\ In i part
              /\ forall k' part', In (k', part') post -> ~ In i part'.
Proof.
  intros Hne Hrange.
  destruct (visualize_spec t Hne Hrange) as (colors & Hv & Hlen & Hnth).
  exists colors. split; [exact Hv|]. split; [exact Hlen|].
  intros i _. rewrite Hnth.
  destruct (colour_of_last (segmentation t) i 0 None)
    as [(Heq & Hnone) | (pre & k & part & post & Hitems & Heq & Hin & Hpost)].
  - left. split; assumption.
  - right. exists pre, k, part, post. auto.
Qed.

Lemma visualize_colours_witness :
  exists colors,
    visualize_segmentation
      (tool_of (transfer_segmentation (init mesh_one []) mesh_one ref_overlap))
    = Some (inl colors)
    /\ length colors = 1
    /\ forall i, i < 1 ->
         (nth i colors None = None
          /\ forall k part, In (k, part) ref_overlap -> ~ In i part)
         \/ exists pre k part post,
              ref_overlap = pre ++ (k, part) :: post
              /\ nth i colors None = Some (length pre)
              /\ In i part
              /\ forall k' part', In (k', part') post -> ~ In i part'.
Proof.
  apply (visualize_colours
           (tool_of (transfer_segmentation (init mesh_one []) mesh_one ref_overlap))).
  - discriminate.
  - intros k part i [[= <- <-]|[[= <- <-]|[]]] [<-|[]]; cbn; lia.
Defined.

(** X19. [visualize_segmentation] raises [IndexError] exactly when some
    label lists an index that is no index of the mesh; an empty
    segmentation is not drawn at all. *)
Theorem visualize_index_error t :
  (visualize_segmentation t = Some (inr IndexError)
   <-> exists k part i, In (k, part) (segmentation t) /\ In i part
                        /\ length (vertices t) <= i)
  /\ (visualize_segmentation t = None <-> segmentation t = []).
Proof.
  unfold visualize_segmentation. split.
  - split.
    + intros H. destruct (segmentation t) as [|kv items] eqn:Hs; [discriminate|].
      rewrite <- Hs in *. clear Hs kv items. injection H as H.
      destruct (Forall_Exists_dec
                  (fun kv : string * list nat =>
                     Forall (fun i => i < length (vertices t)) (snd kv))
                  (fun kv => Forall_dec _ (fun i => lt_dec i (length (vertices t)))
                               (snd kv))
                  (segmentation t)) as [Hall|Hex].
      * exfalso.
        destruct (paint_ok (enumerate (segmentation t))
                    (repeat None (length (vertices t)))) as (colors & Hp & _).
        { intros [c [k part]] i Hin Hi. rewrite repeat_length. cbn [snd] in Hi.
          apply enumerate_snd_in in Hin. rewrite Forall_forall in Hall.
          specialize (Hall _ Hin). cbn [snd] in Hall.
          rewrite Forall_forall in Hall. apply Hall, Hi. }
        congruence.
      * apply Exists_exists in Hex as ([k part] & Hin & Hbad). cbn [snd] in Hbad.
        apply neg_Forall_Exists_neg in Hbad;
          [|intros i; apply lt_dec].
        apply Exists_exists in Hbad as (i & Hi & Hge).
        exists k, part, i. repeat split; auto. lia.
    + intros (k & part & i & Hin & Hi & Hge).
      destruct (segmentation t) as [|kv items] eqn:Hs; [destruct Hin|].
      rewrite <- Hs in *. clear Hs kv items. f_equal.
      destruct (In_nth _ _ (k, part) Hin) as (c & Hc & Hnth).
      apply (paint_error _ _ (c, (k, part)) i).
      * rewrite <- Hnth. apply enumerate_in, Hc.
      * exact Hi.
      * rewrite repeat_length. exact Hge.
  - destruct (segmentation t); split; intros H; try reflexivity; discriminate.
Qed.

(** * The command line *)

Lemma geometric_raises_only vs ns e :
  geometric_segmentation (init vs ns) = Raise e ->
  (vs = []
   /\ e = ValueError
            "zero-size array to reduction operation minimum which has no identity")
  \/ (vs <> [] /\ e = KeyError "body").
Proof.
  intros H. destruct vs as [|v vs].
  - left. cbn in H. injection H as <-. split; reflexivity.
  - right. split; [discriminate|].
    destruct (geometric_assignment_total v vs ns) as (t1 & H1).
    destruct (assignment_invariant _ ns t1 H1) as (Hnd & _).
    unfold geometric_segmentation in H. rewrite H1 in H. cbn [bind] in H.
    unfold _post_process_segmentation in H.
    rewrite remove_small_keys in H by assumption. cbn [bind] in H.
    destruct (unassigned_vertices _ _) as [|u us]; [discriminate|].
    unfold dict_extend, Dict.item in H.
    destruct (Dict.get _ "body"); cbn in H; [discriminate|].
    injection H as <-. reflexivity.
Qed.

Lemma geometric_result_facts vs ns t2 :
  geometric_segmentation (init vs ns) = Ok t2 ->
  vs <> []
  /\ NoDup (Dict.keys (segmentation t2))
  /\ Permutation (concat (Dict.values (segmentation t2))) (seq 0 (length vs))
  /\ length (vertices t2) = length vs.
Proof.
  intros H. unfold geometric_segmentation in H.
  apply bind_ok in H as (t1 & H1 & H2).
  destruct (assignment_invariant vs ns t1 H1) as (Hnd & Hperm & Hlen).
  destruct (post_process_partition t1 t2 Hnd Hperm H2) as (Hnd2 & Hperm2).
  destruct (post_process_mesh t1 t2 H2) as (Hv & _).
  split.
  - intros ->. cbn in H1. discriminate.
  - split; [exact Hnd2|]. split; [rewrite <- Hlen; exact Hperm2|].
    rewrite Hv. exact Hlen.
Qed.

(** X20. A whole run of the command line with the geometric method (the
    run of the six-part script as well): it never stops early; it ends in
    an exception only for a mesh without vertices ([ValueError]) or with
    [KeyError] for ["body"]; otherwise the JSON file holds a partition of
    the vertex indices, the statistics are printed without an exception
    with the total equal to the vertex count, and the colouring, when asked
    for, leaves no vertex gray: every vertex shows the colour of the label
    that lists it. *)
Theorem main_geometric load_mesh load_json sft sit kfp args :
  arg_method args = geometric ->
  let vs := fst (load_mesh (arg_input args)) in
  match main load_mesh load_json sft sit kfp args with
  | NotRun => False
  | Crashed e =>
      (vs = []
       /\ e = ValueError
                "zero-size array to reduction operation minimum which has no identity")
      \/ (vs <> [] /\ e = KeyError "body")
  | Saved r shown =>
      partitions (report_written r) (length vs)
      /\ report_total r = length vs
      /\ report_mesh r = length vs
      /\ (exists lines, report_lines r = inl lines)
      /\ if arg_visualize args || given (arg_colored_output args)
         then exists colors,
                shown = Some (Some (inl colors))
                /\ length colors = length vs
                /\ forall i, i < length vs ->
                     exists c k part,
                       nth i colors None = Some c
                       /\ nth_error (report_written r) c = Some (k, part)
                       /\ In i part
         else shown = None
  end.
Proof.
  intros Hm vs. unfold main. rewrite Hm. cbv zeta.
  fold vs. set (ns := snd (load_mesh (arg_input args))).
  destruct (geometric_segmentation (init vs ns)) as [t2|e] eqn:H.
  2:{ apply geometric_raises_only in H. exact H. }
  destruct (geometric_result_facts vs ns t2 H) as (Hne & Hnd & Hperm & Hlen).
  assert (Hn : length (vertices t2) <> 0).
  { rewrite Hlen. destruct vs; [contradiction | discriminate]. }
  destruct (part_lines_ok (length (vertices t2)) (segmentation t2) Hn)
    as (lines & Hl & _).
  assert (Hpart : partitions (segmentation t2) (length vs))
    by (apply permutation_partitions; assumption).
  unfold save_segmentation at 1. cbn [report_lines]. rewrite Hl.
  assert (Hrep : partitions (report_written (save_segmentation t2)) (length vs)
                 /\ report_total (save_segmentation t2) = length vs
                 /\ report_mesh (save_segmentation t2) = length vs
                 /\ exists lines, report_lines (save_segmentation t2) = inl lines).
  { unfold save_segmentation.
    cbn [report_written report_total report_mesh report_lines].
    split; [exact Hpart|]. split.
    - rewrite total_vertices_concat, (Permutation_length Hperm). apply length_seq.
    - split; [exact Hlen | eauto]. }
  destruct (arg_visualize args || given (arg_colored_output args)).
  2:{ destruct Hrep as (? & ? & ? & ?). cbv beta iota.
      repeat (split; [assumption|]). reflexivity. }
  destruct Hrep as (? & ? & ? & ?). cbv beta iota.
  repeat (split; [assumption|]).
  destruct (visualize_spec t2) as (colors & Hv & Hcl & Hnth).
  { intros E. destruct Hpart as [Hcover _].
    destruct vs as [|v vs']; [contradiction|].
    destruct (Hcover 0) as (k & (part & Hget & _) & _); [cbn; lia|].
    rewrite E in Hget. discriminate. }
  { intros k part i Hin Hi. rewrite Hlen. apply (proj2 Hpart k i).
    exists part. split; [apply in_get; assumption | exact Hi]. }
  exists colors. split; [rewrite Hv; reflexivity|].
  split; [rewrite Hcl; exact Hlen|].
  intros i Hi. rewrite Hnth.
  destruct (colour_of_last (segmentation t2) i 0 None)
    as [(_ & Hnone) | (pre & k & part & post & Hitems & Heq & Hin & _)].
  - exfalso. destruct (proj1 Hpart i Hi) as (k & (part & Hget & Hin) & _).
    apply (Hnone k part); [apply get_in, Hget | exact Hin].
  - exists (length pre), k, part. split; [exact Heq|]. split; [|exact Hin].
    unfold save_segmentation. cbn [report_written]. rewrite Hitems.
    rewrite nth_error_app2 by lia. rewrite Nat.sub_diag. reflexivity.
Qed.

Lemma main_geometric_witness :
  match main toy_load_mesh toy_load_json toy_fit_transform toy_inverse_transform
          toy_kmeans geometric_arguments with
  | NotRun => False
  | Crashed e =>
      (mesh12 = []
       /\ e = ValueError
                "zero-size array to reduction operation minimum which has no identity")
      \/ (mesh12 <> [] /\ e = KeyError "body")
  | Saved r shown =>
      partitions (report_written r) (length mesh12)
      /\ report_total r = length mesh12
      /\ report_mesh r = length mesh12
      /\ (exists lines, report_lines r = inl lines)
      /\ exists colors,
           shown = Some (Some (inl colors))
           /\ length colors = length mesh12
           /\ forall i, i < length mesh12 ->
                exists c k part,
                  nth i colors None = Some c
                  /\ nth_error (report_written r) c = Some (k, part)
                  /\ In i part
  end.
Proof.
  exact (main_geometric toy_load_mesh toy_load_json toy_fit_transform
           toy_inverse_transform toy_kmeans geometric_arguments eq_refl).
Defined.

Lemma in_set_inv {V} (d : Dict.t V) k v k' v' :
  In (k', v') (Dict.set d k v) -> (k', v') = (k, v) \/ In (k', v') d.
Proof.
  induction d as [|[k0 v0] d IH]; cbn.
  - intros [<-|[]]. left. reflexivity.
  - destruct (String.eqb_spec k0 k) as [->|Hne]; cbn.
    + intros [<-|Hin]; [left; reflexivity | right; right; exact Hin].
    + intros [<-|Hin]; [right; left; reflexivity|].
      destruct (IH Hin) as [?|?]; [left | right; right]; assumption.
Qed.

Lemma transfer_parts_entries closest ref_items : forall seg k part,
  In (k, part) (transfer_parts closest ref_items seg) ->
  In (k, part) seg
  \/ exists ref_part, part = transfer_part ref_part (enumerate closest) [].
Proof.
  induction ref_items as [|[k0 rp] items IH]; intros seg k part Hin;
    cbn [transfer_parts] in Hin; [left; exact Hin|].
  apply IH in Hin as [Hin|Hin]; [|right; exact Hin].
  apply in_set_inv in Hin as [[= -> ->]|Hin]; [right; eauto | left; exact Hin].
Qed.

Lemma transfer_parts_keys closest ref_items : forall seg k,
  In k (Dict.keys (transfer_parts closest ref_items seg))
  <-> In k (Dict.keys seg) \/ In k (Dict.keys ref_items).
Proof.
  induction ref_items as [|[k0 rp] items IH]; intros seg k; cbn [transfer_parts].
  - cbn. tauto.
  - rewrite IH, in_keys_set.
    change (Dict.keys ((k0, rp) :: items)) with (k0 :: Dict.keys items).
    cbn [In]. split; intros H; intuition auto.
Qed.

(** X21. A whole run of the command line with the transfer method: it
    stops before anything is segmented or saved exactly when a reference
    is missing (an empty string counts as missing); with both references it
    ends in [ValueError] exactly when the reference mesh has no vertex;
    otherwise the JSON file holds the labels of the reference
    segmentation, every index in it is an index of the input mesh, the
    statistics raise [ZeroDivisionError] exactly for an input mesh without
    vertices and a reference segmentation with a label, and the colouring
    raises nothing. *)
Theorem main_transfer load_mesh load_json sft sit kfp args :
  arg_method args = transfer ->
  let vs := fst (load_mesh (arg_input args)) in
  let ref_vertices := fst (load_mesh (path_of (arg_reference_mesh args))) in
  let ref_seg := load_json (path_of (arg_reference_seg args)) in
  let missing := given (arg_reference_mesh args) = false
                 \/ given (arg_reference_seg args) = false in
  match main load_mesh load_json sft sit kfp args with
  | NotRun => missing
  | Crashed e =>
      ~ missing /\ ref_vertices = []
      /\ e = ValueError "attempt to get argmin of an empty sequence"
  | Saved r shown =>
      ~ missing /\ ref_vertices <> []
      /\ report_mesh r = length vs
      /\ (forall k, In k (Dict.keys (report_written r)) <-> In k (Dict.keys ref_seg))
      /\ (forall k part i, In (k, part) (report_written r) -> In i part ->
            i < length vs)
      /\ (report_lines r = inr ZeroDivisionError <-> vs = [] /\ ref_seg <> [])
      /\ forall e, shown <> Some (Some (inr e))
  end.
Proof.
  intros Hm vs ref_vertices ref_seg missing. unfold main. rewrite Hm. cbv zeta.
  fold vs ref_vertices ref_seg. set (ns := snd (load_mesh (arg_input args))).
  destruct (given (arg_reference_mesh args)) eqn:Gm; cbn [negb orb];
    [|left; reflexivity].
  destruct (given (arg_reference_seg args)) eqn:Gs; cbn [negb];
    [|right; reflexivity].
  assert (Hgiven : ~ missing) by (intros [E|E]; discriminate E).
  unfold transfer_segmentation. cbn [init vertices segmentation].
  destruct (closest_indices vs ref_vertices) as [closest|e] eqn:Hc; cbn [bind].
  2:{ split; [exact Hgiven|]. unfold closest_indices in Hc.
      destruct ref_vertices as [|r ref].
      - injection Hc as <-. split; reflexivity.
      - destruct (closest_indices_total vs r ref) as (cs & Hcs).
        unfold closest_indices in Hcs. rewrite Hcs in Hc. discriminate. }
  destruct (closest_indices_inv _ _ _ Hc) as (Hlen & _).
  set (t' := with_segmentation (init vs ns) (transfer_parts closest ref_seg [])).
  assert (Hseg : segmentation t' = transfer_parts closest ref_seg []) by reflexivity.
  assert (Hvs : vertices t' = vs) by reflexivity.
  assert (Hrange : forall k part i, In (k, part) (segmentation t') -> In i part ->
                     i < length vs).
  { intros k part i Hin Hi. rewrite Hseg in Hin.
    apply transfer_parts_entries in Hin as [[]|(rp & ->)].
    apply in_transfer_part in Hi as [Hi _]. lia. }
  assert (Hzero : report_lines (save_segmentation t') = inr ZeroDivisionError
                  <-> vs = [] /\ ref_seg <> []).
  { unfold save_segmentation. cbn [report_lines]. rewrite Hvs, Hseg. split.
    - intros H. destruct vs as [|v vs'].
      + split; [reflexivity|]. intros E. rewrite E in H. cbn in H. discriminate.
      + destruct (part_lines_ok (length (v :: vs')) (transfer_parts closest ref_seg []))
          as (lines & Hl & _); [discriminate|]. congruence.
    - intros [-> Hne]. cbn [length].
      destruct (transfer_parts closest ref_seg []) as [|kv items] eqn:E.
      + exfalso. apply (transfer_parts_nonempty closest ref_seg []); auto.
      + apply part_lines_zero. }
  assert (Hrep : ~ missing /\ ref_vertices <> []
                 /\ report_mesh (save_segmentation t') = length vs
                 /\ (forall k, In k (Dict.keys (report_written (save_segmentation t')))
                               <-> In k (Dict.keys ref_seg))
                 /\ (forall k part i,
                       In (k, part) (report_written (save_segmentation t')) ->
                       In i part -> i < length vs)
                 /\ (report_lines (save_segmentation t') = inr ZeroDivisionError
                     <-> vs = [] /\ ref_seg <> [])).
  { split; [exact Hgiven|]. split.
    { intros E. rewrite E in Hc. discriminate. }
    split; [reflexivity|]. split; [|split; [exact Hrange | exact Hzero]].
    intros k. unfold save_segmentation. cbn [report_written]. rewrite Hseg.
    rewrite transfer_parts_keys. cbn. tauto. }
  destruct Hrep as (? & ? & ? & ? & ? & ?).
  destruct (report_lines (save_segmentation t')) as [lines|e] eqn:Hl.
  2:{ cbv beta iota. repeat (split; [first [assumption | rewrite Hl; assumption]|]).
      intros e'. discriminate. }
  destruct (arg_visualize args || given (arg_colored_output args)).
  2:{ cbv beta iota. repeat (split; [first [assumption | rewrite Hl; assumption]|]).
      intros e'. discriminate. }
  cbv beta iota. repeat (split; [first [assumption | rewrite Hl; assumption]|]).
  intros e' E. injection E as E.
  destruct (segmentation t') as [|kv items] eqn:Hs.
  - unfold visualize_segmentation in E. rewrite Hs in E. discriminate E.
  - destruct (visualize_spec t') as (colors & Hv & _).
    + rewrite Hs. discriminate.
    + intros k part i Hin Hi. rewrite Hvs. rewrite Hs in Hin. eapply Hrange; eassumption.
    + congruence.
Qed.

Lemma main_transfer_witness :
  match main toy_load_mesh toy_load_json toy_fit_transform toy_inverse_transform
          toy_kmeans transfer_arguments with
  | NotRun =>
      given (arg_reference_mesh transfer_arguments) = false
      \/ given (arg_reference_seg transfer_arguments) = false
  | Crashed e =>
      ~ (given (arg_reference_mesh transfer_arguments) = false
         \/ given (arg_reference_seg transfer_arguments) = false)
      /\ mesh12 = []
      /\ e = ValueError "attempt to get argmin of an empty sequence"
  | Saved r shown =>
      ~ (given (arg_reference_mesh transfer_arguments) = false
         \/ given (arg_reference_seg transfer_arguments) = false)
      /\ mesh12 <> []
      /\ report_mesh r = length mesh12
      /\ (forall k, In k (Dict.keys (report_written r)) <-> In k (Dict.keys ref_split))
      /\ (forall k part i, In (k, part) (report_written r) -> In i part ->
            i < length mesh12)
      /\ (report_lines r = inr ZeroDivisionError <-> mesh12 = [] /\ ref_split <> [])
      /\ forall e, shown <> Some (Some (inr e))
  end.
Proof.
  exact (main_transfer toy_load_mesh toy_load_json toy_fit_transform
           toy_inverse_transform toy_kmeans transfer_arguments eq_refl).
Defined.

(** * The six parts *)

Lemma filter_length_all {A} (f : A -> bool) (l : list A) :
  length (filter f l) = length l -> forall x, In x l -> f x = true.
Proof.
  induction l as [|a l IH]; cbn [filter]; [intros _ x []|].
  destruct (f a) eqn:Ha; cbn [length]; intros Hlen x [<-|Hin].
  - exact Ha.
  - apply IH; [lia | exact Hin].
  - pose proof (filter_length_le f l). lia.
  - pose proof (filter_length_le f l). lia.
Qed.

Lemma filter_all {A} (f : A -> bool) (l : list A) :
  (forall x, In x l -> f x = true) -> filter f l = l.
Proof.
  induction l as [|a l IH]; intros H; cbn [filter]; [reflexivity|].
  rewrite (H a (or_introl eq_refl)). f_equal. apply IH.
  intros x Hx. apply H. right. exact Hx.
Qed.

Lemma post_process_keys t1 t2 :
  NoDup (Dict.keys (segmentation t1)) ->
  _post_process_segmentation t1 = Ok t2 ->
  Dict.keys (segmentation t2) = Dict.keys (filter big_enough (segmentation t1))
  /\ forall k part, In (k, part) (segmentation t2) -> min_vertices <= length part.
Proof.
  intros Hnd H. destruct (post_process_cases t1 t2 Hnd H) as (_ & Hcases).
  set (seg1 := filter big_enough (segmentation t1)) in *.
  assert (Hbig1 : forall k part, In (k, part) seg1 -> min_vertices <= length part).
  { intros k part Hin. apply filter_In in Hin as [_ Hb].
    unfold big_enough in Hb. cbn [snd] in Hb.
    apply negb_true_iff, Nat.ltb_ge in Hb. exact Hb. }
  destruct Hcases as [(_ & ->) | (_ & vb & Hvb & ->)].
  - split; [reflexivity | exact Hbig1].
  - split; [apply keys_set_in; eapply get_in_keys, Hvb|].
    intros k part Hin. apply in_set_inv in Hin as [[= -> ->]|Hin].
    + rewrite length_app. apply get_in, Hbig1 in Hvb. lia.
    + eapply Hbig1, Hin.
Qed.

Lemma big_parts_bound (seg : segmentation_t) :
  (forall k part, In (k, part) seg -> min_vertices <= length part) ->
  min_vertices * length seg <= length (concat (Dict.values seg)).
Proof.
  induction seg as [|[k part] seg IH]; intros H; cbn [length]; [lia|].
  unfold Dict.values. cbn [map snd concat]. rewrite length_app.
  fold (Dict.values seg).
  pose proof (H k part (or_introl eq_refl)).
  assert (min_vertices * length seg <= length (concat (Dict.values seg))).
  { apply IH. intros k' part' Hin. apply (H k' part'). right. exact Hin. }
  lia.
Qed.

(** X22. The six parts the test script announces at its end: the result
    of [geometric_segmentation] has the six band names as its keys exactly
    when the assignment loop left at least ten vertices under each of
    them; and the number of labels is at most a tenth of the number of
    vertices, so that no mesh under sixty vertices gives six parts. *)
Theorem six_parts vs ns t1 t2 :
  geometric_assignment (init vs ns) = Ok t1 ->
  geometric_segmentation (init vs ns) = Ok t2 ->
  (Dict.keys (segmentation t2) = Dict.keys height_ranges
   <-> forall k, In k (Dict.keys height_ranges) ->
         min_vertices <= length (indices_of (segmentation t1) k))
  /\ min_vertices * length (Dict.keys (segmentation t2)) <= length vs.
Proof.
  intros H1 H. pose proof H as H2.
  unfold geometric_segmentation in H2. rewrite H1 in H2. cbn [bind] in H2.
  destruct (assignment_invariant vs ns t1 H1) as (Hnd & _ & _).
  destruct (geometric_assignment_spec vs ns t1 H1) as (_ & _ & _ & _ & Hk & _).
  destruct (post_process_keys t1 t2 Hnd H2) as (Hkeys & Hbig).
  destruct (geometric_result_facts vs ns t2 H) as (_ & _ & Hperm & _).
  split.
  - rewrite Hkeys, <- Hk. split.
    + intros E k Hin. apply in_keys_get in Hin as (part & Hget).
      unfold indices_of. rewrite Hget.
      assert (Hall : big_enough (k, part) = true).
      { apply (filter_length_all big_enough (segmentation t1)).
        - apply (f_equal (@length string)) in E. unfold Dict.keys in E.
          rewrite !length_map in E. exact E.
        - apply get_in, Hget. }
      unfold big_enough in Hall. cbn [snd] in Hall.
      apply negb_true_iff, Nat.ltb_ge in Hall. exact Hall.
    + intros Hall. f_equal. apply filter_all. intros [k part] Hin.
      specialize (Hall k (in_map fst _ _ Hin)).
      unfold indices_of in Hall. rewrite (in_get _ _ _ Hnd Hin) in Hall.
      unfold big_enough. cbn [snd]. apply negb_true_iff, Nat.ltb_ge. exact Hall.
  - unfold Dict.keys. rewrite length_map.
    pose proof (big_parts_bound (segmentation t2) Hbig) as Hb.
    rewrite (Permutation_length Hperm), length_seq in Hb. exact Hb.
Qed.

Lemma six_parts_witness :
  (Dict.keys (segmentation (tool_of (geometric_segmentation (init mesh12 []))))
   = Dict.keys height_ranges
   <-> forall k, In k (Dict.keys height_ranges) ->
         min_vertices
         <= length (indices_of
                      (segmentation (tool_of (geometric_assignment (init mesh12 []))))
                      k))
  /\ min_vertices
     * length (Dict.keys (segmentation (tool_of (geometric_segmentation (init mesh12 [])))))
     <= length mesh12.
Proof.
  apply (six_parts mesh12 []); vm_compute; reflexivity.
Defined.

(** * Colouring a mesh from a segmentation file *)

Lemma valid_index n idxs idx :
  In idx (Universal.valid_indices n idxs)
  <-> In idx idxs /\ (0 <= idx < Z.of_nat n)%Z.
Proof.
  unfold Universal.valid_indices. rewrite filter_In, andb_true_iff, !Z.leb_le.
  intuition lia.
Qed.

Lemma existsb_valid n idxs j :
  j < n ->
  existsb (Z.eqb (Z.of_nat j)) (Universal.valid_indices n idxs)
  = existsb (Z.eqb (Z.of_nat j)) idxs.
Proof.
  intros Hj. unfold Universal.valid_indices.
  induction idxs as [|idx idxs IH]; cbn [filter existsb]; [reflexivity|].
  destruct ((0 <=? idx)%Z && (idx <=? Z.of_nat n - 1)%Z) eqn:Hv; cbn [existsb].
  - rewrite IH. reflexivity.
  - rewrite IH. replace (Z.of_nat j =? idx)%Z with false; [reflexivity|].
    symmetry. apply Z.eqb_neq. intros <-.
    apply andb_false_iff in Hv as [Hv|Hv]; apply Z.leb_gt in Hv; lia.
Qed.

Lemma color_rows_spec {A} (c : A) (l : list Z) : forall colors j d,
  Forall (fun idx => (0 <= idx < Z.of_nat (length colors))%Z) l ->
  length (fold_left (fun cs idx => set_at cs (Z.to_nat idx) c) l colors)
  = length colors
  /\ nth j (fold_left (fun cs idx => set_at cs (Z.to_nat idx) c) l colors) d
     = if existsb (Z.eqb (Z.of_nat j)) l then c else nth j colors d.
Proof.
  induction l as [|idx l IH]; intros colors j d Hall; cbn [fold_left existsb].
  - split; reflexivity.
  - inversion Hall as [|? ? Hidx Hall']; subst.
    destruct (IH (set_at colors (Z.to_nat idx) c) j d) as (Hlen & Hnth).
    { rewrite set_at_length. exact Hall'. }
    split; [rewrite Hlen; apply set_at_length|].
    rewrite Hnth. destruct (existsb (Z.eqb (Z.of_nat j)) l).
    + rewrite orb_true_r. reflexivity.
    + rewrite orb_false_r. destruct (Z.eqb_spec (Z.of_nat j) idx) as [<-|Hne].
      * rewrite Nat2Z.id. apply set_at_same. lia.
      * apply set_at_other. lia.
Qed.

Lemma color_part_spec colors idxs c j d :
  length (Universal.color_part colors idxs c) = length colors
  /\ (j < length colors ->
      nth j (Universal.color_part colors idxs c) d
      = if existsb (Z.eqb (Z.of_nat j)) idxs then c else nth j colors d).
Proof.
  unfold Universal.color_part.
  destruct (color_rows_spec c (Universal.valid_indices (length colors) idxs)
              colors j d) as (Hlen & Hnth).
  { apply Forall_forall. intros idx Hin. apply valid_index in Hin. tauto. }
  split; [exact Hlen|]. intros Hj. rewrite Hnth, existsb_valid by exact Hj.
  reflexivity.
Qed.

Lemma color_parts_spec table items : forall colors j d,
  length (Universal.color_parts table items colors) = length colors
  /\ (j < length colors ->
      nth j (Universal.color_parts table items colors) d
      = colour_from table items j (nth j colors d)).
Proof.
  unfold colour_from.
  induction items as [|[k idxs] items IH]; intros colors j d;
    cbn [Universal.color_parts fold_left fst snd].
  - split; reflexivity.
  - destruct (Dict.get table k) as [c|]; [|apply IH].
    destruct (color_part_spec colors idxs c j d) as (Hlen & Hnth).
    destruct (IH (Universal.color_part colors idxs c) j d) as (Hlen' & Hnth').
    split; [congruence|]. intros Hj.
    rewrite Hnth' by (rewrite Hlen; exact Hj). rewrite Hnth by exact Hj.
    reflexivity.
Qed.

Lemma existsb_zeqb_in z l : existsb (Z.eqb z) l = true <-> In z l.
Proof.
  rewrite existsb_exists. split.
  - intros (x & Hin & Heq). apply Z.eqb_eq in Heq. subst. exact Hin.
  - intros Hin. exists z. split; [exact Hin | apply Z.eqb_refl].
Qed.

Lemma colour_from_last table items j : forall start,
  (colour_from table items j start = start
   /\ forall k idxs, In (k, idxs) items -> In (Z.of_nat j) idxs ->
        Dict.get table k = None)
  \/ exists pre k idxs post c,
       items = pre ++ (k, idxs) :: post
       /\ Dict.get table k = Some c
       /\ In (Z.of_nat j) idxs
       /\ colour_from table items j start = c
       /\ forall k' idxs', In (k', idxs') post -> In (Z.of_nat j) idxs' ->
            Dict.get table k' = None.
Proof.
  unfold colour_from.
  induction items as [|[k0 i0] items IH]; intros start; cbn [fold_left fst snd].
  - left. split; [reflexivity | intros ? ? []].
  - set (next := match Dict.get table k0 with
                 | Some c => if existsb (Z.eqb (Z.of_nat j)) i0 then c else start
                 | None => start
                 end).
    destruct (IH next)
      as [(Heq & Hnone)
         | (pre & k & idxs & post & c & Hitems & Hget & Hin & Heq & Hpost)].
    + destruct (Dict.get table k0) as [c|] eqn:Hc.
      * destruct (existsb (Z.eqb (Z.of_nat j)) i0) eqn:Hj.
        -- right. exists [], k0, i0, items, c. cbn [app].
           repeat split; auto. apply existsb_zeqb_in, Hj.
        -- left. split; [exact Heq|]. intros k idxs [[= <- <-]|Hin] Hl.
           ++ apply existsb_zeqb_in in Hl. congruence.
           ++ eapply Hnone; eassumption.
      * left. split; [exact Heq|]. intros k idxs [[= <- <-]|Hin] Hl.
        -- exact Hc.
        -- eapply Hnone; eassumption.
    + right. exists ((k0, i0) :: pre), k, idxs, post, c. rewrite Hitems at 1.
      cbn [app]. repeat split; auto.
Qed.

(** X23. [color_body_mesh] never fails on the indices of the file,
    whatever they are: every vertex keeps a colour, and vertex [j] shows
    the colour of the last label of the file, among those the colour
    scheme knows, that lists [j]; it keeps the default gray when no such
    label lists it. Indices out of range, negative ones and labels without
    a colour change nothing. *)
Theorem color_body_mesh_colours vs seg_path body_seg j :
  j < length vs ->
  length (Universal.vertex_colors (Universal.color_body_mesh vs seg_path body_seg))
  = length vs
  /\ ((nth j (Universal.vertex_colors
                (Universal.color_body_mesh vs seg_path body_seg)) Universal.gray
       = Universal.gray
       /\ forall k idxs, In (k, idxs) body_seg -> In (Z.of_nat j) idxs ->
            Dict.get (Universal.colors seg_path) k = None)
      \/ exists pre k idxs post c,
           body_seg = pre ++ (k, idxs) :: post
           /\ Dict.get (Universal.colors seg_path) k = Some c
           /\ In (Z.of_nat j) idxs
           /\ nth j (Universal.vertex_colors
                       (Universal.color_body_mesh vs seg_path body_seg))
                  Universal.gray = c
           /\ forall k' idxs', In (k', idxs') post -> In (Z.of_nat j) idxs' ->
                Dict.get (Universal.colors seg_path) k' = None).
Proof.
  intros Hj. unfold Universal.color_body_mesh. cbn [Universal.vertex_colors].
  destruct (color_parts_spec (Universal.colors seg_path) body_seg
              (repeat Universal.gray (length vs)) j Universal.gray)
    as (Hlen & Hnth).
  rewrite repeat_length in Hlen, Hnth. split; [exact Hlen|].
  rewrite (Hnth Hj), nth_repeat.
  apply colour_from_last.
Qed.

Lemma color_body_mesh_colours_witness :
  length (Universal.vertex_colors
            (Universal.color_body_mesh mesh_pair "ggg_body_segmentation.json"
               body_seg_mixed))
  = length mesh_pair
  /\ ((nth 0 (Universal.vertex_colors
                (Universal.color_body_mesh mesh_pair "ggg_body_segmentation.json"
                   body_seg_mixed)) Universal.gray
       = Universal.gray
       /\ forall k idxs, In (k, idxs) body_seg_mixed -> In (Z.of_nat 0) idxs ->
            Dict.get (Universal.colors "ggg_body_segmentation.json") k = None)
      \/ exists pre k idxs post c,
           body_seg_mixed = pre ++ (k, idxs) :: post
           /\ Dict.get (Universal.colors "ggg_body_segmentation.json") k = Some c
           /\ In (Z.of_nat 0) idxs
           /\ nth 0 (Universal.vertex_colors
                       (Universal.color_body_mesh mesh_pair
                          "ggg_body_segmentation.json" body_seg_mixed))
                  Universal.gray = c
           /\ forall k' idxs', In (k', idxs') post -> In (Z.of_nat 0) idxs' ->
                Dict.get (Universal.colors "ggg_body_segmentation.json") k' = None).
Proof.
  apply (color_body_mesh_colours mesh_pair "ggg_body_segmentation.json"
           body_seg_mixed 0).
  vm_compute. lia.
Defined.

Lemma fold_set_map {V W} (f : string * V -> W) (items : list (string * V)) :
  forall acc : Dict.t W,
  NoDup (map fst items) ->
  (forall k, In k (map fst items) -> ~ In k (Dict.keys acc)) ->
  fold_left (fun d kv => Dict.set d (fst kv) (f kv)) items acc
  = acc ++ map (fun kv => (fst kv, f kv)) items.
Proof.
  induction items as [|[k v] items IH]; intros acc Hnd Hdisj; cbn [fold_left map].
  - rewrite app_nil_r. reflexivity.
  - inversion Hnd as [|? ? Hk Hnd']; subst. cbn [fst].
    rewrite set_not_in by (apply Hdisj; left; reflexivity).
    rewrite IH; [rewrite <- app_assoc; reflexivity | exact Hnd' |].
    intros k' Hk' Hin. unfold Dict.keys in Hin. rewrite map_app, in_app_iff in Hin.
    destruct Hin as [Hin|[<-|[]]].
    + apply (Hdisj k'); [right; exact Hk' | exact Hin].
    + apply Hk, Hk'.
Qed.

Lemma stats_map n (body_seg : Dict.t (list Z)) :
  NoDup (Dict.keys body_seg) ->
  Universal.stats n body_seg
  = map (fun kv => (fst kv,
                    Universal.part_stats n (Universal.total_vertices body_seg)
                      (snd kv))) body_seg.
Proof.
  intros Hnd. unfold Universal.stats.
  apply (fold_set_map
           (fun kv => Universal.part_stats n (Universal.total_vertices body_seg)
                        (snd kv)) body_seg [] Hnd).
  intros k _ [].
Qed.

Lemma fold_add_sum {A} (f : A -> nat) (l : list A) : forall a,
  fold_left (fun acc x => acc + f x) l a = a + list_sum (map f l).
Proof.
  induction l as [|x l IH]; intros a; cbn [fold_left map].
  - cbn. lia.
  - rewrite IH. change (list_sum (f x :: map f l)) with (f x + list_sum (map f l)).
    lia.
Qed.

Lemma total_vertices_sum (body_seg : Dict.t (list Z)) :
  Universal.total_vertices body_seg
  = list_sum (map (fun kv => length (snd kv)) body_seg).
Proof.
  unfold Universal.total_vertices, Dict.values.
  rewrite (fold_add_sum (@length Z)), map_map. reflexivity.
Qed.

Lemma total_valid_sum n (body_seg : Dict.t (list Z)) :
  NoDup (Dict.keys body_seg) ->
  Universal.total_valid_vertices (Universal.stats n body_seg)
  = list_sum (map (fun kv => length (Universal.valid_indices n (snd kv))) body_seg).
Proof.
  intros Hnd. rewrite stats_map by exact Hnd.
  unfold Universal.total_valid_vertices, Dict.values.
  rewrite (fold_add_sum (@fst nat float)), !map_map. reflexivity.
Qed.

Lemma valid_sum_le n (body_seg : Dict.t (list Z)) :
  list_sum (map (fun kv => length (Universal.valid_indices n (snd kv))) body_seg)
  <= list_sum (map (fun kv => length (snd kv)) body_seg)
  /\ (list_sum (map (fun kv => length (Universal.valid_indices n (snd kv))) body_seg)
      = list_sum (map (fun kv => length (snd kv)) body_seg)
      <-> forall k idxs idx, In (k, idxs) body_seg -> In idx idxs ->
            (0 <= idx < Z.of_nat n)%Z).
Proof.
  induction body_seg as [|[k0 i0] rest (IHle & IHeq)]; cbn [map snd].
  - split; [cbn; lia|]. split; [intros _ ? ? ? [] | reflexivity].
  - change (list_sum (?a :: ?l)) with (a + list_sum l).
    set (s1 := list_sum (map (fun kv : string * list Z =>
                   length (Universal.valid_indices n (snd kv))) rest)) in *.
    set (s2 := list_sum (map (fun kv : string * list Z => length (snd kv)) rest)) in *.
    assert (Hle0 : length (Universal.valid_indices n i0) <= length i0)
      by apply filter_length_le.
    split; [lia|]. split.
    + intros E k idxs idx [[= <- <-]|Hin] Hidx.
      * assert (Hall : forall x, In x i0 ->
                  ((0 <=? x)%Z && (x <=? Z.of_nat n - 1)%Z) = true).
        { apply filter_length_all. unfold Universal.valid_indices in *. lia. }
        specialize (Hall idx Hidx). apply andb_true_iff in Hall as [H1 H2].
        apply Z.leb_le in H1, H2. lia.
      * apply (proj1 IHeq ltac:(lia) k idxs idx Hin Hidx).
    + intros Hall. f_equal.
      * unfold Universal.valid_indices. f_equal. apply filter_all.
        intros x Hx. specialize (Hall k0 i0 x (or_introl eq_refl) Hx).
        apply andb_true_iff. rewrite !Z.leb_le. lia.
      * apply IHeq. intros k idxs idx Hin Hidx.
        apply (Hall k idxs idx (or_intror Hin) Hidx).
Qed.

(** X24. The statistics of [color_body_mesh], for a file whose labels are
    distinct: every label of the file has an entry, with or without a
    colour in the scheme, and its count is the number of its valid
    entries; the total printed beside [100.00%] is at most the number of
    indices the percentages are taken of, and equal to it exactly when
    every index of the file is an index of the mesh. *)
Theorem color_body_mesh_statistics vs seg_path body_seg :
  NoDup (Dict.keys body_seg) ->
  Dict.keys (Universal.part_statistics
               (Universal.color_body_mesh vs seg_path body_seg))
  = Dict.keys body_seg
  /\ (forall k idxs, In (k, idxs) body_seg ->
        exists p,
          Dict.get (Universal.part_statistics
                      (Universal.color_body_mesh vs seg_path body_seg)) k
          = Some (length (Universal.valid_indices (length vs) idxs), p))
  /\ Universal.total_valid (Universal.color_body_mesh vs seg_path body_seg)
     <= Universal.listed (Universal.color_body_mesh vs seg_path body_seg)
  /\ (Universal.total_valid (Universal.color_body_mesh vs seg_path body_seg)
      = Universal.listed (Universal.color_body_mesh vs seg_path body_seg)
      <-> forall k idxs idx, In (k, idxs) body_seg -> In idx idxs ->
            (0 <= idx < Z.of_nat (length vs))%Z).
Proof.
  intros Hnd. unfold Universal.color_body_mesh.
  cbn [Universal.part_statistics Universal.total_valid Universal.listed].
  rewrite total_valid_sum, total_vertices_sum by exact Hnd.
  rewrite stats_map by exact Hnd.
  assert (Hkeys : Dict.keys
            (map (fun kv : string * list Z =>
                    (fst kv,
                     Universal.part_stats (length vs)
                       (list_sum (map (fun kv => length (snd kv)) body_seg))
                       (snd kv))) body_seg)
          = Dict.keys body_seg).
  { unfold Dict.keys. rewrite map_map. reflexivity. }
  rewrite total_vertices_sum.
  split; [exact Hkeys|]. split; [|apply valid_sum_le].
  intros k idxs Hin. eexists. apply in_get; [rewrite Hkeys; exact Hnd|].
  apply in_map_iff. exists (k, idxs). split; [|exact Hin].
  unfold Universal.part_stats. cbn [fst snd]. reflexivity.
Qed.

Lemma color_body_mesh_statistics_witness :
  Dict.keys (Universal.part_statistics
               (Universal.color_body_mesh mesh_pair "ggg_body_segmentation.json"
                  body_seg_mixed))
  = Dict.keys body_seg_mixed
  /\ (forall k idxs, In (k, idxs) body_seg_mixed ->
        exists p,
          Dict.get (Universal.part_statistics
                      (Universal.color_body_mesh mesh_pair
                         "ggg_body_segmentation.json" body_seg_mixed)) k
          = Some (length (Universal.valid_indices (length mesh_pair) idxs), p))
  /\ Universal.total_valid
       (Universal.color_body_mesh mesh_pair "ggg_body_segmentation.json"
          body_seg_mixed)
     <= Universal.listed
          (Universal.color_body_mesh mesh_pair "ggg_body_segmentation.json"
             body_seg_mixed)
  /\ (Universal.total_valid
        (Universal.color_body_mesh mesh_pair "ggg_body_segmentation.json"
           body_seg_mixed)
      = Universal.listed
          (Universal.color_body_mesh mesh_pair "ggg_body_segmentation.json"
             body_seg_mixed)
      <-> forall k idxs idx, In (k, idxs) body_seg_mixed -> In idx idxs ->
            (0 <= idx < Z.of_nat (length mesh_pair))%Z).
Proof.
  apply (color_body_mesh_statistics mesh_pair "ggg_body_segmentation.json"
           body_seg_mixed).
  cbn. repeat constructor; cbn; intuition discriminate.
Defined.

Lemma read_back_keys seg : Dict.keys (read_back seg) = Dict.keys seg.
Proof. unfold read_back, Dict.keys. rewrite map_map. reflexivity. Qed.

Lemma in_read_back seg k idxs :
  In (k, idxs) (read_back seg)
  <-> exists part, In (k, part) seg /\ idxs = map Z.of_nat part.
Proof.
  unfold read_back. rewrite in_map_iff. split.
  - intros ([k' part] & [= <- <-] & Hin). eauto.
  - intros (part & Hin & ->). exists (k, part). split; [reflexivity | exact Hin].
Qed.

Lemma in_map_of_nat i part : In (Z.of_nat i) (map Z.of_nat part) <-> In i part.
Proof.
  rewrite in_map_iff. split.
  - intros (x & Heq & Hin). apply Nat2Z.inj in Heq. subst. exact Hin.
  - intros Hin. exists i. split; [reflexivity | exact Hin].
Qed.

Lemma read_back_total seg :
  Universal.total_vertices (read_back seg) = length (concat (Dict.values seg)).
Proof.
  rewrite total_vertices_sum. unfold read_back, Dict.values. rewrite map_map.
  cbn [snd]. induction seg as [|[k part] seg IH]; [reflexivity|].
  cbn [map concat snd]. change (list_sum (?a :: ?l)) with (a + list_sum l).
  rewrite length_app, length_map, IH. reflexivity.
Qed.

Lemma geometric_result_names vs ns t2 :
  geometric_segmentation (init vs ns) = Ok t2 ->
  incl (Dict.keys (segmentation t2)) (Dict.keys height_ranges).
Proof.
  intros H. unfold geometric_segmentation in H.
  apply bind_ok in H as (t1 & H1 & H2).
  destruct (assignment_invariant vs ns t1 H1) as (Hnd & _ & _).
  destruct (geometric_assignment_spec vs ns t1 H1) as (_ & _ & _ & _ & Hk & _).
  destruct (post_process_keys t1 t2 Hnd H2) as (Hkeys & _).
  rewrite Hkeys, <- Hk. intros k Hin.
  apply in_map_iff in Hin as (kv & <- & Hin).
  apply filter_In in Hin as [Hin _]. apply in_map, Hin.
Qed.

(** The colours of the six-part scheme have red 0 or 1, gray has 0.5. *)
Lemma scheme_colour_not_gray k c :
  Dict.get Universal.ggg_colors k = Some c -> c <> Universal.gray.
Proof.
  intros Hget ->.
  assert (Hg : forall c : Universal.rgba,
            In c (Dict.values Universal.ggg_colors) ->
            PrimFloat.eqb (fst (fst (fst c))) 0.5 = false).
  { intros c Hc. vm_compute in Hc.
    repeat (destruct Hc as [<-|Hc]; [vm_compute; reflexivity|]). destruct Hc. }
  apply get_in in Hget.
  specialize (Hg Universal.gray (in_map snd _ _ Hget)).
  vm_compute in Hg. discriminate Hg.
Qed.

(** X25. The file that [save_segmentation] writes after a geometric
    segmentation, given to [color_body_mesh] with the same mesh and the
    colour scheme of the six parts: every vertex shows the colour the
    scheme has for the one label that lists it, none stays gray, and both
    totals of the statistics equal the number of vertices. *)
Theorem geometric_file_colours_mesh vs ns t2 seg_path :
  geometric_segmentation (init vs ns) = Ok t2 ->
  Universal.contains "ggg_body_segmentation" seg_path = true ->
  (forall i, i < length vs ->
     exists k part c,
       Dict.get (segmentation t2) k = Some part
       /\ In i part
       /\ Dict.get Universal.ggg_colors k = Some c
       /\ c <> Universal.gray
       /\ nth i (Universal.vertex_colors
                   (Universal.color_body_mesh vs seg_path
                      (read_back (report_written (save_segmentation t2)))))
              Universal.gray = c)
  /\ Universal.total_valid
       (Universal.color_body_mesh vs seg_path
          (read_back (report_written (save_segmentation t2))))
     = length vs
  /\ Universal.listed
       (Universal.color_body_mesh vs seg_path
          (read_back (report_written (save_segmentation t2))))
     = length vs.
Proof.
  intros H Hpath.
  destruct (geometric_result_facts vs ns t2 H) as (_ & Hnd & Hperm & _).
  pose proof (geometric_result_names vs ns t2 H) as Hnames.
  pose proof (permutation_partitions _ _ Hnd Hperm) as [Hcover Hin_range].
  unfold save_segmentation. cbn [report_written].
  assert (Hcolour : forall k, In k (Dict.keys (segmentation t2)) ->
            exists c, Dict.get Universal.ggg_colors k = Some c
                      /\ c <> Universal.gray).
  { intros k Hk. apply Hnames in Hk.
    assert (Hc : exists c, Dict.get Universal.ggg_colors k = Some c).
    { cbn in Hk.
      destruct Hk as [<-|[<-|[<-|[<-|[<-|[<-|[]]]]]]]; eexists; vm_compute;
        reflexivity. }
    destruct Hc as (c & Hc). exists c.
    split; [exact Hc | eapply scheme_colour_not_gray, Hc]. }
  split; [|split].
  - intros i Hi. unfold Universal.color_body_mesh.
    cbn [Universal.vertex_colors]. unfold Universal.colors. rewrite Hpath.
    destruct (color_parts_spec Universal.ggg_colors (read_back (segmentation t2))
                (repeat Universal.gray (length vs)) i Universal.gray)
      as (_ & Hnth).
    rewrite repeat_length in Hnth. rewrite (Hnth Hi), nth_repeat. clear Hnth.
    destruct (Hcover i Hi) as (k & (part & Hget & Hin) & _).
    destruct (colour_from_last Universal.ggg_colors (read_back (segmentation t2))
                i Universal.gray)
      as [(_ & Hnone)
         | (pre & k' & idxs & post & c & Hitems & Hc & Hl & Heq & _)].
    + exfalso. destruct (Hcolour k (get_in_keys _ _ _ Hget)) as (c & Hc & _).
      rewrite (Hnone k (map Z.of_nat part)) in Hc; [discriminate| |].
      * apply in_read_back. exists part. split; [apply get_in, Hget | reflexivity].
      * apply in_map_of_nat, Hin.
    + assert (Hin' : In (k', idxs) (read_back (segmentation t2)))
        by (rewrite Hitems; apply in_elt).
      apply in_read_back in Hin' as (part' & Hin' & ->).
      apply in_map_of_nat in Hl.
      exists k', part', c. split; [apply in_get; assumption|].
      split; [exact Hl|]. split; [exact Hc|]. split; [|exact Heq].
      destruct (Hcolour k') as (c' & Hc' & Hgray).
      { change k' with (fst (k', part')). apply in_map, Hin'. }
      congruence.
  - unfold Universal.color_body_mesh. cbn [Universal.total_valid].
    assert (Hnd' : NoDup (Dict.keys (read_back (segmentation t2))))
      by (rewrite read_back_keys; exact Hnd).
    rewrite total_valid_sum by exact Hnd'.
    rewrite (proj2 (proj2 (valid_sum_le (length vs) (read_back (segmentation t2))))).
    + rewrite <- total_vertices_sum, read_back_total, (Permutation_length Hperm).
      apply length_seq.
    + intros k idxs idx Hin Hidx. apply in_read_back in Hin as (part & Hin & ->).
      apply in_map_iff in Hidx as (i & <- & Hi).
      assert (i < length vs).
      { apply (Hin_range k). exists part. split; [apply in_get; assumption | exact Hi]. }
      lia.
  - unfold Universal.color_body_mesh. cbn [Universal.listed].
    rewrite read_back_total, (Permutation_length Hperm). apply length_seq.
Qed.

Lemma geometric_file_colours_mesh_witness :
  (forall i, i < length mesh12 ->
     exists k part c,
       Dict.get (segmentation (tool_of (geometric_segmentation (init mesh12 [])))) k
       = Some part
       /\ In i part
       /\ Dict.get Universal.ggg_colors k = Some c
       /\ c <> Universal.gray
       /\ nth i (Universal.vertex_colors
                   (Universal.color_body_mesh mesh12 "ggg_body_segmentation.json"
                      (read_back
                         (report_written
                            (save_segmentation
                               (tool_of (geometric_segmentation (init mesh12 []))))))))
              Universal.gray = c)
  /\ Universal.total_valid
       (Universal.color_body_mesh mesh12 "ggg_body_segmentation.json"
          (read_back
             (report_written
                (save_segmentation
                   (tool_of (geometric_segmentation (init mesh12 [])))))))
     = length mesh12
  /\ Universal.listed
       (Universal.color_body_mesh mesh12 "ggg_body_segmentation.json"
          (read_back
             (report_written
                (save_segmentation
                   (tool_of (geometric_segmentation (init mesh12 [])))))))
     = length mesh12.
Proof.
  apply (geometric_file_colours_mesh mesh12 []); vm_compute; reflexivity.
Defined.
